(** * Parallax renderer: frame synthesis of [parallax_renderer.py]

    A shallow embedding of [ParallaxRenderer] and a verification of the
    properties its specification states about it, followed by further
    properties of the renderer, of the upload check of [video_api.py]
    that guards it, and of the depth step of [depth_api.py] that
    produces its depth maps.

    Modelling conventions.
    - NumPy arrays are nested lists: a grayscale image is a list of rows
      of 8-bit values, a colour image a list of rows of pixels, a pixel
      the list of its channel values (BGR).
    - A finite floating-point value is the rational [Q] it denotes,
      and every floating-point operation of the renderer is the exact
      operation followed by [Ieee.round]: rounding to the nearest
      number of 53 significant bits (binary64) or 24 (float32), ties to
      even.  The exponent range is not modelled (no overflow, no
      underflow), nor are infinities and NaN: durations, camera
      parameters and offsets are finite.  Conversions to integers
      ([int], [np.floor], [astype]) are written out, and fixed-width
      integers are [Z] with their wrap-around written out.
    - In [depth_api.py] the quotients are left exact: on the 8-bit
      arrays and the image sizes they are applied to, truncating the
      binary64 quotient gives the same integer.
    - A Python exception is [None] in the [option] monad.
    - Strings are strings of characters below 256; the files of a
      directory and the files of an upload form are finite maps keyed
      by path and by field name.
    - Functions of OpenCV and NumPy that the renderer only calls
      ([cv2.resize], [cv2.GaussianBlur], [np.sin], [np.cos]) are
      [Variable]s of a section; what the renderer relies on is stated as
      a [Hypothesis] of that section. *)

From Stdlib Require Import ZArith QArith Qround Qabs Qminmax Qpower Lqa Lia.
From Stdlib Require Import Ascii String DecimalString DecimalPos DecimalN.
From stdpp Require Import base tactics option list strings gmap.

Local Open Scope Z_scope.

(** ** Python and NumPy primitives *)

Module Py.

(** [int(q)] on a float: truncation toward zero. *)
Definition int (q : Q) : Z := Z.quot (Qnum q) (Zpos (Qden q)).

(** [a / b] on integers: true division, [ZeroDivisionError] on [b = 0]. *)
Definition truediv (a b : Z) : option Q :=
  if b =? 0 then None else Some (inject_Z a / inject_Z b)%Q.

(** [max(a, b)]: the second argument only when it is strictly larger. *)
Definition max (a b : Q) : Q := if Qle_bool b a then a else b.

(** [range(n)] *)
Definition range (n : Z) : list Z := Z.of_nat <$> seq 0 (Z.to_nat n).

(** [round(q)] of Python 3: to the nearest integer, ties to even.
    The renderer never calls it; the specification does, and the
    rounding of a floating-point result is stated with it. *)
Definition round (q : Q) : Z :=
  let f := Qfloor q in
  let r := (q - inject_Z f)%Q in
  match (r ?= 1 # 2)%Q with
  | Lt => f
  | Gt => f + 1
  | Eq => if Z.even f then f else f + 1
  end.

(** Normalisation of a slice bound against a length [n]. *)
Definition slice_bound (n i : Z) : Z :=
  if i <? 0 then Z.max 0 (i + n) else Z.min i n.

(** [l[a:b]] *)
Definition slice {A} (l : list A) (a b : Z) : list A :=
  let n := Z.of_nat (length l) in
  let a' := slice_bound n a in
  let b' := slice_bound n b in
  take (Z.to_nat (b' - a')) (drop (Z.to_nat a') l).

End Py.

(** ** Floating-point rounding *)

Module Ieee.

(** [2 ^ k] for an integer exponent [k] of either sign. *)
Definition pow2 (k : Z) : Q := (2 ^ k)%Q.

(** The binary exponent [e] of a positive rational:
    [2^e <= q < 2^(e+1)]. *)
Definition exponent (q : Q) : Z :=
  let k := Z.log2 (Qnum q) - Z.log2 (Zpos (Qden q)) in
  if Qle_bool (pow2 k) q then k else k - 1.

(** A positive rational rounded to [prec] significant bits: the
    nearest multiple of the unit in the last place, ties to even. *)
Definition round_pos (prec : Z) (q : Q) : Q :=
  let ulp := pow2 (exponent q - (prec - 1)) in
  (inject_Z (Py.round (q / ulp)) * ulp)%Q.

(** Rounding to the nearest number of [prec] significant bits, ties to
    even, as IEEE 754 arithmetic does after every operation. *)
Definition round (prec : Z) (q : Q) : Q :=
  match Qnum q with
  | Z0 => 0%Q
  | Zpos _ => round_pos prec q
  | Zneg _ => (- round_pos prec (- q))%Q
  end.

(** Python's [float] and NumPy's [float64]; NumPy's [float32]. *)
Definition binary64 : Q -> Q := round 53.
Definition binary32 : Q -> Q := round 24.

(** The numbers of [prec] significant bits. *)
Definition representable (prec : Z) (q : Q) : Prop :=
  exists m k : Z, Z.abs m < 2 ^ prec /\ (q == inject_Z m * pow2 k)%Q.

(** The bound of the relative error of one rounding. *)
Definition eps (prec : Z) : Q := pow2 (- prec).

(** [b ^ k] *)
Fixpoint qpow (b : Q) (k : nat) : Q :=
  match k with
  | O => 1%Q
  | S k => (b * qpow b k)%Q
  end.

(** [q] is the non-negative exact value [e] up to [k] roundings of
    non-negative intermediate results. *)
Definition within (prec : Z) (k : nat) (q e : Q) : Prop :=
  (0 <= e /\ qpow (1 - eps prec) k * e <= q <= qpow (1 + eps prec) k * e)%Q.

End Ieee.

(** Arithmetic on Python floats and [float64] arrays. *)
Module Fl.

(** [float(z)], the conversion an integer operand undergoes. *)
Definition of_int (z : Z) : Q := Ieee.binary64 (inject_Z z).

Definition add (a b : Q) : Q := Ieee.binary64 (a + b).
Definition sub (a b : Q) : Q := Ieee.binary64 (a - b).
Definition mul (a b : Q) : Q := Ieee.binary64 (a * b).

(** [a / b] on integers: the correctly rounded quotient,
    [ZeroDivisionError] on [b = 0]. *)
Definition truediv (a b : Z) : option Q := Ieee.binary64 <$> Py.truediv a b.

End Fl.

Module Np.

(** [np.clip] on floats and on integers: [minimum(maximum(a, lo), hi)]. *)
Definition clip (a lo hi : Q) : Q := Qmin (Qmax a lo) hi.
Definition clip_int (a lo hi : Z) : Z := Z.min (Z.max a lo) hi.

(** [np.floor] *)
Definition floor (q : Q) : Z := Qfloor q.

(** Two's complement wrap-around to 32 bits: [int32] arithmetic, and
    the model of [.astype(np.int32)] on a whole number out of range
    (which NumPy leaves to the platform). *)
Definition wrap32 (z : Z) : Z := (z + 2 ^ 31) mod 2 ^ 32 - 2 ^ 31.

(** [.astype(np.uint8)] on a float: truncation toward zero.  Outside
    [[0, 256)] the conversion is left to the platform by C; the model
    takes the low eight bits there, and no statement below is about a
    cast outside that range. *)
Definition astype_uint8 (q : Q) : Z := Py.int q mod 256.

(** [a[i]] with NumPy's index rule: [-n <= i < n], negative indices
    count from the end, anything else is an [IndexError]. *)
Definition index {A} (l : list A) (i : Z) : option A :=
  let n := Z.of_nat (length l) in
  if (0 <=? i) && (i <? n) then l !! Z.to_nat i
  else if (- n <=? i) && (i <? 0) then l !! Z.to_nat (n + i)
  else None.

(** [a[i, j]] *)
Definition index2 {A} (g : list (list A)) (i j : Z) : option A :=
  row ← index g i; index row j.

End Np.

(** ** Arrays *)

Abbreviation pixel := (list Z) (only parsing).
Abbreviation grid A := (list (list A)) (only parsing).

(** An image as [cv2.imread] returns it: two axes for a grayscale image
    ([len(img.shape) == 2]), three for a colour image. *)
Inductive ndarray :=
| Gray (g : grid Z)
| Color (g : grid pixel).

Definition height {A} (g : grid A) : Z := Z.of_nat (length g).
Definition width {A} (g : grid A) : Z := Z.of_nat (length (default [] (head g))).
Definition channels (g : grid pixel) : Z :=
  Z.of_nat (length (default [] (head (default [] (head g))))).

(** [img.shape[0]], [img.shape[1]] *)
Definition shape0 (a : ndarray) : Z :=
  match a with Gray g => height g | Color g => height g end.
Definition shape1 (a : ndarray) : Z :=
  match a with Gray g => width g | Color g => width g end.

Definition u8 (v : Z) : Prop := 0 <= v <= 255.

(** A non-empty rectangular array of [h] rows and [w] columns. *)
Definition rect {A} (h w : Z) (g : grid A) : Prop :=
  1 <= h /\ 1 <= w /\
  height g = h /\ Forall (fun row => Z.of_nat (length row) = w) g.

Definition valid_gray (h w : Z) (g : grid Z) : Prop :=
  rect h w g /\ Forall (Forall u8) g.

Definition valid_color (h w c : Z) (g : grid pixel) : Prop :=
  rect h w g /\
  Forall (Forall (fun px => Z.of_nat (length px) = c /\ Forall u8 px)) g.

(** [h] by [w] image of 8-bit values, of the same kind as [src]. *)
Definition valid_like (src : ndarray) (h w : Z) (a : ndarray) : Prop :=
  match src, a with
  | Gray _, Gray g => valid_gray h w g
  | Color s, Color g => valid_color h w (channels s) g
  | _, _ => False
  end.

(** An image as [cv2.imread] returns it; OpenCV keeps the dimensions
    of an array in C [int]s. *)
Definition valid_image (a : ndarray) : Prop :=
  valid_like a (shape0 a) (shape1 a) a /\ shape0 a < 2 ^ 31 /\ shape1 a < 2 ^ 31.

(** [np.zeros((h, w), ...)] with the zero element [z] of the last axes;
    [ValueError] on a negative dimension. *)
Definition zeros {A} (h w : Z) (z : A) : option (grid A) :=
  if (h <? 0) || (w <? 0) then None
  else Some (replicate (Z.to_nat h) (replicate (Z.to_nat w) z)).

(** [a[r0:r1, c0:c1]] *)
Definition slice2 {A} (g : grid A) (r0 r1 c0 c1 : Z) : grid A :=
  (fun row => Py.slice row c0 c1) <$> Py.slice g r0 r1.

(** [l[a:b] = src]: the lengths have to agree (broadcasting of a
    one-element source is not modelled and counts as the [ValueError]). *)
Definition slice_assign {A} (l : list A) (a b : Z) (src : list A) : option (list A) :=
  let n := Z.of_nat (length l) in
  let a' := Py.slice_bound n a in
  let b' := Z.max a' (Py.slice_bound n b) in
  if Z.of_nat (length src) =? b' - a'
  then Some (take (Z.to_nat a') l ++ src ++ drop (Z.to_nat b') l)
  else None.

(** [g[r0:r1, c0:c1] = src] *)
Definition slice_assign2 {A} (g : grid A) (r0 r1 c0 c1 : Z) (src : grid A)
  : option (grid A) :=
  let n := Z.of_nat (length g) in
  let r0' := Py.slice_bound n r0 in
  let r1' := Z.max r0' (Py.slice_bound n r1) in
  if Z.of_nat (length src) =? r1' - r0' then
    rows ← mapM (fun '(drow, srow) => slice_assign drow c0 c1 srow)
                (zip (Py.slice g r0 r1) src);
    Some (take (Z.to_nat r0') g ++ rows ++ drop (Z.to_nat r1') g)
  else None.

(** Sequential [for] loop over [l] threading the state [s]; an
    exception in the body ends it. *)
Fixpoint for_loop {S} (body : S -> Z -> option S) (s : S) (l : list Z) : option S :=
  match l with
  | [] => Some s
  | i :: l => s' ← body s i; for_loop body s' l
  end.

(** Channel-wise combination of four pixels (NumPy broadcasting over
    the last axis). *)
Fixpoint map4 {A B} (f : A -> A -> A -> A -> B) (l1 l2 l3 l4 : list A) : list B :=
  match l1, l2, l3, l4 with
  | a :: l1, b :: l2, c :: l3, d :: l4 => f a b c d :: map4 f l1 l2 l3 l4
  | _, _, _, _ => []
  end.

(** ** The renderer *)

(** [ParallaxRenderer.__init__] *)
Record ParallaxRenderer := {
  self_width : Z;
  self_height : Z;
  self_fps : Z
}.

(** What one iteration of the frame loop computes and writes. *)
Record frame_record := {
  frame_idx : Z;
  progress : Q;
  camera_x : Q;
  camera_y : Q;
  frame : ndarray
}.

(** [np.pi], the binary64 constant. *)
Definition np_pi : Q := 884279719003555 # 281474976710656.

(** The four-corner blend of one channel, in [float64], associated as
    Python evaluates it:
    [img[y0, x0] * (1 - wx) * (1 - wy) + img[y0, x1] * wx * (1 - wy) +
     img[y1, x0] * (1 - wx) * wy + img[y1, x1] * wx * wy]. *)
Definition blend (wx wy : Q) (v00 v01 v10 v11 : Z) : Q :=
  let cx := Fl.sub 1 wx in
  let cy := Fl.sub 1 wy in
  Fl.add
    (Fl.add
       (Fl.add (Fl.mul (Fl.mul (inject_Z v00) cx) cy)
               (Fl.mul (Fl.mul (inject_Z v01) wx) cy))
       (Fl.mul (Fl.mul (inject_Z v10) cx) wy))
    (Fl.mul (Fl.mul (inject_Z v11) wx) wy).

(** The same combination of the four values in exact arithmetic. *)
Definition exact_blend (wx wy : Q) (v00 v01 v10 v11 : Z) : Q :=
  (inject_Z v00 * (1 - wx) * (1 - wy) +
   inject_Z v01 * wx * (1 - wy) +
   inject_Z v10 * (1 - wx) * wy +
   inject_Z v11 * wx * wy)%Q.

(** The clamped corner indices [(x0, x1, y0, y1)] of one sample. *)
Definition corners (h w : Z) (x y : Q) : Z * Z * Z * Z :=
  let x0 := Np.wrap32 (Np.floor x) in
  let x1 := Np.wrap32 (x0 + 1) in
  let y0 := Np.wrap32 (Np.floor y) in
  let y1 := Np.wrap32 (y0 + 1) in
  (Np.clip_int x0 0 (w - 1), Np.clip_int x1 0 (w - 1),
   Np.clip_int y0 0 (h - 1), Np.clip_int y1 0 (h - 1)).

(** One element of the vectorised body of [_bilinear_interpolate]. *)
Definition sample (g : grid pixel) (x y : Q) : option pixel :=
  let h := height g in
  let w := width g in
  let '(x0, x1, y0, y1) := corners h w x y in
  let wx := Fl.sub x (inject_Z x0) in
  let wy := Fl.sub y (inject_Z y0) in
  p00 ← Np.index2 g y0 x0;
  p01 ← Np.index2 g y0 x1;
  p10 ← Np.index2 g y1 x0;
  p11 ← Np.index2 g y1 x1;
  Some (map4 (fun a b c d => Np.astype_uint8 (blend wx wy a b c d)) p00 p01 p10 p11).

(** [img[yi, xi, k]] *)
Definition corner_channel (g : grid pixel) (yi xi : Z) (k : nat) : option Z :=
  px ← Np.index2 g yi xi; px !! k.

(** The values of channel [k] at the four clamped corners of [(x, y)],
    and the weights [(wx, wy)]. *)
Definition corner_values (g : grid pixel) (x y : Q) (k : nat) : option (Z * Z * Z * Z) :=
  let '(x0, x1, y0, y1) := corners (height g) (width g) x y in
  a ← corner_channel g y0 x0 k;
  b ← corner_channel g y0 x1 k;
  c ← corner_channel g y1 x0 k;
  d ← corner_channel g y1 x1 k;
  Some (a, b, c, d).

Definition weights (g : grid pixel) (x y : Q) : Q * Q :=
  let '(x0, _, y0, _) := corners (height g) (width g) x y in
  (Fl.sub x (inject_Z x0), Fl.sub y (inject_Z y0)).

(** [q] is a convex combination of [a], [b], [c] and [d]. *)
Definition convex_of (q : Q) (a b c d : Z) : Prop :=
  exists w00 w01 w10 w11 : Q,
    (0 <= w00 /\ 0 <= w01 /\ 0 <= w10 /\ 0 <= w11 /\
     w00 + w01 + w10 + w11 == 1 /\
     q == w00 * inject_Z a + w01 * inject_Z b + w10 * inject_Z c + w11 * inject_Z d)%Q.

(** Every coordinate of the array lies in [[0, n - 1]]. *)
Definition in_range (n : Z) (coords : grid Q) : Prop :=
  Forall (Forall (fun v => (0 <= v <= inject_Z (n - 1))%Q)) coords.

(** [_bilinear_interpolate(img, x, y)]; [x] and [y] are arrays of the
    same shape. *)
Definition _bilinear_interpolate (img : ndarray) (x y : grid Q) : option ndarray :=
  match img with
  | Gray _ => None
  | Color g =>
      Color <$> mapM (fun '(xrow, yrow) =>
                        mapM (fun '(xv, yv) => sample g xv yv) (zip xrow yrow))
                     (zip x y)
  end.

(** The element at row [i], column [j]. *)
Definition lookup2 {A} (g : grid A) (i j : nat) : option A :=
  row ← g !! i; row !! j.

(** [np.all(result == 0, axis=2)] at one pixel. *)
Definition is_hole (px : pixel) : bool := forallb (Z.eqb 0) px.

(** [result[mask] = background[mask]] with [mask] the holes of
    [result]; an [IndexError] when the shapes differ. *)
Definition fill_from (result background : grid pixel) : option (grid pixel) :=
  if bool_decide (length <$> background = length <$> result)
  then Some (zip_with (zip_with (fun r b => if is_hole r then b else r)) result background)
  else None.

(** [np.mgrid[0:h, 0:w]] over the shape of [g]: [x_coords[i, j] = j],
    [y_coords[i, j] = i]. *)
Definition x_coords {A} (g : grid A) : grid Q :=
  imap (fun _ row => imap (fun j _ => inject_Z (Z.of_nat j)) row) g.
Definition y_coords {A} (g : grid A) : grid Q :=
  imap (fun i row => imap (fun _ _ => inject_Z (Z.of_nat i)) row) g.

(** An integer array as a float array ([.astype(float)]). *)
Definition to_float (a : grid Z) : grid Q :=
  (fun row : list Z => inject_Z <$> row) <$> a.

(** ** Strings, paths and decimal formatting *)

Module PyStr.

(** [str(n)] of a non-negative integer: its decimal digits. *)
Definition decimal (n : N) : string := NilZero.string_of_uint (N.to_uint n).

Fixpoint zeros (k : nat) : string :=
  match k with
  | O => EmptyString
  | S k => String "0" (zeros k)
  end.

(** [digits.zfill(width)] for a string of digits *)
Definition zfill (width : nat) (digits : string) : string :=
  (zeros (width - String.length digits) ++ digits)%string.

(** [format(z, '0<width>d')]: the sign, then the digits padded with
    zeros to the width. *)
Definition format_0d (width : nat) (z : Z) : string :=
  if z <? 0 then ("-" ++ zfill (width - 1) (decimal (Z.to_N (- z))))%string
  else zfill width (decimal (Z.to_N z)).

(** [c in s] for a character [c] *)
Fixpoint contains (c : ascii) (s : string) : bool :=
  match s with
  | EmptyString => false
  | String a s => bool_decide (a = c) || contains c s
  end.

(** [s.lower()] on characters below 256: the ASCII capitals and the
    Latin-1 capitals move by 32. *)
Definition lower_char (c : ascii) : ascii :=
  let n := N_of_ascii c in
  if ((65 <=? n) && (n <=? 90) ||
      (192 <=? n) && (n <=? 222) && negb (n =? 215))%N
  then ascii_of_N (n + 32) else c.

Fixpoint lower (s : string) : string :=
  match s with
  | EmptyString => EmptyString
  | String a s => String (lower_char a) (lower s)
  end.

(** The parts of [s] before and after the last [sep], if there is one. *)
Fixpoint rsplit_last (sep : ascii) (s : string) : option (string * string) :=
  match s with
  | EmptyString => None
  | String a s' =>
      match rsplit_last sep s' with
      | Some (before, after) => Some (String a before, after)
      | None => if bool_decide (a = sep) then Some (EmptyString, s') else None
      end
  end.

(** [s.rsplit(sep, 1)] *)
Definition rsplit1 (sep : ascii) (s : string) : list string :=
  match rsplit_last sep s with
  | Some (before, after) => [before; after]
  | None => [s]
  end.

(** [os.path.join(a, b)] on POSIX *)
Definition path_join (a b : string) : string :=
  match b with
  | String "/" _ => b
  | _ =>
      match rsplit_last "/" a with
      | Some (_, EmptyString) => (a ++ b)%string
      | _ => if bool_decide (a = EmptyString) then b else (a ++ "/" ++ b)%string
      end
  end.

End PyStr.

(** ** The upload check of [video_api.py] *)

Module VideoApi.

Definition ALLOWED_EXTENSIONS : list string :=
  ["png"; "jpg"; "jpeg"; "gif"; "bmp"; "tiff"]%string.

(** [allowed_file(filename)]; [None] would be the [IndexError] of
    [rsplit(...)[1]]. *)
Definition allowed_file (filename : string) : option bool :=
  if PyStr.contains "." filename then
    ext ← Np.index (PyStr.rsplit1 "." filename) 1;
    Some (bool_decide (PyStr.lower ext ∈ ALLOWED_EXTENSIONS))
  else Some false.

(** The answer of a handler after its input check: a 400 with its
    message, or the file names it goes on with. *)
Inductive checked :=
| Error400 (error : string)
| Accepted (filenames : list string).

(** The input check of [generate_video] and of [preview_depth];
    [files] maps a form field to the name of the uploaded file. *)
Definition check_image (files : gmap string string) : option checked :=
  match files !! "image"%string with
  | None => Some (Error400 "No image file provided")
  | Some filename =>
      rejected ←
        (if bool_decide (filename = EmptyString) then Some true
         else ok ← allowed_file filename; Some (negb ok));
      if rejected : bool then Some (Error400 "Invalid or no image file selected")
      else Some (Accepted [filename])
  end.

(** The input check of [generate_video_with_depth] *)
Definition check_image_and_depth (files : gmap string string) : option checked :=
  match files !! "image"%string, files !! "depth_map"%string with
  | Some image_filename, Some depth_filename =>
      rejected ←
        (if bool_decide (image_filename = EmptyString) then Some true
         else ok ← allowed_file image_filename;
              if negb ok then Some true
              else if bool_decide (depth_filename = EmptyString) then Some true
              else ok' ← allowed_file depth_filename; Some (negb ok'));
      if rejected : bool then Some (Error400 "Invalid image or depth map files")
      else Some (Accepted [image_filename; depth_filename])
  | _, _ => Some (Error400 "Both image and depth_map files required")
  end.

End VideoApi.

(** ** Depth processing of [depth_api.py] *)

Module DepthApi.

(** [(new_width, new_height)] when the image is larger than [max_size] *)
Definition new_size (width height max_size : Z) : option (Z * Z) :=
  if width >? height then
    q ← Py.truediv (height * max_size) width;
    Some (max_size, Py.int q)
  else
    q ← Py.truediv (width * max_size) height;
    Some (Py.int q, max_size).

(** [a.min()], [a.max()]; [ValueError] on an empty array *)
Definition array_min (a : grid Z) : option Z :=
  match concat a with
  | [] => None
  | v :: vs => Some (foldr Z.min v vs)
  end.
Definition array_max (a : grid Z) : option Z :=
  match concat a with
  | [] => None
  | v :: vs => Some (foldr Z.max v vs)
  end.

(** [((a - a.min()) / (a.max() - a.min()) * 255).astype(np.uint8)];
    on a flat array every quotient is 0/0, a NaN, and [cast_nan] is
    what the platform makes of it as an 8-bit value. *)
Definition normalize (cast_nan : Z) (depth_array : grid Z) : option (grid Z) :=
  lo ← array_min depth_array;
  hi ← array_max depth_array;
  Some ((fun row : list Z =>
           (fun v : Z =>
              if hi - lo =? 0 then cast_nan
              else Np.astype_uint8
                     (inject_Z (v - lo) / inject_Z (hi - lo) * 255)%Q) <$> row)
        <$> depth_array).

(** [process_image_to_depth]; the estimator, PIL's [resize] and
    [cv2.resize] are arguments. *)
Definition process_image_to_depth
    (depth_estimator : grid pixel -> grid Z)
    (pil_resize : grid pixel -> Z * Z -> option (grid pixel))
    (cv2_resize : ndarray -> Z * Z -> option ndarray)
    (cast_nan : Z) (image_data : grid pixel) (max_size : Z) : option (grid Z) :=
  let original_size := (width image_data, height image_data) in
  image_data ←
    (if Z.max (width image_data) (height image_data) >? max_size then
       size ← new_size (width image_data) (height image_data) max_size;
       pil_resize image_data size
     else Some image_data);
  let depth_array := depth_estimator image_data in
  depth_normalized ← normalize cast_nan depth_array;
  if bool_decide ((width image_data, height image_data) ≠ original_size) then
    depth_resized ← cv2_resize (Gray depth_normalized) original_size;
    match depth_resized with
    | Gray g => Some g
    | Color _ => None
    end
  else Some depth_normalized.

End DepthApi.

(** ** Reference instances of the library functions

    Executable instances of the OpenCV and NumPy functions the renderer
    calls: they meet what the renderer assumes of these functions, and
    the renderer can be evaluated on them. *)

(** Nearest-neighbour resize of a grid. *)
Definition nearest {A} (d : A) (g : grid A) (new_w new_h : Z) : grid A :=
  let h := height g in
  let w := width g in
  (fun i : nat =>
     (fun j : nat =>
        default d (lookup2 g (Z.to_nat (Z.of_nat i * h `div` new_h))
                             (Z.to_nat (Z.of_nat j * w `div` new_w))))
     <$> seq 0 (Z.to_nat new_w))
  <$> seq 0 (Z.to_nat new_h).

Definition resize_nearest (img : ndarray) (size : Z * Z) : option ndarray :=
  let '(new_w, new_h) := size in
  if (new_w <? 1) || (new_h <? 1) then None
  else Some match img with
            | Gray g => Gray (nearest 0 g new_w new_h)
            | Color g =>
                Color (nearest (replicate (Z.to_nat (channels g)) 0) g new_w new_h)
            end.

(** The blur of radius zero. *)
Definition blur_identity (img : grid pixel) (ksize : Z * Z) (sigma : Z) : grid pixel :=
  img.

(** Taylor polynomials of sine and cosine. *)
Definition sin_taylor (a : Q) : Q := (a - a ^ 3 / 6 + a ^ 5 / 120)%Q.
Definition cos_taylor (a : Q) : Q := (1 - a ^ 2 / 2 + a ^ 4 / 24)%Q.

(** Sine and cosine polynomials cut off at -1 and 1. *)
Definition sin_clamped (a : Q) : Q := Np.clip (sin_taylor a) (-1) 1.
Definition cos_clamped (a : Q) : Q := Np.clip (cos_taylor a) (-1) 1.

(** Nearest-neighbour instance of PIL's [resize], which rejects an
    empty size. *)
Definition pil_nearest (img : grid pixel) (size : Z * Z) : option (grid pixel) :=
  let '(new_w, new_h) := size in
  if (new_w <? 1) || (new_h <? 1) then None
  else Some (nearest [] img new_w new_h).

(** A depth estimator that reads the first channel. *)
Definition first_channel (img : grid pixel) : grid Z :=
  (fun row : list (list Z) => (fun px : list Z => default 0 (head px)) <$> row) <$> img.

(** A two by two image, two depth maps and a renderer for them. *)
Definition image_2x2 : grid pixel :=
  [[[10; 20; 30]; [40; 50; 60]]; [[70; 80; 90]; [0; 0; 0]]].
Definition depth_2x2 : grid Z := [[0; 128]; [255; 64]].
Definition depth_mid_2x2 : grid Z := [[128; 128]; [128; 128]].
Definition renderer_2x2 (fps : Z) : ParallaxRenderer :=
  {| self_width := 2; self_height := 2; self_fps := fps |}.

(** A two by two image whose first channel is nowhere below 2. *)
Definition image_lit_2x2 : grid pixel :=
  [[[10; 20; 30]; [40; 50; 60]]; [[70; 80; 90]; [2; 0; 0]]].

(** One row of a black and a dark pixel. *)
Definition image_1x2 : grid pixel := [[[0; 0; 0]; [7; 7; 7]]].

(** One row of two pixels of value 3. *)
Definition image_flat_1x2 : grid pixel := [[[3; 3; 3]; [3; 3; 3]]].

(** A grey image of 49 by 49 pixels. *)
Definition image_49x49 : grid pixel := replicate 49 (replicate 49 [128; 128; 128]).
Definition depth_49x49 : grid Z := replicate 49 (replicate 49 128).

(** Coordinate arrays within a two by two image. *)
Definition coords_x_2x2 : grid Q := [[0; 1 # 2]; [1 # 4; 1]]%Q.
Definition coords_y_2x2 : grid Q := [[0; 0]; [1 # 2; 1]]%Q.

(** [depth_normalized - 0.5] at one pixel of depth value [d], with
    [depth_normalized = depth_map.astype(np.float32) / 255.0]: both
    operations are in float32. *)
Definition centred_depth (d : Z) : Q :=
  let depth_normalized := Ieee.binary32 (inject_Z d / 255) in
  Ieee.binary32 (depth_normalized - (1 # 2)).

Section Renderer.

(** [cv2.resize(img, (new_w, new_h), interpolation=cv2.INTER_LANCZOS4)] *)
Variable cv2_resize : ndarray -> Z * Z -> option ndarray.

(** [cv2.GaussianBlur(image, ksize, sigma)] on a colour image *)
Variable cv2_GaussianBlur : grid pixel -> Z * Z -> Z -> grid pixel.

(** [np.sin], [np.cos] *)
Variable np_sin np_cos : Q -> Q.

(** A resize to a non-empty size returns an image of that size, of the
    kind and channel count of its argument. *)
Hypothesis cv2_resize_spec : forall img new_w new_h,
  valid_image img -> 1 <= new_w -> 1 <= new_h ->
  exists r, cv2_resize img (new_w, new_h) = Some r /\ valid_like img new_h new_w r.

(** The blur keeps the shape of the image. *)
Hypothesis cv2_GaussianBlur_shape : forall img ksize sigma,
  length <$> cv2_GaussianBlur img ksize sigma = length <$> img.

(** The precision of the products of the float32 array
    [depth_normalized - 0.5] with the camera offset and the
    displacement scale.  Under value-based casting (NumPy 1) the array
    keeps its 24 bits and each scalar is first cast to float32; where a
    [np.float64] scalar decides the type (NumPy 2) the offset promotes
    the array to the 53 bits of float64, in which the scalars are
    exact. *)
Variable array_prec : Z.
Hypothesis array_prec_float : 24 <= array_prec.

(** [disp_x], [disp_y] at one pixel of depth value [d]:
    [displacement_scale = movement_strength * 100] and
    [(depth_normalized - 0.5) * offset * displacement_scale]. *)
Definition displacement (d : Z) (offset movement_strength : Q) : Q :=
  let displacement_scale := Fl.mul movement_strength (Fl.of_int 100) in
  Ieee.round array_prec
    (Ieee.round array_prec (centred_depth d * Ieee.round array_prec offset)
     * Ieee.round array_prec displacement_scale).

(** The arrays [disp_x] and [disp_y]. *)
Definition disp_field (depth : grid Z) (offset movement_strength : Q) : grid Q :=
  (fun row : list Z => (fun d => displacement d offset movement_strength) <$> row) <$> depth.

(** [new_x] and [new_y] after the clamp; [x_coords[i, j] = j] and
    [y_coords[i, j] = i], integers that the sum turns into [float64]. *)
Definition new_x (depth : grid Z) (offset_x movement_strength : Q) : grid Q :=
  let w := width depth in
  imap (fun _ row =>
          imap (fun j dx => Np.clip (Fl.add (inject_Z (Z.of_nat j)) dx)
                                    0 (inject_Z (w - 1))) row)
       (disp_field depth offset_x movement_strength).

Definition new_y (depth : grid Z) (offset_y movement_strength : Q) : grid Q :=
  let h := height depth in
  imap (fun i row =>
          imap (fun _ dy => Np.clip (Fl.add (inject_Z (Z.of_nat i)) dy)
                                    0 (inject_Z (h - 1))) row)
       (disp_field depth offset_y movement_strength).

(** The crop or pad that follows the resize, for an array of [A]. *)
Definition center_crop_pad {A} (zero : A) (resized : grid A)
    (new_w new_h target_width target_height : Z) : option (grid A) :=
  let start_x := Z.max 0 ((new_w - target_width) `div` 2) in
  let start_y := Z.max 0 ((new_h - target_height) `div` 2) in
  result ← zeros target_height target_width zero;
  let end_x := Z.min new_w (start_x + target_width) in
  let end_y := Z.min new_h (start_y + target_height) in
  let crop_w := end_x - start_x in
  let crop_h := end_y - start_y in
  let result_start_x := (target_width - crop_w) `div` 2 in
  let result_start_y := (target_height - crop_h) `div` 2 in
  slice_assign2 result
    result_start_y (result_start_y + crop_h)
    result_start_x (result_start_x + crop_w)
    (slice2 resized start_y end_y start_x end_x).

(** [scale = max(target_width / w, target_height / h)] and
    [(new_w, new_h) = (int(w * scale), int(h * scale))].  The rounded
    product can fall just below the target, and [center_crop_pad] then
    pads the missing column or row; it can fall below 1, and
    [cv2.resize] is then asked for an empty size. *)
Definition scaled_size (w h target_width target_height : Z) : option (Z * Z) :=
  sw ← Fl.truediv target_width w;
  sh ← Fl.truediv target_height h;
  let scale := Py.max sw sh in
  Some (Py.int (Fl.mul (Fl.of_int w) scale), Py.int (Fl.mul (Fl.of_int h) scale)).

(** [_resize_with_aspect_ratio]; both branches on [len(img.shape)]. *)
Definition _resize_with_aspect_ratio (img : ndarray)
    (target_width target_height : Z) (is_depth : bool) : option ndarray :=
  '(new_w, new_h) ← scaled_size (shape1 img) (shape0 img) target_width target_height;
  resized ← cv2_resize img (new_w, new_h);
  match img, resized with
  | Gray _, Gray r =>
      Gray <$> center_crop_pad 0 r new_w new_h target_width target_height
  | Color g, Color r =>
      Color <$> center_crop_pad (replicate (Z.to_nat (channels g)) 0) r
                  new_w new_h target_width target_height
  | _, _ => None
  end.

(** [_generate_parallax_frame]; the first value of [result], the
    zeros, is overwritten before it is read. *)
Definition _generate_parallax_frame (image depth_map : ndarray)
    (offset_x offset_y movement_strength : Q) : option ndarray :=
  match depth_map with
  | Color _ => None
  | Gray depth =>
      result ← _bilinear_interpolate image
                 (new_x depth offset_x movement_strength)
                 (new_y depth offset_y movement_strength);
      match image, result with
      | Color img, Color result =>
          if existsb (existsb is_hole) result then
            let background := cv2_GaussianBlur img (51, 51) 20 in
            Color <$> fill_from result background
          else Some (Color result)
      | _, _ => None
      end
  end.

(** [progress] of frame [frame_idx] *)
Definition progress_at (frame_idx total_frames : Z) : option Q :=
  if total_frames >? 1 then Fl.truediv frame_idx (total_frames - 1) else Some 0%Q.

(** The camera offset at [progress] *)
Definition camera_offset (progress movement_range camera_movement : Q) : Q * Q :=
  let angle := Fl.mul (Fl.mul progress (Fl.of_int 2)) np_pi in
  (Fl.mul (Fl.mul (np_sin angle) movement_range) camera_movement,
   Fl.mul (Fl.mul (Fl.mul (np_cos angle) movement_range) camera_movement) (1 # 2)).

(** [total_frames = int(duration * self.fps)] *)
Definition total_frames_of (self : ParallaxRenderer) (duration : Q) : Z :=
  Py.int (Fl.mul duration (Fl.of_int (self_fps self))).

(** The body of the frame loop up to [cv2.imwrite]. *)
Definition render_frame (image_resized depth_resized : ndarray)
    (camera_movement movement_range : Q) (total_frames : Z)
    (frame_idx : Z) : option frame_record :=
  progress ← progress_at frame_idx total_frames;
  let '(camera_x, camera_y) := camera_offset progress movement_range camera_movement in
  frame ← _generate_parallax_frame image_resized depth_resized
            camera_x camera_y camera_movement;
  Some (Build_frame_record frame_idx progress camera_x camera_y frame).

(** One iteration: the frame is written and appended to [frame_paths]. *)
Definition frame_step (image_resized depth_resized : ndarray)
    (camera_movement movement_range : Q) (total_frames : Z)
    (frame_paths : list frame_record) (frame_idx : Z) : option (list frame_record) :=
  written ← render_frame image_resized depth_resized
              camera_movement movement_range total_frames frame_idx;
  Some (frame_paths ++ [written]).

(** [create_parallax_animation] up to the hand-over to the encoder: the
    frames written, in the order of writing.  [image] and [depth_map]
    are what [cv2.imread] returned. *)
Definition create_parallax_animation (self : ParallaxRenderer)
    (image depth_map : option ndarray)
    (camera_movement movement_range duration : Q) : option (list frame_record) :=
  let total_frames := total_frames_of self duration in
  match image, depth_map with
  | Some image, Some depth_map =>
      image_resized ← _resize_with_aspect_ratio image
                        (self_width self) (self_height self) false;
      depth_resized ← _resize_with_aspect_ratio depth_map
                        (self_width self) (self_height self) true;
      for_loop (frame_step image_resized depth_resized
                  camera_movement movement_range total_frames)
               [] (Py.range total_frames)
  | _, _ => None
  end.

(** The path of the file of frame [frame_idx]:
    [os.path.join(temp_dir, f"frame_{frame_idx:06d}.png")] *)
Definition frame_path (temp_dir : string) (frame_idx : Z) : string :=
  PyStr.path_join temp_dir ("frame_" ++ PyStr.format_0d 6 frame_idx ++ ".png")%string.

(** One iteration with its files: [cv2.imwrite(frame_path, frame)]
    stores the frame under its path and the path is appended to
    [frame_paths]. *)
Definition write_step (image_resized depth_resized : ndarray)
    (camera_movement movement_range : Q) (total_frames : Z) (temp_dir : string)
    (state : gmap string ndarray * list string) (frame_idx : Z)
  : option (gmap string ndarray * list string) :=
  written ← render_frame image_resized depth_resized
              camera_movement movement_range total_frames frame_idx;
  let path := frame_path temp_dir frame_idx in
  Some (<[path := frame written]> state.1, state.2 ++ [path]).

(** The files of the temporary directory and [frame_paths] when the
    frame loop of [create_parallax_animation] ends. *)
Definition write_frames (self : ParallaxRenderer)
    (image depth_map : option ndarray)
    (camera_movement movement_range duration : Q) (temp_dir : string)
  : option (gmap string ndarray * list string) :=
  let total_frames := total_frames_of self duration in
  match image, depth_map with
  | Some image, Some depth_map =>
      image_resized ← _resize_with_aspect_ratio image
                        (self_width self) (self_height self) false;
      depth_resized ← _resize_with_aspect_ratio depth_map
                        (self_width self) (self_height self) true;
      for_loop (write_step image_resized depth_resized
                  camera_movement movement_range total_frames temp_dir)
               (∅, []) (Py.range total_frames)
  | _, _ => None
  end.

(** ** Powers of two *)

Lemma pow2_pos (k : Z) : (0 < Ieee.pow2 k)%Q.
Proof. apply Qpower_0_lt. reflexivity. Qed.

Lemma pow2_add (a b : Z) : (Ieee.pow2 (a + b) == Ieee.pow2 a * Ieee.pow2 b)%Q.
Proof. apply Qpower_plus. discriminate. Qed.

Lemma pow2_le (a b : Z) : a <= b -> (Ieee.pow2 a <= Ieee.pow2 b)%Q.
Proof. intros H. apply Qpower_le_compat_l; [done|]. discriminate. Qed.

Lemma pow2_lt (a b : Z) : a < b -> (Ieee.pow2 a < Ieee.pow2 b)%Q.
Proof. intros H. apply Qpower_lt_compat_l; [done|]. reflexivity. Qed.

Lemma pow2_Z (k : Z) : 0 <= k -> (Ieee.pow2 k == inject_Z (2 ^ k))%Q.
Proof. intros H. unfold Ieee.pow2. by rewrite Zpower_Qpower. Qed.

Lemma pow2_0 : (Ieee.pow2 0 == 1)%Q.
Proof. reflexivity. Qed.

Lemma pow2_succ (k : Z) : (Ieee.pow2 (k + 1) == 2 * Ieee.pow2 k)%Q.
Proof. rewrite pow2_add. change (Ieee.pow2 1) with 2%Q. ring. Qed.

Lemma pow2_sub (a b : Z) : (Ieee.pow2 (a - b) == Ieee.pow2 a / Ieee.pow2 b)%Q.
Proof. apply Qpower_minus. discriminate. Qed.

(** ** The exponent *)

Lemma exponent_spec (q : Q) :
  (0 < q)%Q -> (Ieee.pow2 (Ieee.exponent q) <= q < Ieee.pow2 (Ieee.exponent q + 1))%Q.
Proof.
  intros Hq. destruct q as [n d]. unfold Ieee.exponent. cbn [Qnum Qden].
  assert (Hn : 0 < n) by (unfold Qlt in Hq; simpl in Hq; lia).
  set (a := Z.log2 n). set (b := Z.log2 (Z.pos d)).
  destruct (Z.log2_spec n Hn) as [Ha1 Ha2]. fold a in Ha1, Ha2.
  destruct (Z.log2_spec (Z.pos d) ltac:(lia)) as [Hb1 Hb2]. fold b in Hb1, Hb2.
  assert (Ha0 : 0 <= a) by apply Z.log2_nonneg.
  assert (Hb0 : 0 <= b) by apply Z.log2_nonneg.
  assert (Hqd : ((n # d) * inject_Z (Z.pos d) == inject_Z n)%Q).
  { unfold Qeq, Qmult, inject_Z. simpl. lia. }
  assert (Hd : (0 < inject_Z (Z.pos d))%Q) by (rewrite <- (Zlt_Qlt 0); lia).
  assert (Hlo : (Ieee.pow2 (a - b - 1) < n # d)%Q).
  { apply (Qmult_lt_r _ _ (inject_Z (Z.pos d)) Hd). rewrite Hqd.
    apply Qlt_le_trans with (Ieee.pow2 (a - b - 1) * Ieee.pow2 (b + 1))%Q.
    - apply Qmult_lt_l; [apply pow2_pos|].
      rewrite pow2_Z by lia. rewrite <- Zlt_Qlt. lia.
    - rewrite <- pow2_add. replace (a - b - 1 + (b + 1)) with a by lia.
      rewrite pow2_Z by lia. rewrite <- Zle_Qle. lia. }
  assert (Hhi : (n # d < Ieee.pow2 (a - b + 1))%Q).
  { apply (Qmult_lt_r _ _ (inject_Z (Z.pos d)) Hd). rewrite Hqd.
    apply Qlt_le_trans with (Ieee.pow2 (a - b + 1) * Ieee.pow2 b)%Q.
    - rewrite <- pow2_add. replace (a - b + 1 + b) with (a + 1) by lia.
      rewrite pow2_Z by lia. rewrite <- Zlt_Qlt. lia.
    - apply Qmult_le_l; [apply pow2_pos|].
      rewrite pow2_Z by lia. rewrite <- Zle_Qle. lia. }
  destruct (Qle_bool (Ieee.pow2 (a - b)) (n # d)) eqn:E.
  - apply Qle_bool_iff in E. split; done.
  - assert (Hlt : (n # d < Ieee.pow2 (a - b))%Q).
    { apply Qnot_le_lt. intros H. apply Qle_bool_iff in H. congruence. }
    replace (a - b - 1 + 1) with (a - b) by lia. split; [by apply Qlt_le_weak|done].
Qed.

Lemma exponent_unique (q : Q) (e : Z) :
  (Ieee.pow2 e <= q < Ieee.pow2 (e + 1))%Q -> Ieee.exponent q = e.
Proof.
  intros [H1 H2].
  assert (Hq : (0 < q)%Q) by (eapply Qlt_le_trans; [apply pow2_pos|exact H1]).
  destruct (exponent_spec q Hq) as [E1 E2].
  destruct (Z.lt_trichotomy (Ieee.exponent q) e) as [Hlt|[Heq|Hgt]]; [|done|].
  - pose proof (pow2_le (Ieee.exponent q + 1) e ltac:(lia)). lra.
  - pose proof (pow2_le (e + 1) (Ieee.exponent q) ltac:(lia)). lra.
Qed.

Lemma exponent_comp (q q' : Q) : (0 < q)%Q -> (q == q')%Q -> Ieee.exponent q = Ieee.exponent q'.
Proof.
  intros Hq E. symmetry. apply exponent_unique. rewrite <- E. by apply exponent_spec.
Qed.

Lemma exponent_mono (q q' : Q) : (0 < q)%Q -> (q <= q')%Q -> Ieee.exponent q <= Ieee.exponent q'.
Proof.
  intros Hq Hle.
  destruct (exponent_spec q Hq) as [E1 E2].
  destruct (exponent_spec q' ltac:(lra)) as [E1' E2'].
  destruct (Z_le_gt_dec (Ieee.exponent q) (Ieee.exponent q')) as [|Hgt]; [done|].
  pose proof (pow2_le (Ieee.exponent q' + 1) (Ieee.exponent q) ltac:(lia)). lra.
Qed.

(** ** Rounding to an integer, ties to even *)

Lemma rint_cases (x : Q) :
  (Py.round x = Qfloor x /\ (x - inject_Z (Qfloor x) <= 1 # 2)%Q) \/
  (Py.round x = Qfloor x + 1 /\ (1 # 2 <= x - inject_Z (Qfloor x))%Q).
Proof.
  unfold Py.round. cbv zeta.
  destruct (Qcompare_spec (x - inject_Z (Qfloor x)) (1 # 2)) as [E|E|E].
  - destruct (Z.even (Qfloor x)); [left|right]; split; try done; rewrite E; apply Qle_refl.
  - left. split; [done|]. by apply Qlt_le_weak.
  - right. split; [done|]. by apply Qlt_le_weak.
Qed.

Lemma rint_near (x : Q) : (Qabs (inject_Z (Py.round x) - x) <= 1 # 2)%Q.
Proof.
  pose proof (Qfloor_le x) as H1. pose proof (Qlt_floor x) as H2.
  rewrite inject_Z_plus in H2. change (inject_Z 1) with 1%Q in H2.
  apply Qabs_Qle_condition.
  destruct (rint_cases x) as [[-> H]|[-> H]].
  - split; lra.
  - rewrite inject_Z_plus. change (inject_Z 1) with 1%Q. split; lra.
Qed.

Lemma rint_comp (x y : Q) : (x == y)%Q -> Py.round x = Py.round y.
Proof.
  intros E. unfold Py.round. cbv zeta. rewrite (Qfloor_comp _ _ E).
  assert (E' : (x - inject_Z (Qfloor y) == y - inject_Z (Qfloor y))%Q) by (by rewrite E).
  by rewrite (Qcompare_comp _ _ E' (1 # 2) (1 # 2) (Qeq_refl _)).
Qed.

Lemma rint_Z (x : Q) (n : Z) : (x == inject_Z n)%Q -> Py.round x = n.
Proof.
  intros E. rewrite (rint_comp _ _ E). unfold Py.round. cbv zeta.
  rewrite Qfloor_Z.
  assert (H : (inject_Z n - inject_Z n ?= 1 # 2)%Q = Lt).
  { apply (proj1 (Qlt_alt _ _)). lra. }
  by rewrite H.
Qed.

Lemma rint_mono (x y : Q) : (x <= y)%Q -> Py.round x <= Py.round y.
Proof.
  intros Hxy. pose proof (Qfloor_resp_le _ _ Hxy) as Hf.
  pose proof (Qfloor_le x). pose proof (Qlt_floor x) as Hx2.
  pose proof (Qfloor_le y). pose proof (Qlt_floor y) as Hy2.
  rewrite inject_Z_plus in Hx2, Hy2. change (inject_Z 1) with 1%Q in Hx2, Hy2.
  destruct (Z.eq_dec (Qfloor x) (Qfloor y)) as [Heq|Hne].
  - unfold Py.round. cbv zeta. rewrite <- Heq.
    destruct (Qcompare_spec (x - inject_Z (Qfloor x)) (1 # 2)) as [E|E|E];
    destruct (Qcompare_spec (y - inject_Z (Qfloor x)) (1 # 2)) as [E'|E'|E'];
      first [lia | exfalso; lra | destruct (Z.even (Qfloor x)); lia].
  - destruct (rint_cases x) as [[-> _]|[-> _]], (rint_cases y) as [[-> _]|[-> _]]; lia.
Qed.

(** ** Rounding to [prec] bits *)

Section Rounding.

Variable prec : Z.
Hypothesis prec_pos : 1 <= prec.

Lemma div_pow2 (q : Q) (s : Z) : (q / Ieee.pow2 s * Ieee.pow2 s == q)%Q.
Proof. field. pose proof (pow2_pos s). lra. Qed.

Lemma scaled_bounds (q : Q) :
  (0 < q)%Q ->
  (Ieee.pow2 (prec - 1) <= q / Ieee.pow2 (Ieee.exponent q - (prec - 1)) < Ieee.pow2 prec)%Q.
Proof.
  intros Hq. destruct (exponent_spec q Hq) as [E1 E2].
  set (s := Ieee.exponent q - (prec - 1)) in *.
  pose proof (pow2_pos s) as Hs.
  assert (H1 : (Ieee.pow2 (Ieee.exponent q) == Ieee.pow2 (prec - 1) * Ieee.pow2 s)%Q).
  { rewrite <- pow2_add. by replace (prec - 1 + s) with (Ieee.exponent q) by lia. }
  assert (H2 : (Ieee.pow2 (Ieee.exponent q + 1) == Ieee.pow2 prec * Ieee.pow2 s)%Q).
  { rewrite <- pow2_add. by replace (prec + s) with (Ieee.exponent q + 1) by lia. }
  split.
  - apply Qle_shift_div_l; [done|]. by rewrite <- H1.
  - apply Qlt_shift_div_r; [done|]. by rewrite <- H2.
Qed.

Lemma mantissa_bounds (q : Q) :
  (0 < q)%Q ->
  2 ^ (prec - 1) <= Py.round (q / Ieee.pow2 (Ieee.exponent q - (prec - 1))) <= 2 ^ prec.
Proof.
  intros Hq. destruct (scaled_bounds q Hq) as [H1 H2].
  rewrite (pow2_Z (prec - 1)) in H1 by lia. rewrite (pow2_Z prec) in H2 by lia.
  split.
  - rewrite <- (rint_Z (inject_Z (2 ^ (prec - 1))) _ (Qeq_refl _)). by apply rint_mono.
  - rewrite <- (rint_Z (inject_Z (2 ^ prec)) _ (Qeq_refl _)).
    apply rint_mono. by apply Qlt_le_weak.
Qed.

Lemma round_pos_bounds (q : Q) :
  (0 < q)%Q ->
  (Ieee.pow2 (Ieee.exponent q) <= Ieee.round_pos prec q <= Ieee.pow2 (Ieee.exponent q + 1))%Q.
Proof.
  intros Hq. destruct (mantissa_bounds q Hq) as [H1 H2]. unfold Ieee.round_pos.
  set (s := Ieee.exponent q - (prec - 1)) in *. pose proof (pow2_pos s) as Hs.
  set (M := Py.round (q / Ieee.pow2 s)) in *.
  assert (E1 : (Ieee.pow2 (Ieee.exponent q) == inject_Z (2 ^ (prec - 1)) * Ieee.pow2 s)%Q).
  { rewrite <- pow2_Z by lia. rewrite <- pow2_add.
    by replace (prec - 1 + s) with (Ieee.exponent q) by lia. }
  assert (E2 : (Ieee.pow2 (Ieee.exponent q + 1) == inject_Z (2 ^ prec) * Ieee.pow2 s)%Q).
  { rewrite <- pow2_Z by lia. rewrite <- pow2_add.
    by replace (prec + s) with (Ieee.exponent q + 1) by lia. }
  rewrite E1, E2. split; (apply Qmult_le_compat_r; [|by apply Qlt_le_weak]);
    by rewrite <- Zle_Qle.
Qed.

Lemma round_pos_near (q : Q) :
  (0 < q)%Q ->
  (Qabs (Ieee.round_pos prec q - q) <= Ieee.pow2 (Ieee.exponent q - prec))%Q.
Proof.
  intros Hq. unfold Ieee.round_pos.
  set (s := Ieee.exponent q - (prec - 1)). pose proof (pow2_pos s) as Hs.
  pose proof (rint_near (q / Ieee.pow2 s)) as Hn.
  set (M := inject_Z (Py.round (q / Ieee.pow2 s))) in *.
  assert (E : (M * Ieee.pow2 s - q == (M - q / Ieee.pow2 s) * Ieee.pow2 s)%Q).
  { field. lra. }
  rewrite E, Qabs_Qmult, (Qabs_pos (Ieee.pow2 s)) by lra.
  assert (Eh : (Ieee.pow2 (Ieee.exponent q - prec) == (1 # 2) * Ieee.pow2 s)%Q).
  { replace (Ieee.exponent q - prec) with (-1 + s) by lia. rewrite pow2_add. reflexivity. }
  rewrite Eh. apply Qmult_le_compat_r; [done|lra].
Qed.

Lemma round_pos_error (q : Q) :
  (0 < q)%Q -> (Qabs (Ieee.round_pos prec q - q) <= Ieee.pow2 (- prec) * q)%Q.
Proof.
  intros Hq. eapply Qle_trans; [by apply round_pos_near|].
  destruct (exponent_spec q Hq) as [E1 _].
  replace (Ieee.exponent q - prec) with (- prec + Ieee.exponent q) by lia. rewrite pow2_add.
  apply Qmult_le_l; [apply pow2_pos|done].
Qed.

Lemma round_pos_comp (q q' : Q) :
  (0 < q)%Q -> (q == q')%Q -> (Ieee.round_pos prec q == Ieee.round_pos prec q')%Q.
Proof.
  intros Hq E. unfold Ieee.round_pos. rewrite <- (exponent_comp q q' Hq E).
  assert (E' : (q / Ieee.pow2 (Ieee.exponent q - (prec - 1))
                == q' / Ieee.pow2 (Ieee.exponent q - (prec - 1)))%Q)
    by (apply Qdiv_comp; [exact E|reflexivity]).
  by rewrite (rint_comp _ _ E').
Qed.

Lemma round_pos_mono (q q' : Q) :
  (0 < q)%Q -> (q <= q')%Q -> (Ieee.round_pos prec q <= Ieee.round_pos prec q')%Q.
Proof.
  intros Hq Hle. assert (Hq' : (0 < q')%Q) by lra.
  pose proof (exponent_mono q q' Hq Hle) as He.
  destruct (Z.eq_dec (Ieee.exponent q) (Ieee.exponent q')) as [Heq|Hne].
  - unfold Ieee.round_pos. rewrite <- Heq.
    set (s := Ieee.exponent q - (prec - 1)). pose proof (pow2_pos s) as Hs.
    apply Qmult_le_compat_r; [|lra]. rewrite <- Zle_Qle. apply rint_mono.
    apply Qmult_le_compat_r; [done|]. apply Qlt_le_weak, Qinv_lt_0_compat, Hs.
  - destruct (round_pos_bounds q Hq) as [_ H1].
    destruct (round_pos_bounds q' Hq') as [H2 _].
    pose proof (pow2_le (Ieee.exponent q + 1) (Ieee.exponent q') ltac:(lia)). lra.
Qed.

Lemma round_pos_exact (q : Q) (m k : Z) :
  0 < m < 2 ^ prec -> (q == inject_Z m * Ieee.pow2 k)%Q -> (Ieee.round_pos prec q == q)%Q.
Proof.
  intros [Hm1 Hm2] E.
  assert (Hq : (0 < q)%Q).
  { rewrite E. apply Qmult_lt_0_compat; [|apply pow2_pos]. by rewrite <- (Zlt_Qlt 0). }
  destruct (Z.log2_spec m Hm1) as [L1 L2]. pose proof (Z.log2_nonneg m) as L0.
  assert (Hlog : Z.log2 m < prec).
  { apply (Z.pow_lt_mono_r_iff 2); lia. }
  assert (He : Ieee.exponent q = Z.log2 m + k).
  { apply exponent_unique. rewrite E. split.
    - rewrite pow2_add. apply Qmult_le_compat_r; [|apply Qlt_le_weak, pow2_pos].
      rewrite pow2_Z by lia. by rewrite <- Zle_Qle.
    - replace (Z.log2 m + k + 1) with (Z.log2 m + 1 + k) by lia. rewrite pow2_add.
      apply Qmult_lt_compat_r; [apply pow2_pos|].
      rewrite pow2_Z by lia. rewrite <- Zlt_Qlt. lia. }
  unfold Ieee.round_pos. rewrite He.
  set (s := Z.log2 m + k - (prec - 1)). pose proof (pow2_pos s) as Hs.
  assert (Hx : (q / Ieee.pow2 s == inject_Z (m * 2 ^ (prec - 1 - Z.log2 m)))%Q).
  { rewrite E, inject_Z_mult, <- pow2_Z by lia.
    unfold Qdiv. rewrite <- Qmult_assoc. apply Qmult_comp; [reflexivity|].
    replace (prec - 1 - Z.log2 m) with (k - s) by lia. by rewrite pow2_sub. }
  rewrite (rint_Z _ _ Hx), <- Hx. apply div_pow2.
Qed.

Lemma round_of_pos (q : Q) : (0 < q)%Q -> Ieee.round prec q = Ieee.round_pos prec q.
Proof.
  intros Hq. unfold Ieee.round. destruct q as [[|n|n] d]; try done.
Qed.

Lemma round_of_neg (q : Q) : (q < 0)%Q -> Ieee.round prec q = (- Ieee.round_pos prec (- q))%Q.
Proof.
  intros Hq. unfold Ieee.round. destruct q as [[|n|n] d]; try done.
Qed.

Lemma round_of_0 (q : Q) : (q == 0)%Q -> Ieee.round prec q = 0%Q.
Proof.
  intros Hq. unfold Ieee.round. destruct q as [[|n|n] d]; try done.
Qed.

Lemma round_sign (q : Q) :
  ((0 < q)%Q /\ (0 < Ieee.round prec q)%Q) \/
  ((q == 0)%Q /\ Ieee.round prec q = 0%Q) \/
  ((q < 0)%Q /\ (Ieee.round prec q < 0)%Q).
Proof.
  destruct (Q_dec q 0) as [[Hneg|Hpos]|Hz].
  - right. right. split; [done|]. rewrite round_of_neg by done.
    assert (Hq : (0 < - q)%Q) by lra.
    destruct (round_pos_bounds (- q) Hq) as [H _].
    pose proof (pow2_pos (Ieee.exponent (- q))). lra.
  - left. split; [done|]. rewrite round_of_pos by done.
    destruct (round_pos_bounds q Hpos) as [H _].
    pose proof (pow2_pos (Ieee.exponent q)). lra.
  - right. left. split; [done|]. by apply round_of_0.
Qed.

Lemma round_comp (q q' : Q) : (q == q')%Q -> (Ieee.round prec q == Ieee.round prec q')%Q.
Proof.
  intros E. destruct (Q_dec q 0) as [[Hneg|Hpos]|Hz].
  - rewrite !round_of_neg by lra. apply Qopp_comp.
    apply round_pos_comp; [lra|by rewrite E].
  - rewrite !round_of_pos by lra. by apply round_pos_comp.
  - by rewrite !round_of_0 by lra.
Qed.

Lemma round_opp (q : Q) : (Ieee.round prec (- q) == - Ieee.round prec q)%Q.
Proof.
  destruct (Q_dec q 0) as [[Hneg|Hpos]|Hz].
  - rewrite (round_of_pos (- q)), (round_of_neg q) by lra. ring.
  - rewrite (round_of_neg (- q)), (round_of_pos q) by lra.
    apply Qopp_comp. apply round_pos_comp; [lra|ring].
  - rewrite !round_of_0 by lra. reflexivity.
Qed.

Lemma round_le (q q' : Q) : (q <= q')%Q -> (Ieee.round prec q <= Ieee.round prec q')%Q.
Proof.
  intros Hle.
  destruct (round_sign q) as [[Hq Hr]|[[Hq Hr]|[Hq Hr]]];
  destruct (round_sign q') as [[Hq' Hr']|[[Hq' Hr']|[Hq' Hr']]]; try lra.
  - rewrite !round_of_pos by done. by apply round_pos_mono.
  - rewrite Hr. lra.
  - rewrite Hr, Hr'. lra.
  - rewrite Hr'. lra.
  - rewrite !round_of_neg by done. apply Qopp_le_compat.
    apply round_pos_mono; lra.
Qed.

Lemma round_exact (q : Q) : Ieee.representable prec q -> (Ieee.round prec q == q)%Q.
Proof.
  intros (m & k & Hm & E).
  destruct (Z.lt_trichotomy m 0) as [Hneg|[Hz|Hpos]].
  - assert (Hq : (q < 0)%Q).
    { rewrite E. pose proof (pow2_pos k).
      assert (inject_Z m < 0)%Q by (rewrite <- (Zlt_Qlt _ 0); lia). nra. }
    rewrite round_of_neg by done.
    rewrite (round_pos_exact (- q) (- m) k); [ring|lia|].
    rewrite E, inject_Z_opp. ring.
  - subst m. rewrite round_of_0; [by rewrite E; ring|]. rewrite E. ring.
  - assert (Hq : (0 < q)%Q).
    { rewrite E. apply Qmult_lt_0_compat; [|apply pow2_pos]. by rewrite <- (Zlt_Qlt 0). }
    rewrite round_of_pos by done. apply (round_pos_exact q m k); [lia|done].
Qed.

Lemma representable_Z (n : Z) : Z.abs n <= 2 ^ prec -> Ieee.representable prec (inject_Z n).
Proof.
  intros Hn. destruct (Z.eq_dec (Z.abs n) (2 ^ prec)) as [E|E].
  - exists (Z.sgn n), prec. split.
    + assert (1 < 2 ^ prec) by (apply Z.pow_gt_1; lia). lia.
    + rewrite pow2_Z by lia. rewrite <- inject_Z_mult.
      by replace (Z.sgn n * 2 ^ prec) with n by lia.
  - exists n, 0. split; [lia|]. rewrite pow2_0. ring.
Qed.

Lemma round_Z_exact (q : Q) (n : Z) :
  Z.abs n <= 2 ^ prec -> (q == inject_Z n)%Q -> (Ieee.round prec q == inject_Z n)%Q.
Proof.
  intros Hn E. rewrite (round_comp _ _ E). by apply round_exact, representable_Z.
Qed.

Lemma round_error (q : Q) : (Qabs (Ieee.round prec q - q) <= Ieee.pow2 (- prec) * Qabs q)%Q.
Proof.
  destruct (Q_dec q 0) as [[Hneg|Hpos]|Hz].
  - rewrite round_of_neg by done. rewrite (Qabs_neg q) by lra.
    pose proof (round_pos_error (- q) ltac:(lra)) as H.
    assert (E : (- Ieee.round_pos prec (- q) - q == - (Ieee.round_pos prec (- q) - - q))%Q) by ring.
    by rewrite E, Qabs_opp.
  - rewrite round_of_pos by done. rewrite (Qabs_pos q) by lra. by apply round_pos_error.
  - rewrite round_of_0 by done.
    assert (E1 : (Qabs (0 - q) == 0)%Q) by (by rewrite Hz).
    assert (E2 : (Qabs q == 0)%Q) by (by rewrite Hz).
    rewrite E1, E2. lra.
Qed.

Lemma round_nonneg (q : Q) : (0 <= q)%Q -> (0 <= Ieee.round prec q)%Q.
Proof.
  intros Hq. destruct (round_sign q) as [[_ H]|[[_ H]|[H _]]]; [lra|rewrite H; lra|lra].
Qed.

Lemma round_lower (q : Q) :
  (0 <= q)%Q -> ((1 - Ieee.pow2 (- prec)) * q <= Ieee.round prec q)%Q.
Proof.
  intros Hq. pose proof (round_error q) as H. rewrite (Qabs_pos q) in H by done.
  apply Qabs_Qle_condition in H. lra.
Qed.

Lemma round_upper (q : Q) :
  (0 <= q)%Q -> (Ieee.round prec q <= (1 + Ieee.pow2 (- prec)) * q)%Q.
Proof.
  intros Hq. pose proof (round_error q) as H. rewrite (Qabs_pos q) in H by done.
  apply Qabs_Qle_condition in H. lra.
Qed.

Lemma round_ge_Z (q : Q) (n : Z) :
  Z.abs n <= 2 ^ prec -> (inject_Z n <= q)%Q -> (inject_Z n <= Ieee.round prec q)%Q.
Proof.
  intros Hn Hq. rewrite <- (round_Z_exact (inject_Z n) n Hn (Qeq_refl _)).
  by apply round_le.
Qed.

Lemma round_le_Z (q : Q) (n : Z) :
  Z.abs n <= 2 ^ prec -> (q <= inject_Z n)%Q -> (Ieee.round prec q <= inject_Z n)%Q.
Proof.
  intros Hn Hq. rewrite <- (round_Z_exact (inject_Z n) n Hn (Qeq_refl _)).
  by apply round_le.
Qed.

Lemma round_abs (q : Q) : (Qabs (Ieee.round prec q) == Ieee.round prec (Qabs q))%Q.
Proof.
  destruct (Qlt_le_dec q 0) as [Hneg|Hpos].
  - assert (E : (Qabs q == - q)%Q) by (apply Qabs_neg; lra).
    rewrite (round_comp _ _ E), round_opp. apply Qabs_neg.
    destruct (round_sign q) as [[H _]|[[H _]|[_ H]]]; lra.
  - assert (E : (Qabs q == q)%Q) by (by apply Qabs_pos).
    rewrite (round_comp _ _ E). by apply Qabs_pos, round_nonneg.
Qed.

Lemma round_abs_upper (q : Q) :
  (Qabs (Ieee.round prec q) <= (1 + Ieee.pow2 (- prec)) * Qabs q)%Q.
Proof. rewrite round_abs. apply round_upper, Qabs_nonneg. Qed.

Lemma round_abs_le (q b : Q) :
  (Qabs q <= b)%Q -> (Qabs (Ieee.round prec q) <= (1 + Ieee.pow2 (- prec)) * b)%Q.
Proof.
  intros H. eapply Qle_trans; [apply round_abs_upper|].
  apply Qmult_le_l; [|done]. pose proof (pow2_pos (- prec)). lra.
Qed.

(** A rounded number has [prec] significant bits, so rounding it again
    changes nothing. *)
Lemma round_representable (q : Q) : Ieee.representable prec (Ieee.round prec q).
Proof.
  assert (Hpos : forall x, (0 < x)%Q -> Ieee.representable prec (Ieee.round_pos prec x)).
  { intros x Hx. destruct (mantissa_bounds x Hx) as [H1 H2]. unfold Ieee.round_pos.
    set (s := Ieee.exponent x - (prec - 1)) in *.
    set (M := Py.round (x / Ieee.pow2 s)) in *.
    assert (0 < 2 ^ (prec - 1)) by (apply Z.pow_pos_nonneg; lia).
    destruct (Z.eq_dec M (2 ^ prec)) as [E|E].
    - exists 1, (prec + s). split.
      + assert (1 < 2 ^ prec) by (apply Z.pow_gt_1; lia). lia.
      + rewrite E, pow2_add. rewrite <- pow2_Z by lia. ring.
    - exists M, s. split; [lia|reflexivity]. }
  destruct (Q_dec q 0) as [[Hneg|Hq]|Hz].
  - rewrite round_of_neg by done.
    destruct (Hpos (- q)%Q ltac:(lra)) as (m & k & Hm & E).
    exists (- m), k. split; [lia|]. rewrite E, inject_Z_opp. ring.
  - rewrite round_of_pos by done. by apply Hpos.
  - rewrite round_of_0 by done. exists 0, 0. split.
    + assert (0 < 2 ^ prec) by (apply Z.pow_pos_nonneg; lia). lia.
    + ring.
Qed.

Lemma round_idem (q : Q) : (Ieee.round prec (Ieee.round prec q) == Ieee.round prec q)%Q.
Proof. apply round_exact, round_representable. Qed.

Lemma representable_scale (q : Q) (j : Z) :
  Ieee.representable prec q -> Ieee.representable prec (q * Ieee.pow2 j).
Proof.
  intros (m & k & Hm & E). exists m, (k + j). split; [done|].
  rewrite E, pow2_add. ring.
Qed.

(** ** Accumulated rounding error *)

Lemma eps_bounds : (0 < Ieee.eps prec <= 1 # 2)%Q.
Proof.
  unfold Ieee.eps. split; [apply pow2_pos|].
  change (1 # 2)%Q with (Ieee.pow2 (-1)). apply pow2_le. lia.
Qed.

Lemma qpow_pos (b : Q) (k : nat) : (0 < b)%Q -> (0 < Ieee.qpow b k)%Q.
Proof.
  intros Hb. induction k as [|k IH]; simpl; [reflexivity|].
  apply Qmult_lt_0_compat; done.
Qed.

Lemma qpow_add (b : Q) (j k : nat) :
  (Ieee.qpow b (j + k) == Ieee.qpow b j * Ieee.qpow b k)%Q.
Proof. induction j as [|j IH]; simpl; [ring|]. rewrite IH. ring. Qed.

Lemma qpow_lo_le (j k : nat) :
  (j <= k)%nat ->
  (Ieee.qpow (1 - Ieee.eps prec) k <= Ieee.qpow (1 - Ieee.eps prec) j)%Q.
Proof.
  pose proof eps_bounds as [He1 He2].
  induction 1 as [|k Hjk IH]; [apply Qle_refl|]. simpl.
  pose proof (qpow_pos (1 - Ieee.eps prec) k ltac:(lra)).
  assert (0 <= Ieee.eps prec * Ieee.qpow (1 - Ieee.eps prec) k)%Q
    by (apply Qmult_le_0_compat; lra).
  lra.
Qed.

Lemma qpow_hi_le (j k : nat) :
  (j <= k)%nat ->
  (Ieee.qpow (1 + Ieee.eps prec) j <= Ieee.qpow (1 + Ieee.eps prec) k)%Q.
Proof.
  pose proof eps_bounds as [He1 He2].
  induction 1 as [|k Hjk IH]; [apply Qle_refl|]. simpl.
  pose proof (qpow_pos (1 + Ieee.eps prec) k ltac:(lra)).
  assert (0 <= Ieee.eps prec * Ieee.qpow (1 + Ieee.eps prec) k)%Q
    by (apply Qmult_le_0_compat; lra).
  lra.
Qed.

Lemma within_nonneg (k : nat) (q e : Q) : Ieee.within prec k q e -> (0 <= q)%Q.
Proof.
  intros (He & Hlo & _). pose proof eps_bounds as [He1 He2].
  eapply Qle_trans; [|exact Hlo].
  apply Qmult_le_0_compat; [|done]. apply Qlt_le_weak, qpow_pos. lra.
Qed.

Lemma within_exact (q e : Q) : (0 <= e)%Q -> (q == e)%Q -> Ieee.within prec 0 q e.
Proof. intros He E. unfold Ieee.within. simpl. rewrite E. split; [done|]. split; lra. Qed.

Lemma within_weaken (j k : nat) (q e : Q) :
  (j <= k)%nat -> Ieee.within prec j q e -> Ieee.within prec k q e.
Proof.
  intros Hjk (He & Hlo & Hhi). split; [done|]. split.
  - eapply Qle_trans; [|exact Hlo]. apply Qmult_le_compat_r; [|done]. by apply qpow_lo_le.
  - eapply Qle_trans; [exact Hhi|]. apply Qmult_le_compat_r; [|done]. by apply qpow_hi_le.
Qed.

Lemma within_round (k : nat) (q e : Q) :
  Ieee.within prec k q e -> Ieee.within prec (S k) (Ieee.round prec q) e.
Proof.
  intros H. pose proof (within_nonneg _ _ _ H) as Hq. destruct H as (He & Hlo & Hhi).
  pose proof eps_bounds as [He1 He2].
  pose proof (round_lower q Hq) as Hl. pose proof (round_upper q Hq) as Hu.
  fold (Ieee.eps prec) in Hl, Hu.
  split; [done|]. simpl. split.
  - eapply Qle_trans; [|exact Hl]. rewrite <- Qmult_assoc.
    apply Qmult_le_l; [lra|done].
  - eapply Qle_trans; [exact Hu|]. rewrite <- Qmult_assoc.
    apply Qmult_le_l; [lra|done].
Qed.

Lemma within_mul (j k : nat) (q1 e1 q2 e2 : Q) :
  Ieee.within prec j q1 e1 -> Ieee.within prec k q2 e2 ->
  Ieee.within prec (j + k) (q1 * q2) (e1 * e2).
Proof.
  intros H1 H2.
  pose proof (within_nonneg _ _ _ H1) as Hq1. pose proof (within_nonneg _ _ _ H2) as Hq2.
  destruct H1 as (He1 & Hlo1 & Hhi1), H2 as (He2 & Hlo2 & Hhi2).
  pose proof eps_bounds as [Hp1 Hp2].
  pose proof (qpow_pos (1 - Ieee.eps prec) j ltac:(lra)).
  pose proof (qpow_pos (1 - Ieee.eps prec) k ltac:(lra)).
  split; [by apply Qmult_le_0_compat|]. rewrite !qpow_add. split.
  - assert (E : (Ieee.qpow (1 - Ieee.eps prec) j * Ieee.qpow (1 - Ieee.eps prec) k * (e1 * e2)
                 == (Ieee.qpow (1 - Ieee.eps prec) j * e1)
                    * (Ieee.qpow (1 - Ieee.eps prec) k * e2))%Q) by ring.
    rewrite E. apply Qmult_le_compat_nonneg; split; try done;
      apply Qmult_le_0_compat; lra.
  - assert (E : (Ieee.qpow (1 + Ieee.eps prec) j * Ieee.qpow (1 + Ieee.eps prec) k * (e1 * e2)
                 == (Ieee.qpow (1 + Ieee.eps prec) j * e1)
                    * (Ieee.qpow (1 + Ieee.eps prec) k * e2))%Q) by ring.
    rewrite E. apply Qmult_le_compat_nonneg; split; done.
Qed.

Lemma within_add (k : nat) (q1 e1 q2 e2 : Q) :
  Ieee.within prec k q1 e1 -> Ieee.within prec k q2 e2 ->
  Ieee.within prec k (q1 + q2) (e1 + e2).
Proof.
  intros (He1 & Hlo1 & Hhi1) (He2 & Hlo2 & Hhi2).
  split; [lra|]. split; lra.
Qed.

(** Rounding commutes with a change of sign and with doubling and
    halving. *)
Lemma exponent_scale (q : Q) (j : Z) :
  (0 < q)%Q -> Ieee.exponent (q * Ieee.pow2 j) = Ieee.exponent q + j.
Proof.
  intros Hq. pose proof (pow2_pos j) as Hj.
  destruct (exponent_spec q Hq) as [H1 H2].
  apply exponent_unique. split.
  - rewrite pow2_add. by apply Qmult_le_compat_r; [|apply Qlt_le_weak].
  - replace (Ieee.exponent q + j + 1) with ((Ieee.exponent q + 1) + j) by lia.
    rewrite pow2_add. by apply Qmult_lt_compat_r.
Qed.

Lemma round_scale (q : Q) (j : Z) :
  (Ieee.round prec (q * Ieee.pow2 j) == Ieee.round prec q * Ieee.pow2 j)%Q.
Proof.
  pose proof (pow2_pos j) as Hj.
  assert (Hpos : forall x, (0 < x)%Q ->
            (Ieee.round_pos prec (x * Ieee.pow2 j) == Ieee.round_pos prec x * Ieee.pow2 j)%Q).
  { intros x Hx. unfold Ieee.round_pos. rewrite (exponent_scale x j Hx).
    replace (Ieee.exponent x + j - (prec - 1)) with ((Ieee.exponent x - (prec - 1)) + j) by lia.
    pose proof (pow2_pos (Ieee.exponent x - (prec - 1))) as Hu.
    rewrite (rint_comp (x * Ieee.pow2 j / Ieee.pow2 (Ieee.exponent x - (prec - 1) + j))
                       (x / Ieee.pow2 (Ieee.exponent x - (prec - 1)))).
    - rewrite pow2_add. ring.
    - rewrite pow2_add. field. split; lra. }
  destruct (Q_dec q 0) as [[Hneg|Hq]|Hz].
  - rewrite (round_of_neg q) by done.
    rewrite round_of_neg by (assert (0 < (- q) * Ieee.pow2 j)%Q
                               by (apply Qmult_lt_0_compat; lra); lra).
    assert (E : (- (q * Ieee.pow2 j) == (- q) * Ieee.pow2 j)%Q) by ring.
    assert (Hp : (0 < - (q * Ieee.pow2 j))%Q).
    { rewrite E. apply Qmult_lt_0_compat; lra. }
    rewrite (round_pos_comp _ _ Hp E), Hpos by lra. ring.
  - rewrite (round_of_pos q) by done.
    rewrite round_of_pos by (by apply Qmult_lt_0_compat). by apply Hpos.
  - rewrite (round_of_0 q) by done.
    rewrite round_of_0 by (rewrite Hz; ring). ring.
Qed.

End Rounding.


#[global] Instance round_proper (prec : Z) : Proper (Qeq ==> Qeq) (Ieee.round prec).
Proof. intros q q' E. by apply round_comp. Qed.

#[global] Instance binary64_proper : Proper (Qeq ==> Qeq) Ieee.binary64.
Proof. apply round_proper. Qed.

#[global] Instance binary32_proper : Proper (Qeq ==> Qeq) Ieee.binary32.
Proof. apply round_proper. Qed.

#[global] Instance add_proper : Proper (Qeq ==> Qeq ==> Qeq) Fl.add.
Proof. intros a a' Ea b b' Eb. unfold Fl.add. by rewrite Ea, Eb. Qed.

#[global] Instance sub_proper : Proper (Qeq ==> Qeq ==> Qeq) Fl.sub.
Proof. intros a a' Ea b b' Eb. unfold Fl.sub. by rewrite Ea, Eb. Qed.

#[global] Instance mul_proper : Proper (Qeq ==> Qeq ==> Qeq) Fl.mul.
Proof. intros a a' Ea b b' Eb. unfold Fl.mul. by rewrite Ea, Eb. Qed.

(** ** Arithmetic of the primitives *)

Lemma int_nonneg (q : Q) : (0 <= q)%Q -> Py.int q = Qfloor q.
Proof.
  destruct q as [n d]. unfold Qle, Py.int, Qfloor. simpl. intros Hn.
  apply Z.quot_div_nonneg; lia.
Qed.

Lemma int_floor_bounds (q : Q) :
  (0 <= q)%Q -> (inject_Z (Py.int q) <= q < inject_Z (Py.int q + 1))%Q.
Proof.
  intros Hq. rewrite (int_nonneg q Hq). split; [apply Qfloor_le | apply Qlt_floor].
Qed.

Lemma floor_ge (q : Q) (z : Z) : (inject_Z z <= q)%Q -> z <= Qfloor q.
Proof.
  intros H. rewrite <- (Qfloor_Z z). by apply Qfloor_resp_le.
Qed.

Lemma floor_le (q : Q) (z : Z) : (q <= inject_Z z)%Q -> Qfloor q <= z.
Proof.
  intros H. rewrite <- (Qfloor_Z z). by apply Qfloor_resp_le.
Qed.

Lemma floor_lt (q : Q) (z : Z) : (q < inject_Z z)%Q -> Qfloor q < z.
Proof.
  intros H. destruct (Z.lt_ge_cases (Qfloor q) z) as [|Hge]; [done|].
  exfalso. apply (Qlt_irrefl q). eapply Qlt_le_trans; [exact H|].
  eapply Qle_trans; [|apply Qfloor_le]. rewrite <- Zle_Qle. lia.
Qed.

Lemma clip_int_bounds (a lo hi : Z) : lo <= hi -> lo <= Np.clip_int a lo hi <= hi.
Proof. unfold Np.clip_int. lia. Qed.

Lemma clip_int_id (a lo hi : Z) : lo <= a <= hi -> Np.clip_int a lo hi = a.
Proof. unfold Np.clip_int. lia. Qed.

Lemma clip_bounds (a lo hi : Q) : (lo <= hi)%Q -> (lo <= Np.clip a lo hi <= hi)%Q.
Proof.
  intros Hlh. unfold Np.clip. split.
  - apply Q.min_glb; [apply Q.le_max_r | done].
  - apply Q.le_min_r.
Qed.

Lemma wrap32_id (z : Z) : - 2 ^ 31 <= z < 2 ^ 31 -> Np.wrap32 z = z.
Proof.
  intros Hz. unfold Np.wrap32. rewrite Z.mod_small; lia.
Qed.

Lemma index_in_range {A} (l : list A) (i : Z) :
  0 <= i < Z.of_nat (length l) -> Np.index l i = l !! Z.to_nat i.
Proof.
  intros Hi. unfold Np.index.
  destruct (0 <=? i) eqn:E1; [|lia]. destruct (i <? _) eqn:E2; [done|lia].
Qed.

(** ** Binary64 operations *)

Lemma int_nonpos (q : Q) : (q <= 0)%Q -> Py.int q = - Qfloor (- q).
Proof.
  destruct q as [n d]. unfold Qle, Py.int, Qfloor, Qopp. simpl. intros Hn.
  rewrite <- (Z.quot_div_nonneg (- n) (Z.pos d)) by lia.
  rewrite Z.quot_opp_l by lia. lia.
Qed.

#[global] Instance int_proper : Proper (Qeq ==> eq) Py.int.
Proof.
  intros q q' E. destruct (Qlt_le_dec q 0) as [Hneg|Hpos].
  - rewrite !int_nonpos by lra. f_equal. apply Qfloor_comp. by rewrite E.
  - rewrite !int_nonneg by lra. by apply Qfloor_comp.
Qed.

#[global] Instance rint_proper : Proper (Qeq ==> eq) Py.round.
Proof. intros q q' E. by apply rint_comp. Qed.

#[global] Instance astype_uint8_proper : Proper (Qeq ==> eq) Np.astype_uint8.
Proof. intros q q' E. unfold Np.astype_uint8. by rewrite E. Qed.

Lemma binary64_Z (n : Z) :
  Z.abs n <= 2 ^ 53 -> (Ieee.binary64 (inject_Z n) == inject_Z n)%Q.
Proof. intros Hn. by apply (round_Z_exact 53 ltac:(lia) _ n). Qed.

Lemma of_int_exact (n : Z) : Z.abs n <= 2 ^ 53 -> (Fl.of_int n == inject_Z n)%Q.
Proof. apply binary64_Z. Qed.

Lemma binary64_0 : Ieee.binary64 0 = 0%Q.
Proof. done. Qed.

Lemma eps_53 : (Ieee.eps 53 == 1 # 9007199254740992)%Q.
Proof. reflexivity. Qed.

Lemma eps_24 : (Ieee.eps 24 == 1 # 16777216)%Q.
Proof. reflexivity. Qed.

(** ** Slices *)

Lemma slice_bound_id (n i : Z) : 0 <= i <= n -> Py.slice_bound n i = i.
Proof. intros Hi. unfold Py.slice_bound. destruct (i <? 0) eqn:E; lia. Qed.

Lemma slice_length {A} (l : list A) (a b : Z) :
  0 <= a <= b -> b <= Z.of_nat (length l) ->
  Z.of_nat (length (Py.slice l a b)) = b - a.
Proof.
  intros Hab Hb. unfold Py.slice. rewrite !slice_bound_id by lia.
  rewrite length_take, length_drop. lia.
Qed.

Lemma slice_Forall {A} (P : A -> Prop) (l : list A) (a b : Z) :
  Forall P l -> Forall P (Py.slice l a b).
Proof. intros H. unfold Py.slice. by apply Forall_take, Forall_drop. Qed.

Lemma slice_assign_ok {A} (P : A -> Prop) (l src : list A) (a b : Z) :
  0 <= a <= b -> b <= Z.of_nat (length l) ->
  Z.of_nat (length src) = b - a ->
  Forall P l -> Forall P src ->
  exists r, slice_assign l a b src = Some r /\
            length r = length l /\ Forall P r.
Proof.
  intros Hab Hb Hsrc Hl Hs. unfold slice_assign.
  rewrite !slice_bound_id by lia. rewrite Z.max_r by lia.
  rewrite (proj2 (Z.eqb_eq _ _) Hsrc). eexists. split; [done|]. split.
  - rewrite !length_app, length_take, length_drop. lia.
  - repeat apply Forall_app_2; [by apply Forall_take | done | by apply Forall_drop].
Qed.

Lemma slice_assign2_ok {A} (P : A -> Prop) (g src : grid A)
    (w r0 r1 c0 c1 : Z) :
  0 <= r0 <= r1 -> r1 <= Z.of_nat (length g) ->
  0 <= c0 <= c1 -> c1 <= w ->
  Forall (fun row => Z.of_nat (length row) = w) g ->
  Z.of_nat (length src) = r1 - r0 ->
  Forall (fun row => Z.of_nat (length row) = c1 - c0) src ->
  Forall (Forall P) g -> Forall (Forall P) src ->
  exists r, slice_assign2 g r0 r1 c0 c1 src = Some r /\
            length r = length g /\
            Forall (fun row => Z.of_nat (length row) = w) r /\
            Forall (Forall P) r.
Proof.
  intros Hr Hr1 Hc Hc1 Hg Hsrc Hsw HPg HPs. unfold slice_assign2.
  rewrite !slice_bound_id by lia. rewrite Z.max_r by lia.
  rewrite (proj2 (Z.eqb_eq _ _) Hsrc).
  pose (Q := fun row : list A => Z.of_nat (length row) = w /\ Forall P row).
  assert (HQg : Forall Q g).
  { apply Forall_and. by split. }
  assert (Hrows : exists rows,
    Forall2 (fun x y => (let '(drow, srow) := x in slice_assign drow c0 c1 srow) = Some y)
            (zip (Py.slice g r0 r1) src) rows /\
    length rows = length src /\ Forall Q rows).
  { assert (Hlen : length (Py.slice g r0 r1) = length src).
    { apply Nat2Z.inj. rewrite slice_length by lia. lia. }
    assert (HQs : Forall Q (Py.slice g r0 r1)) by by apply slice_Forall.
    revert Hlen HQs Hsw HPs. generalize (Py.slice g r0 r1). clear -Hc Hc1.
    intros d. revert d.
    induction src as [|s src IH]; intros [|d0 d] Hlen HQs Hsw HPs; simplify_eq/=.
    - exists []. by repeat split.
    - apply Forall_cons in HQs as [[Hd0 HPd0] HQs].
      apply Forall_cons in Hsw as [Hs0 Hsw].
      apply Forall_cons in HPs as [HPs0 HPs].
      destruct (slice_assign_ok P d0 s c0 c1) as (r0 & Hr0 & Hlr & HPr); [lia..|done|done|].
      destruct (IH d) as (rows & Hrows & Hlrows & HQrows); [done..|].
      exists (r0 :: rows). split; [by constructor|]. split; [simpl; lia|].
      apply Forall_cons. split; [|done]. split; [lia|done]. }
  destruct Hrows as (rows & Hrows & Hlrows & HQrows).
  apply mapM_Some_2 in Hrows. rewrite Hrows. simpl.
  eexists. split; [done|].
  assert (HQr : Forall Q (take (Z.to_nat r0) g ++ rows ++ drop (Z.to_nat r1) g)).
  { repeat apply Forall_app_2; [by apply Forall_take | done | by apply Forall_drop]. }
  apply Forall_and in HQr as [? ?]. split; [|done].
  rewrite !length_app, length_take, length_drop. lia.
Qed.

(** ** Aspect-fit resampling *)

Lemma zeros_rect {A} (P : A -> Prop) (h w : Z) (z : A) :
  1 <= h -> 1 <= w -> P z ->
  exists g, zeros h w z = Some g /\ rect h w g /\ Forall (Forall P) g.
Proof.
  intros Hh Hw Hz. unfold zeros.
  destruct (h <? 0) eqn:E1; [lia|]. destruct (w <? 0) eqn:E2; [lia|]. simpl.
  eexists. split; [done|]. split; [split_and!; try done|].
  - unfold height. rewrite length_replicate. lia.
  - apply Forall_replicate. rewrite length_replicate. lia.
  - by do 2 apply Forall_replicate.
Qed.

(** Whatever size the resize produced, the crop or pad has the target
    size: a scaled image that is larger is cropped around its centre,
    one that is smaller in an axis is centred on zeros. *)
Lemma center_crop_pad_ok {A} (P : A -> Prop) (zero : A) (resized : grid A)
    (new_w new_h target_width target_height : Z) :
  1 <= target_width -> 1 <= target_height ->
  rect new_h new_w resized -> P zero -> Forall (Forall P) resized ->
  exists r, center_crop_pad zero resized new_w new_h target_width target_height = Some r /\
            rect target_height target_width r /\ Forall (Forall P) r.
Proof.
  intros Htw Hth (Hnh & Hnw & Hh & Hrows) Hz HP. unfold center_crop_pad.
  destruct (zeros_rect P target_height target_width zero) as (z & -> & (_ & _ & Hzh & Hzw) & HPz);
    [done..|]. simpl.
  unfold height in Hh, Hzh.
  set (start_x := Z.max 0 ((new_w - target_width) `div` 2)).
  set (start_y := Z.max 0 ((new_h - target_height) `div` 2)).
  set (end_x := Z.min new_w (start_x + target_width)).
  set (end_y := Z.min new_h (start_y + target_height)).
  set (rsx := (target_width - (end_x - start_x)) `div` 2).
  set (rsy := (target_height - (end_y - start_y)) `div` 2).
  assert (0 <= start_x <= end_x /\ end_x <= new_w /\
          0 <= rsx /\ rsx + (end_x - start_x) <= target_width) as (Hsx & Hex & Hrsx & Hrex)
    by (subst start_x end_x rsx; Z.div_mod_to_equations; lia).
  assert (0 <= start_y <= end_y /\ end_y <= new_h /\
          0 <= rsy /\ rsy + (end_y - start_y) <= target_height) as (Hsy & Hey & Hrsy & Hrey)
    by (subst start_y end_y rsy; Z.div_mod_to_equations; lia).
  destruct (slice_assign2_ok P z (slice2 resized start_y end_y start_x end_x)
              target_width rsy (rsy + (end_y - start_y)) rsx (rsx + (end_x - start_x)))
    as (r & -> & Hlen & Hrw & HPr); try done; try lia.
  - unfold slice2. rewrite length_fmap, slice_length by lia. lia.
  - unfold slice2. apply Forall_fmap.
    eapply Forall_impl; [apply slice_Forall, Hrows|].
    intros row Hrow. simpl in *. rewrite slice_length by lia. lia.
  - unfold slice2. apply Forall_fmap.
    eapply Forall_impl; [apply slice_Forall, HP|].
    intros row Hrow. simpl. by apply slice_Forall.
  - exists r. split; [done|]. split; [|done]. split_and!; try done.
    unfold height. lia.
Qed.

Lemma max_ge_l (a b : Q) : (a <= Py.max a b)%Q.
Proof.
  unfold Py.max. destruct (Qle_bool b a) eqn:E; [apply Qle_refl|].
  apply Qlt_le_weak, Qnot_le_lt. intros H. apply Qle_bool_iff in H. congruence.
Qed.

Lemma max_ge_r (a b : Q) : (b <= Py.max a b)%Q.
Proof.
  unfold Py.max. destruct (Qle_bool b a) eqn:E; [|apply Qle_refl].
  by apply Qle_bool_iff.
Qed.

(** The rounded product [n * scale] along one axis, for a scale that is
    at least the rounded quotient [t / n]: at least 1 for a target of 2
    or more, and at most one short of a target below [2 ^ 52]. *)
Lemma scaled_axis (n t : Z) (s : Q) :
  1 <= n -> 2 <= t -> (Ieee.binary64 (inject_Z t / inject_Z n) <= s)%Q ->
  1 <= Py.int (Fl.mul (Fl.of_int n) s) /\
  (t <= 2 ^ 52 -> t - 1 <= Py.int (Fl.mul (Fl.of_int n) s)).
Proof.
  intros Hn Ht Hs. unfold Fl.mul, Fl.of_int.
  assert (Hn0 : (1 <= inject_Z n)%Q) by (rewrite <- (Zle_Qle 1); lia).
  assert (Ht0 : (2 <= inject_Z t)%Q) by (rewrite <- (Zle_Qle 2); lia).
  assert (Hq0 : (0 <= inject_Z t / inject_Z n)%Q).
  { apply Qle_shift_div_l; lra. }
  pose proof (round_lower 53 (inject_Z n) ltac:(lra)) as Ha.
  pose proof (round_lower 53 (inject_Z t / inject_Z n) Hq0) as Hr.
  fold (Ieee.eps 53) in Ha, Hr. rewrite eps_53 in Ha, Hr.
  fold Ieee.binary64 in Ha, Hr.
  set (a := Ieee.binary64 (inject_Z n)) in *.
  set (r := Ieee.binary64 (inject_Z t / inject_Z n)) in *.
  set (c := (1 - (1 # 9007199254740992))%Q) in *.
  assert (Hc : (0 <= c)%Q) by (subst c; lra).
  assert (Hprod : (c * inject_Z n * (c * (inject_Z t / inject_Z n)) <= a * s)%Q).
  { apply Qmult_le_compat_nonneg; split; try lra.
    - apply Qmult_le_0_compat; lra.
    - apply Qmult_le_0_compat; lra. }
  assert (E : (c * inject_Z n * (c * (inject_Z t / inject_Z n)) == c * c * inject_Z t)%Q).
  { field. lra. }
  rewrite E in Hprod.
  assert (Hcc : (c * c == 1 - (18014398509481983 # 81129638414606681695789005144064))%Q)
    by (subst c; reflexivity).
  rewrite Hcc in Hprod.
  assert (H1 : (inject_Z 1 <= a * s)%Q) by (change (inject_Z 1) with 1%Q; lra).
  pose proof (round_ge_Z 53 ltac:(lia) (a * s) 1 ltac:(done) H1) as Hb.
  fold Ieee.binary64 in Hb.
  assert (H0 : (0 <= Ieee.binary64 (a * s))%Q) by (change (inject_Z 1) with 1%Q in Hb; lra).
  rewrite int_nonneg by done. split; [by apply floor_ge|].
  intros Ht52.
  assert (Ht1 : (inject_Z t <= 4503599627370496)%Q).
  { change 4503599627370496%Q with (inject_Z (2 ^ 52)). by rewrite <- Zle_Qle. }
  assert (H2 : (inject_Z (t - 1) <= a * s)%Q).
  { unfold Zminus. rewrite inject_Z_plus. change (inject_Z (- (1))) with (-1)%Q. lra. }
  apply floor_ge. apply (round_ge_Z 53 ltac:(lia)); [|done].
  assert (2 ^ 52 < 2 ^ 53) by done. lia.
Qed.

(** For targets of two pixels or more the scaled size is not empty. *)
Lemma scaled_size_ok (w h target_width target_height : Z) :
  1 <= w -> 1 <= h -> 2 <= target_width -> 2 <= target_height ->
  exists new_w new_h,
    scaled_size w h target_width target_height = Some (new_w, new_h) /\
    1 <= new_w /\ 1 <= new_h /\
    (target_width <= 2 ^ 52 -> target_width - 1 <= new_w) /\
    (target_height <= 2 ^ 52 -> target_height - 1 <= new_h).
Proof.
  intros Hw Hh Htw Hth. unfold scaled_size, Fl.truediv, Py.truediv.
  destruct (w =? 0) eqn:E1; [lia|]. destruct (h =? 0) eqn:E2; [lia|]. simpl.
  eexists _, _. split; [done|].
  set (scale := Py.max _ _).
  destruct (scaled_axis w target_width scale Hw Htw) as [? ?]; [apply max_ge_l|].
  destruct (scaled_axis h target_height scale Hh Hth) as [? ?]; [apply max_ge_r|].
  done.
Qed.

Lemma rect_width {A} (h w : Z) (g : grid A) : rect h w g -> width g = w.
Proof.
  intros (Hh & _ & Hg & Hrows). unfold width, height in *.
  destruct g as [|row g]; simpl in *; [lia|]. by apply Forall_cons in Hrows as [? _].
Qed.

Lemma rect_shape {A} (h w : Z) (g : grid A) :
  rect h w g -> length <$> g = replicate (Z.to_nat h) (Z.to_nat w).
Proof.
  intros (_ & _ & Hg & Hrows). unfold height in Hg. subst h.
  rewrite Nat2Z.id. induction Hrows as [|row g Hrow _ IH]; [done|].
  simpl. f_equal; [lia | done].
Qed.

Lemma valid_like_shape (src a : ndarray) (h w : Z) :
  valid_like src h w a -> shape0 a = h /\ shape1 a = w.
Proof.
  destruct src, a; simpl; try done; intros [Hr _];
    (split; [apply Hr | by eapply rect_width]).
Qed.

Lemma valid_image_pos (img : ndarray) :
  valid_image img -> 1 <= shape1 img < 2 ^ 31 /\ 1 <= shape0 img < 2 ^ 31.
Proof.
  intros (Hv & Hh & Hw). destruct img; simpl in *; destruct Hv as [(? & ? & _) _]; lia.
Qed.

(** The resize of a valid image to a target of two pixels or more in
    each axis returns an image of exactly the target size; the scaled
    image it crops or pads has the size [scaled_size] gives. *)
Lemma resize_ok (img : ndarray) (target_width target_height : Z) (is_depth : bool) :
  valid_image img -> 2 <= target_width -> 2 <= target_height ->
  exists r, _resize_with_aspect_ratio img target_width target_height is_depth = Some r /\
            valid_like img target_height target_width r.
Proof.
  intros Hv Htw Hth. unfold _resize_with_aspect_ratio.
  destruct (valid_image_pos img Hv) as [Hw Hh].
  destruct (scaled_size_ok (shape1 img) (shape0 img) target_width target_height)
    as (new_w & new_h & -> & Hnw & Hnh & _); [lia..|]. simpl.
  destruct (cv2_resize_spec img new_w new_h) as (r & -> & Hr); [done|lia..|]. simpl.
  destruct img as [g|g], r as [r|r]; simpl in Hr; try done.
  - destruct Hr as [Hrect HP].
    destruct (center_crop_pad_ok u8 0 r
                new_w new_h target_width target_height) as (out & -> & Hout & HPout);
      try done; try lia.
    simpl. eexists. by split.
  - destruct Hr as [Hrect HP].
    destruct (center_crop_pad_ok
                (fun px => Z.of_nat (length px) = channels g /\ Forall u8 px)
                (replicate (Z.to_nat (channels g)) 0) r
                new_w new_h target_width target_height) as (out & -> & Hout & HPout);
      try done; try lia.
    + split.
      * rewrite length_replicate. unfold channels. lia.
      * apply Forall_replicate. unfold u8. lia.
    + simpl. eexists. by split.
Qed.

(** ** Sampling *)

Lemma map4_lookup {A B} (f : A -> A -> A -> A -> B) (l1 l2 l3 l4 : list A)
    (k : nat) (v : B) :
  map4 f l1 l2 l3 l4 !! k = Some v ->
  exists a b c d, l1 !! k = Some a /\ l2 !! k = Some b /\
                  l3 !! k = Some c /\ l4 !! k = Some d /\ v = f a b c d.
Proof.
  revert l2 l3 l4 k.
  induction l1 as [|a l1 IH]; intros [|b l2] [|c l3] [|d l4] [|k] H;
    simplify_eq/=; eauto 10.
Qed.

Lemma map4_length {A B} (f : A -> A -> A -> A -> B) (l1 l2 l3 l4 : list A) (n : nat) :
  length l1 = n -> length l2 = n -> length l3 = n -> length l4 = n ->
  length (map4 f l1 l2 l3 l4) = n.
Proof.
  revert l1 l2 l3 l4.
  induction n as [|n IH]; intros [|a l1] [|b l2] [|c l3] [|d l4] ? ? ? ?;
    simplify_eq/=; [done|]. f_equal. by apply IH.
Qed.

Lemma map4_Forall {A B} (P : B -> Prop) (f : A -> A -> A -> A -> B)
    (l1 l2 l3 l4 : list A) :
  (forall a b c d, P (f a b c d)) -> Forall P (map4 f l1 l2 l3 l4).
Proof.
  intros Hf. revert l2 l3 l4.
  induction l1 as [|a l1 IH]; intros [|b l2] [|c l3] [|d l4]; simpl;
    try constructor; auto.
Qed.

Lemma astype_uint8_u8 (q : Q) : u8 (Np.astype_uint8 q).
Proof. unfold u8, Np.astype_uint8. pose proof (Z.mod_pos_bound (Py.int q) 256). lia. Qed.

Lemma mapM_zip_lookup {A B C} (f : A -> B -> option C) (xs : list A) (ys : list B)
    (out : list C) :
  mapM (fun '(a, b) => f a b) (zip xs ys) = Some out ->
  length out = length (zip xs ys) /\
  forall i c, out !! i = Some c ->
    exists a b, xs !! i = Some a /\ ys !! i = Some b /\ f a b = Some c.
Proof.
  intros H. apply mapM_Some_1 in H. split.
  - symmetry. by eapply Forall2_length.
  - intros i c Hc.
    destruct (Forall2_lookup_r _ _ _ _ _ H Hc) as ([a b] & Hab & Hf).
    apply lookup_zip_with_Some in Hab as (a' & b' & ? & ? & ?). simplify_eq.
    eauto.
Qed.

Lemma mapM_zip_is_Some {A B C} (f : A -> B -> option C) (xs : list A) (ys : list B) :
  (forall a b, is_Some (f a b)) ->
  exists out, mapM (fun '(a, b) => f a b) (zip xs ys) = Some out.
Proof.
  intros Hf. apply mapM_is_Some_2, Forall_forall. intros [a b] _. apply Hf.
Qed.

Lemma index2_ok {A} (P : A -> Prop) (g : grid A) (h w i j : Z) :
  rect h w g -> Forall (Forall P) g -> 0 <= i < h -> 0 <= j < w ->
  exists row px, g !! Z.to_nat i = Some row /\ row !! Z.to_nat j = Some px /\
                 Np.index2 g i j = Some px /\ P px.
Proof.
  intros (_ & _ & Hg & Hrows) HP Hi Hj. unfold height in Hg.
  destruct (lookup_lt_is_Some_2 g (Z.to_nat i)) as [row Hrow]; [lia|].
  pose proof (Forall_lookup_1 _ _ _ _ Hrows Hrow) as Hlen. simpl in Hlen.
  destruct (lookup_lt_is_Some_2 row (Z.to_nat j)) as [px Hpx]; [lia|].
  exists row, px. split_and!; try done.
  - unfold Np.index2. rewrite index_in_range by lia. rewrite Hrow. simpl.
    rewrite index_in_range by lia. done.
  - eapply Forall_lookup_1; [|exact Hpx]. eapply Forall_lookup_1; [exact HP|exact Hrow].
Qed.

Lemma corners_bounds (h w : Z) (x y : Q) (x0 x1 y0 y1 : Z) :
  1 <= h -> 1 <= w -> corners h w x y = (x0, x1, y0, y1) ->
  0 <= x0 <= w - 1 /\ 0 <= x1 <= w - 1 /\ 0 <= y0 <= h - 1 /\ 0 <= y1 <= h - 1.
Proof.
  intros Hh Hw Hc. unfold corners in Hc. simplify_eq.
  split_and!; apply clip_int_bounds; lia.
Qed.

(** The corner pixels exist for every coordinate, and the sample is
    their blend cast to 8 bits. *)
Lemma sample_ok (g : grid pixel) (h w c : Z) (x y : Q) :
  valid_color h w c g ->
  exists x0 x1 y0 y1 p00 p01 p10 p11,
    corners h w x y = (x0, x1, y0, y1) /\
    Np.index2 g y0 x0 = Some p00 /\ Np.index2 g y0 x1 = Some p01 /\
    Np.index2 g y1 x0 = Some p10 /\ Np.index2 g y1 x1 = Some p11 /\
    Forall (fun px => Z.of_nat (length px) = c /\ Forall u8 px) [p00; p01; p10; p11] /\
    sample g x y =
      Some (map4 (fun a b c d =>
                    Np.astype_uint8
                      (blend (Fl.sub x (inject_Z x0)) (Fl.sub y (inject_Z y0)) a b c d))
                 p00 p01 p10 p11).
Proof.
  intros [Hr HP]. pose proof Hr as (Hh & Hw & Hg & _).
  destruct (corners h w x y) as [[[x0 x1] y0] y1] eqn:Hc.
  destruct (corners_bounds _ _ _ _ _ _ _ _ Hh Hw Hc) as (Hx0 & Hx1 & Hy0 & Hy1).
  destruct (index2_ok _ g h w y0 x0 Hr HP) as (? & p00 & _ & _ & H00 & HP00); [lia..|].
  destruct (index2_ok _ g h w y0 x1 Hr HP) as (? & p01 & _ & _ & H01 & HP01); [lia..|].
  destruct (index2_ok _ g h w y1 x0 Hr HP) as (? & p10 & _ & _ & H10 & HP10); [lia..|].
  destruct (index2_ok _ g h w y1 x1 Hr HP) as (? & p11 & _ & _ & H11 & HP11); [lia..|].
  exists x0, x1, y0, y1, p00, p01, p10, p11. split_and!; try done.
  - repeat (apply Forall_cons; split; [done|]). by apply Forall_nil.
  - unfold sample. rewrite Hg, (rect_width _ _ _ Hr), Hc, H00, H01, H10, H11. done.
Qed.

Lemma sample_valid (g : grid pixel) (h w c : Z) (x y : Q) :
  valid_color h w c g ->
  exists px, sample g x y = Some px /\ Z.of_nat (length px) = c /\ Forall u8 px.
Proof.
  intros Hv.
  destruct (sample_ok g h w c x y Hv)
    as (x0 & x1 & y0 & y1 & p00 & p01 & p10 & p11 & _ & _ & _ & _ & _ & HP & ->).
  eexists. split; [done|].
  apply Forall_cons in HP as [[? _] HP]. apply Forall_cons in HP as [[? _] HP].
  apply Forall_cons in HP as [[? _] HP]. apply Forall_cons in HP as [[? _] _].
  split.
  - rewrite (map4_length _ _ _ _ _ (Z.to_nat c)); lia.
  - apply map4_Forall. intros. apply astype_uint8_u8.
Qed.

(** [_bilinear_interpolate] returns for coordinate arrays of one
    shape, and each output pixel is the sample at its coordinates. *)
Lemma bilinear_ok (g : grid pixel) (h w c : Z) (x y : grid Q) :
  valid_color h w c g -> length <$> x = length <$> y ->
  exists out, _bilinear_interpolate (Color g) x y = Some (Color out) /\
    length <$> out = length <$> x /\
    Forall (Forall (fun px => Z.of_nat (length px) = c /\ Forall u8 px)) out /\
    forall i j px, lookup2 out i j = Some px ->
      exists xv yv, lookup2 x i j = Some xv /\ lookup2 y i j = Some yv /\
                    sample g xv yv = Some px.
Proof.
  intros Hv Hxy. unfold _bilinear_interpolate.
  destruct (mapM_zip_is_Some
              (fun xrow yrow => mapM (fun '(xv, yv) => sample g xv yv) (zip xrow yrow))
              x y) as [out Hout].
  { intros xrow yrow. destruct (mapM_zip_is_Some (sample g) xrow yrow) as [r Hr]; [|by eexists].
    intros xv yv. destruct (sample_valid g h w c xv yv Hv) as (px & -> & _). by eexists. }
  rewrite Hout. simpl. exists out. split; [done|].
  apply mapM_zip_lookup in Hout as [Hlen Hrows].
  assert (Hrow : forall i row, out !! i = Some row ->
            exists xrow yrow, x !! i = Some xrow /\ y !! i = Some yrow /\
              length xrow = length yrow /\ length row = length xrow /\
              forall j px, row !! j = Some px ->
                exists xv yv, xrow !! j = Some xv /\ yrow !! j = Some yv /\
                              sample g xv yv = Some px).
  { intros i row Hi. destruct (Hrows i row Hi) as (xrow & yrow & Hx & Hy & Hm).
    apply mapM_zip_lookup in Hm as [Hl Hpx].
    assert (length xrow = length yrow).
    { apply (f_equal (fun l => l !! i)) in Hxy.
      rewrite !list_lookup_fmap, Hx, Hy in Hxy. by simplify_eq/=. }
    exists xrow, yrow. split_and!; try done.
    rewrite Hl, length_zip_with. lia. }
  split_and!.
  - apply list_eq. intros i. rewrite !list_lookup_fmap.
    destruct (out !! i) as [row|] eqn:Hi; simpl.
    + destruct (Hrow i row Hi) as (xrow & yrow & -> & _ & _ & -> & _). done.
    + apply lookup_ge_None in Hi. rewrite Hlen, length_zip_with in Hi.
      assert (length x = length y).
      { apply (f_equal length) in Hxy. by rewrite !length_fmap in Hxy. }
      rewrite (proj2 (lookup_ge_None x i)) by lia. done.
  - apply Forall_lookup. intros i row Hi. apply Forall_lookup. intros j px Hj.
    destruct (Hrow i row Hi) as (xrow & yrow & _ & _ & _ & _ & Hpx).
    destruct (Hpx j px Hj) as (xv & yv & _ & _ & Hs).
    destruct (sample_valid g h w c xv yv Hv) as (px' & Hs' & ? & ?). by simplify_eq.
  - intros i j px Hl. unfold lookup2 in *.
    destruct (out !! i) as [row|] eqn:Hi; simplify_eq/=.
    destruct (Hrow i row Hi) as (xrow & yrow & -> & -> & _ & _ & Hpx). simpl.
    by apply Hpx.
Qed.

(** ** Displacement and frame generation *)

Lemma disp_field_lookup (depth : grid Z) (offset ms : Q) (i j : nat) :
  lookup2 (disp_field depth offset ms) i j =
    (fun d => displacement d offset ms) <$> lookup2 depth i j.
Proof.
  unfold lookup2, disp_field. rewrite list_lookup_fmap.
  destruct (depth !! i) as [row|]; simpl; [|done]. by rewrite list_lookup_fmap.
Qed.

Lemma imap2_shape {A B} (f : nat -> nat -> A -> B) (g : grid A) :
  length <$> imap (fun i row => imap (f i) row) g = length <$> g.
Proof.
  apply list_eq. intros i. rewrite !list_lookup_fmap, list_lookup_imap.
  destruct (g !! i); simpl; [|done]. by rewrite length_imap.
Qed.

Lemma imap2_lookup {A B} (f : nat -> nat -> A -> B) (g : grid A) (i j : nat) :
  lookup2 (imap (fun i row => imap (f i) row) g) i j = f i j <$> lookup2 g i j.
Proof.
  unfold lookup2. rewrite list_lookup_imap.
  destruct (g !! i) as [row|]; simpl; [|done]. by rewrite list_lookup_imap.
Qed.

Lemma disp_field_shape (depth : grid Z) (offset ms : Q) :
  length <$> disp_field depth offset ms = length <$> depth.
Proof.
  unfold disp_field. rewrite <- list_fmap_compose. apply list_fmap_ext.
  intros _ row _. simpl. by rewrite length_fmap.
Qed.

Lemma new_x_shape (depth : grid Z) (offset_x ms : Q) :
  length <$> new_x depth offset_x ms = length <$> depth.
Proof. unfold new_x. by rewrite imap2_shape, disp_field_shape. Qed.

Lemma new_y_shape (depth : grid Z) (offset_y ms : Q) :
  length <$> new_y depth offset_y ms = length <$> depth.
Proof. unfold new_y. by rewrite imap2_shape, disp_field_shape. Qed.

Lemma new_x_lookup (depth : grid Z) (offset_x ms : Q) (i j : nat) :
  lookup2 (new_x depth offset_x ms) i j =
    (fun d => Np.clip (Fl.add (inject_Z (Z.of_nat j)) (displacement d offset_x ms))
                      0 (inject_Z (width depth - 1))) <$> lookup2 depth i j.
Proof.
  unfold new_x.
  rewrite (imap2_lookup (fun _ j dx => Np.clip (Fl.add (inject_Z (Z.of_nat j)) dx) 0 _)).
  rewrite disp_field_lookup. by destruct (lookup2 depth i j).
Qed.

Lemma new_y_lookup (depth : grid Z) (offset_y ms : Q) (i j : nat) :
  lookup2 (new_y depth offset_y ms) i j =
    (fun d => Np.clip (Fl.add (inject_Z (Z.of_nat i)) (displacement d offset_y ms))
                      0 (inject_Z (height depth - 1))) <$> lookup2 depth i j.
Proof.
  unfold new_y.
  rewrite (imap2_lookup (fun i _ dy => Np.clip (Fl.add (inject_Z (Z.of_nat i)) dy) 0 _)).
  rewrite disp_field_lookup. by destruct (lookup2 depth i j).
Qed.

Lemma clip_in_image (a : Q) (n : Z) :
  1 <= n -> (0 <= Np.clip a 0 (inject_Z (n - 1)) <= inject_Z (n - 1))%Q.
Proof.
  intros Hn. apply clip_bounds. rewrite <- (Zle_Qle 0). lia.
Qed.

Lemma no_holes_lookup (g : grid pixel) (i j : nat) (px : pixel) :
  existsb (existsb is_hole) g = false -> lookup2 g i j = Some px -> is_hole px = false.
Proof.
  intros He Hl. unfold lookup2 in Hl.
  destruct (g !! i) as [row|] eqn:Hi; simplify_eq/=.
  destruct (is_hole px) eqn:Hh; [|done].
  assert (existsb (existsb is_hole) g = true); [|congruence].
  apply existsb_exists. exists row. split.
  - apply list_elem_of_In. by eapply list_elem_of_lookup_2.
  - apply existsb_exists. exists px. split; [|done].
    apply list_elem_of_In. by eapply list_elem_of_lookup_2.
Qed.

Lemma fill_from_lookup (result background out : grid pixel) (i j : nat) (px : pixel) :
  fill_from result background = Some out -> lookup2 out i j = Some px ->
  exists r b, lookup2 result i j = Some r /\ lookup2 background i j = Some b /\
              px = if is_hole r then b else r.
Proof.
  unfold fill_from. case_bool_decide; [|done]. intros [= <-]. unfold lookup2.
  intros Hl. destruct (zip_with _ result background !! i) as [row|] eqn:Hi; simplify_eq/=.
  apply lookup_zip_with_Some in Hi as (rrow & brow & -> & -> & ->). simpl.
  apply lookup_zip_with_Some in Hl as (r & b & -> & -> & ->). eauto.
Qed.

Lemma fill_from_shape (result background : grid pixel) :
  length <$> background = length <$> result ->
  exists out, fill_from result background = Some out /\
              length <$> out = length <$> result.
Proof.
  intros Hs. unfold fill_from. rewrite bool_decide_eq_true_2 by done.
  eexists. split; [done|].
  revert background Hs. induction result as [|r result IH]; intros [|b background] Hs;
    simplify_eq/=; [done|]. f_equal.
  - rewrite length_zip_with. lia.
  - by apply IH.
Qed.

(** A frame is produced for every offset, it has the shape of the
    image, and each of its pixels is the sample at that place or, where
    the sample is a hole, the pixel of the blurred image. *)
Lemma generate_frame_ok (img : grid pixel) (depth : grid Z) (h w c : Z)
    (offset_x offset_y ms : Q) :
  valid_color h w c img -> valid_gray h w depth ->
  exists sampled out,
    _bilinear_interpolate (Color img) (new_x depth offset_x ms) (new_y depth offset_y ms)
      = Some (Color sampled) /\
    _generate_parallax_frame (Color img) (Gray depth) offset_x offset_y ms
      = Some (Color out) /\
    length <$> out = length <$> img /\
    forall i j px, lookup2 out i j = Some px ->
      exists s, lookup2 sampled i j = Some s /\
        ((is_hole s = false /\ px = s) \/
         (is_hole s = true /\
          lookup2 (cv2_GaussianBlur img (51, 51) 20) i j = Some px)).
Proof.
  intros Hi Hd. unfold _generate_parallax_frame.
  destruct (bilinear_ok img h w c (new_x depth offset_x ms) (new_y depth offset_y ms) Hi)
    as (sampled & Hs & Hshape & _ & _).
  { by rewrite new_x_shape, new_y_shape. }
  rewrite Hs. simpl. exists sampled.
  assert (Hsi : length <$> sampled = length <$> img).
  { rewrite Hshape, new_x_shape.
    destruct Hi as [Hi _], Hd as [Hd _].
    by rewrite (rect_shape _ _ _ Hi), (rect_shape _ _ _ Hd). }
  destruct (existsb (existsb is_hole) sampled) eqn:He.
  - destruct (fill_from_shape sampled (cv2_GaussianBlur img (51, 51) 20))
      as (out & Hout & Hso).
    { by rewrite cv2_GaussianBlur_shape. }
    rewrite Hout. simpl. exists out. split_and!; try done; [congruence|].
    intros i j px Hl.
    destruct (fill_from_lookup _ _ _ _ _ _ Hout Hl) as (r & b & Hr & Hb & ->).
    exists r. split; [done|]. destruct (is_hole r); [right|left]; done.
  - exists sampled. split_and!; try done.
    intros i j px Hl. exists px. split; [done|]. left.
    split; [|done]. by eapply no_holes_lookup.
Qed.

(** ** The frame loop *)

Lemma for_loop_append (f : Z -> option frame_record) (acc : list frame_record)
    (l : list Z) :
  for_loop (fun s i => r ← f i; Some (s ++ [r])) acc l = (acc ++.) <$> mapM f l.
Proof.
  revert acc. induction l as [|i l IH]; intros acc; simpl.
  - by rewrite app_nil_r.
  - destruct (f i) as [r|]; simpl; [|done]. rewrite IH.
    destruct (mapM f l) as [rs|]; simpl; [|done]. by rewrite <- app_assoc.
Qed.

Lemma range_length (n : Z) : length (Py.range n) = Z.to_nat n.
Proof. unfold Py.range. by rewrite length_fmap, length_seq. Qed.

Lemma range_lookup (n : Z) (i : nat) (v : Z) :
  Py.range n !! i = Some v -> v = Z.of_nat i /\ Z.of_nat i < n.
Proof.
  unfold Py.range. rewrite list_lookup_fmap. intros H.
  destruct (seq 0 (Z.to_nat n) !! i) as [k|] eqn:Hk; simplify_eq/=.
  apply lookup_seq in Hk as [-> ?]. lia.
Qed.

(** The progress of frame [i] of [total_frames]: the binary64
    quotient [i / (total_frames - 1)], or 0 for a single frame. *)
Lemma progress_at_in_range (i total_frames : Z) :
  0 <= i < total_frames ->
  progress_at i total_frames =
    Some (if total_frames >? 1
          then Ieee.binary64 (inject_Z i / inject_Z (total_frames - 1)) else 0)%Q.
Proof.
  intros Hi. unfold progress_at, Fl.truediv, Py.truediv.
  destruct (total_frames >? 1) eqn:E; [|done].
  destruct (total_frames - 1 =? 0) eqn:E0; [lia|done].
Qed.

Lemma render_frame_ok (img : grid pixel) (depth : grid Z) (h w c : Z)
    (cm mr : Q) (total_frames i : Z) :
  valid_color h w c img -> valid_gray h w depth -> 0 <= i < total_frames ->
  exists r, render_frame (Color img) (Gray depth) cm mr total_frames i = Some r /\
    frame_idx r = i /\
    progress_at i total_frames = Some (progress r) /\
    progress r = (if total_frames >? 1
                  then Ieee.binary64 (inject_Z i / inject_Z (total_frames - 1))
                  else 0)%Q /\
    (camera_x r, camera_y r) = camera_offset (progress r) mr cm /\
    _generate_parallax_frame (Color img) (Gray depth) (camera_x r) (camera_y r) cm
      = Some (frame r) /\
    shape0 (frame r) = h /\ shape1 (frame r) = w.
Proof.
  intros Hi Hd Hr. unfold render_frame.
  rewrite progress_at_in_range by done.
  set (p := (if total_frames >? 1
             then Ieee.binary64 (inject_Z i / inject_Z (total_frames - 1)) else 0)%Q).
  cbn -[_generate_parallax_frame camera_offset].
  destruct (camera_offset p mr cm) as [cx cy] eqn:Hc.
  destruct (generate_frame_ok img depth h w c cx cy cm Hi Hd)
    as (sampled & out & _ & Hg & Hs & _).
  rewrite Hg. cbn -[_generate_parallax_frame camera_offset]. eexists. split; [done|]. simpl. split_and!; try done.
  - destruct Hi as [(_ & _ & Hh & _) _]. unfold height in *.
    apply (f_equal length) in Hs. rewrite !length_fmap in Hs. lia.
  - destruct Hi as [Hrect _]. rewrite <- (rect_width _ _ _ Hrect). unfold width.
    apply (f_equal head) in Hs. destruct out, img; simplify_eq/=; congruence.
Qed.

(** The loop in full, for a renderer of two pixels or more in each
    axis: the two arrays after the aspect fit, and for each frame
    written its index, progress, offset and the call that made it. *)
Lemma animation_frames_ok (self : ParallaxRenderer) (img : grid pixel) (depth : grid Z)
    (cm mr duration : Q) :
  valid_image (Color img) -> valid_image (Gray depth) ->
  2 <= self_width self -> 2 <= self_height self ->
  exists ri rd frames,
    _resize_with_aspect_ratio (Color img) (self_width self) (self_height self) false
      = Some (Color ri) /\
    _resize_with_aspect_ratio (Gray depth) (self_width self) (self_height self) true
      = Some (Gray rd) /\
    valid_color (self_height self) (self_width self) (channels img) ri /\
    valid_gray (self_height self) (self_width self) rd /\
    mapM (render_frame (Color ri) (Gray rd) cm mr (total_frames_of self duration))
         (Py.range (total_frames_of self duration)) = Some frames /\
    create_parallax_animation self (Some (Color img)) (Some (Gray depth)) cm mr duration
      = Some frames /\
    length frames = Z.to_nat (total_frames_of self duration) /\
    forall i r, frames !! i = Some r ->
      frame_idx r = Z.of_nat i /\
      Z.of_nat i < total_frames_of self duration /\
      render_frame (Color ri) (Gray rd) cm mr (total_frames_of self duration) (Z.of_nat i)
        = Some r /\
      progress_at (Z.of_nat i) (total_frames_of self duration) = Some (progress r) /\
      progress r = (if total_frames_of self duration >? 1
                    then Ieee.binary64 (inject_Z (Z.of_nat i)
                                        / inject_Z (total_frames_of self duration - 1))
                    else 0)%Q /\
      (camera_x r, camera_y r) = camera_offset (progress r) mr cm /\
      _generate_parallax_frame (Color ri) (Gray rd) (camera_x r) (camera_y r) cm
        = Some (frame r) /\
      shape0 (frame r) = self_height self /\ shape1 (frame r) = self_width self.
Proof.
  intros Hi Hd Hw Hh. unfold create_parallax_animation.
  set (T := total_frames_of self duration).
  destruct (resize_ok (Color img) (self_width self) (self_height self) false)
    as (ri & Hri_eq & Hri); [done..|].
  destruct (resize_ok (Gray depth) (self_width self) (self_height self) true)
    as (rd & Hrd_eq & Hrd); [done..|].
  rewrite Hri_eq, Hrd_eq. simpl.
  destruct ri as [|ri]; [done|]. destruct rd as [rd|]; [|done]. simpl in Hri, Hrd.
  unfold frame_step. rewrite for_loop_append.
  assert (Hall : exists frames,
    mapM (render_frame (Color ri) (Gray rd) cm mr T) (Py.range T) = Some frames).
  { apply mapM_is_Some_2, Forall_lookup. intros i v Hv.
    apply range_lookup in Hv as [-> Hlt].
    destruct (render_frame_ok ri rd _ _ _ cm mr T (Z.of_nat i) Hri Hrd) as (r & Hr & _);
      [lia|]. unfold compose. rewrite Hr. by eexists. }
  destruct Hall as [frames Hf]. rewrite Hf. simpl. exists ri, rd, frames.
  split_and!; try done.
  - apply mapM_Some_1 in Hf. by rewrite <- (Forall2_length _ _ _ Hf), range_length.
  - intros i r Hr. apply mapM_Some_1 in Hf.
    destruct (Forall2_lookup_r _ _ _ _ _ Hf Hr) as (v & Hv & Hrv).
    apply range_lookup in Hv as [-> Hlt].
    destruct (render_frame_ok ri rd _ _ _ cm mr T (Z.of_nat i) Hri Hrd)
      as (r' & Hr' & ? & ? & ? & ? & ? & ? & ?); [lia|].
    simplify_eq. done.
Qed.

(** ** The blend *)

Lemma int_inject (q : Q) (z : Z) : (q == inject_Z z)%Q -> Py.int q = z.
Proof.
  destruct q as [n d]. unfold Qeq, Py.int. simpl. intros H.
  rewrite Z.mul_1_r in H. subst n. apply Z.quot_mul. lia.
Qed.

(** The exact combination lies between any bounds of the four values. *)
Lemma exact_blend_convex (wx wy : Q) (a b c d lo hi : Z) :
  (0 <= wx <= 1)%Q -> (0 <= wy <= 1)%Q ->
  lo <= a <= hi -> lo <= b <= hi -> lo <= c <= hi -> lo <= d <= hi ->
  (inject_Z lo <= exact_blend wx wy a b c d <= inject_Z hi)%Q.
Proof.
  intros [Hx0 Hx1] [Hy0 Hy1] Ha Hb Hc Hd. unfold exact_blend.
  assert (HA : (inject_Z lo <= inject_Z a <= inject_Z hi)%Q)
    by (rewrite <- !Zle_Qle; lia).
  assert (HB : (inject_Z lo <= inject_Z b <= inject_Z hi)%Q)
    by (rewrite <- !Zle_Qle; lia).
  assert (HC : (inject_Z lo <= inject_Z c <= inject_Z hi)%Q)
    by (rewrite <- !Zle_Qle; lia).
  assert (HD : (inject_Z lo <= inject_Z d <= inject_Z hi)%Q)
    by (rewrite <- !Zle_Qle; lia).
  revert HA HB HC HD.
  generalize (inject_Z a) (inject_Z b) (inject_Z c) (inject_Z d)
             (inject_Z lo) (inject_Z hi).
  intros A B C D L H [HA1 HA2] [HB1 HB2] [HC1 HC2] [HD1 HD2].
  assert (W00 : (0 <= (1 - wx) * (1 - wy))%Q) by (apply Qmult_le_0_compat; lra).
  assert (W01 : (0 <= wx * (1 - wy))%Q) by (apply Qmult_le_0_compat; lra).
  assert (W10 : (0 <= (1 - wx) * wy)%Q) by (apply Qmult_le_0_compat; lra).
  assert (W11 : (0 <= wx * wy)%Q) by (apply Qmult_le_0_compat; lra).
  assert (P00 : (0 <= (A - L) * ((1 - wx) * (1 - wy)))%Q) by (apply Qmult_le_0_compat; lra).
  assert (P01 : (0 <= (B - L) * (wx * (1 - wy)))%Q) by (apply Qmult_le_0_compat; lra).
  assert (P10 : (0 <= (C - L) * ((1 - wx) * wy))%Q) by (apply Qmult_le_0_compat; lra).
  assert (P11 : (0 <= (D - L) * (wx * wy))%Q) by (apply Qmult_le_0_compat; lra).
  assert (R00 : (0 <= (H - A) * ((1 - wx) * (1 - wy)))%Q) by (apply Qmult_le_0_compat; lra).
  assert (R01 : (0 <= (H - B) * (wx * (1 - wy)))%Q) by (apply Qmult_le_0_compat; lra).
  assert (R10 : (0 <= (H - C) * ((1 - wx) * wy))%Q) by (apply Qmult_le_0_compat; lra).
  assert (R11 : (0 <= (H - D) * (wx * wy))%Q) by (apply Qmult_le_0_compat; lra).
  split; nra.
Qed.

(** The exact combination is a convex combination: its weights are
    non-negative and sum to one. *)
Lemma exact_blend_weights (wx wy : Q) (a b c d : Z) :
  (0 <= wx <= 1)%Q -> (0 <= wy <= 1)%Q -> convex_of (exact_blend wx wy a b c d) a b c d.
Proof.
  intros [Hx0 Hx1] [Hy0 Hy1].
  exists ((1 - wx) * (1 - wy))%Q, (wx * (1 - wy))%Q, ((1 - wx) * wy)%Q, (wx * wy)%Q.
  split_and!.
  - apply Qmult_le_0_compat; lra.
  - apply Qmult_le_0_compat; lra.
  - apply Qmult_le_0_compat; lra.
  - apply Qmult_le_0_compat; lra.
  - ring.
  - unfold exact_blend. ring.
Qed.

(** The binary64 blend of non-negative values is the exact combination
    up to the seven roundings on the longest path through it. *)
Lemma blend_within (wx wy : Q) (a b c d : Z) :
  (0 <= wx <= 1)%Q -> (0 <= wy <= 1)%Q -> 0 <= a -> 0 <= b -> 0 <= c -> 0 <= d ->
  Ieee.within 53 7 (blend wx wy a b c d) (exact_blend wx wy a b c d).
Proof.
  intros [Hx0 Hx1] [Hy0 Hy1] Ha Hb Hc Hd.
  assert (P : 1 <= 53) by lia.
  assert (HA : Ieee.within 53 0 (inject_Z a) (inject_Z a))
    by (apply within_exact; [rewrite <- (Zle_Qle 0); lia|reflexivity]).
  assert (HB : Ieee.within 53 0 (inject_Z b) (inject_Z b))
    by (apply within_exact; [rewrite <- (Zle_Qle 0); lia|reflexivity]).
  assert (HC : Ieee.within 53 0 (inject_Z c) (inject_Z c))
    by (apply within_exact; [rewrite <- (Zle_Qle 0); lia|reflexivity]).
  assert (HD : Ieee.within 53 0 (inject_Z d) (inject_Z d))
    by (apply within_exact; [rewrite <- (Zle_Qle 0); lia|reflexivity]).
  assert (Hwx : Ieee.within 53 0 wx wx) by (by apply within_exact).
  assert (Hwy : Ieee.within 53 0 wy wy) by (by apply within_exact).
  assert (Hcx : Ieee.within 53 1 (Fl.sub 1 wx) (1 - wx)).
  { apply (within_round 53 P 0), within_exact; [lra|reflexivity]. }
  assert (Hcy : Ieee.within 53 1 (Fl.sub 1 wy) (1 - wy)).
  { apply (within_round 53 P 0), within_exact; [lra|reflexivity]. }
  unfold blend, exact_blend. cbv zeta.
  set (cx := Fl.sub 1 wx) in *. set (cy := Fl.sub 1 wy) in *.
  assert (T00 : Ieee.within 53 4 (Fl.mul (Fl.mul (inject_Z a) cx) cy)
                  (inject_Z a * (1 - wx) * (1 - wy))).
  { apply (within_round 53 P 3), (within_mul 53 P 2 1); [|done].
    apply (within_round 53 P 1), (within_mul 53 P 0 1); done. }
  assert (T01 : Ieee.within 53 4 (Fl.mul (Fl.mul (inject_Z b) wx) cy)
                  (inject_Z b * wx * (1 - wy))).
  { apply (within_weaken 53 P 3 4); [lia|].
    apply (within_round 53 P 2), (within_mul 53 P 1 1); [|done].
    apply (within_round 53 P 0), (within_mul 53 P 0 0); done. }
  assert (T10 : Ieee.within 53 5 (Fl.mul (Fl.mul (inject_Z c) cx) wy)
                  (inject_Z c * (1 - wx) * wy)).
  { apply (within_weaken 53 P 3 5); [lia|].
    apply (within_round 53 P 2), (within_mul 53 P 2 0); [|done].
    apply (within_round 53 P 1), (within_mul 53 P 0 1); done. }
  assert (T11 : Ieee.within 53 6 (Fl.mul (Fl.mul (inject_Z d) wx) wy)
                  (inject_Z d * wx * wy)).
  { apply (within_weaken 53 P 2 6); [lia|].
    apply (within_round 53 P 1), (within_mul 53 P 1 0); [|done].
    apply (within_round 53 P 0), (within_mul 53 P 0 0); done. }
  apply (within_round 53 P 6), within_add; [|done].
  apply (within_round 53 P 5), within_add; [|done].
  apply (within_round 53 P 4), within_add; done.
Qed.

Lemma qpow_lo_7 : (1 - (1 # 1125899906842624) <= Ieee.qpow (1 - Ieee.eps 53) 7)%Q.
Proof. by vm_compute. Qed.

Lemma qpow_hi_7 : (Ieee.qpow (1 + Ieee.eps 53) 7 <= 1 + (1 # 1125899906842624))%Q.
Proof. by vm_compute. Qed.

(** The binary64 blend of values in [[lo, hi]] misses that interval by a
    relative error of at most [2 ^ -50], and the exact combination by as
    much. *)
Lemma blend_bounds (wx wy : Q) (a b c d lo hi : Z) :
  (0 <= wx <= 1)%Q -> (0 <= wy <= 1)%Q -> 0 <= lo ->
  lo <= a <= hi -> lo <= b <= hi -> lo <= c <= hi -> lo <= d <= hi ->
  ((1 - (1 # 1125899906842624)) * inject_Z lo <= blend wx wy a b c d
   <= (1 + (1 # 1125899906842624)) * inject_Z hi)%Q /\
  (Qabs (blend wx wy a b c d - exact_blend wx wy a b c d)
   <= (1 # 1125899906842624) * exact_blend wx wy a b c d)%Q.
Proof.
  intros Hwx Hwy Hlo Ha Hb Hc Hd.
  destruct (blend_within wx wy a b c d Hwx Hwy) as (He & Hl & Hu); try lia.
  destruct (exact_blend_convex wx wy a b c d lo hi Hwx Hwy Ha Hb Hc Hd) as [Hel Heu].
  pose proof qpow_lo_7 as H7l. pose proof qpow_hi_7 as H7u.
  assert (HL : (0 <= inject_Z lo)%Q) by (rewrite <- (Zle_Qle 0); lia).
  set (q := blend wx wy a b c d) in *. set (e := exact_blend wx wy a b c d) in *.
  set (L := Ieee.qpow (1 - Ieee.eps 53) 7) in *.
  set (U := Ieee.qpow (1 + Ieee.eps 53) 7) in *.
  assert (H1 : (0 <= (L - (1 - (1 # 1125899906842624))) * e)%Q) by (apply Qmult_le_0_compat; lra).
  assert (H2 : (0 <= ((1 + (1 # 1125899906842624)) - U) * e)%Q) by (apply Qmult_le_0_compat; lra).
  assert (H3 : (0 <= (1 - (1 # 1125899906842624)) * (e - inject_Z lo))%Q)
    by (apply Qmult_le_0_compat; lra).
  assert (H4 : (0 <= (1 + (1 # 1125899906842624)) * (inject_Z hi - e))%Q)
    by (apply Qmult_le_0_compat; lra).
  split; [split; lra|]. apply Qabs_Qle_condition. split; lra.
Qed.

(** On a non-negative value below 256 the cast is the floor. *)
Lemma astype_uint8_floor (q : Q) :
  (0 <= q)%Q -> (q < 256)%Q ->
  Np.astype_uint8 q = Qfloor q /\ Np.astype_uint8 q = Py.int q.
Proof.
  intros H0 H1. unfold Np.astype_uint8. rewrite int_nonneg by done.
  assert (0 <= Qfloor q < 256).
  { split; [by apply (floor_ge q 0) | by apply (floor_lt q 256)]. }
  rewrite Z.mod_small by done. done.
Qed.

(** The binary64 difference of a number and its floor is a weight in
    [[0, 1]]. *)
Lemma frac_unit (x : Q) : (0 <= Fl.sub x (inject_Z (Qfloor x)) <= 1)%Q.
Proof.
  pose proof (Qfloor_le x). pose proof (Qlt_floor x).
  rewrite inject_Z_plus in *. change (inject_Z 1) with 1%Q in *.
  unfold Fl.sub. split.
  - apply (round_ge_Z 53 ltac:(lia) _ 0); [done|]. change (inject_Z 0) with 0%Q. lra.
  - apply (round_le_Z 53 ltac:(lia) _ 1); [done|]. change (inject_Z 1) with 1%Q. lra.
Qed.

(** With in-range coordinates the first corner is the floor of the
    coordinates and the weights are the rounded fractional parts. *)
Lemma corners_in_range (h w : Z) (x y : Q) :
  1 <= h <= 2 ^ 31 -> 1 <= w <= 2 ^ 31 ->
  (0 <= x <= inject_Z (w - 1))%Q -> (0 <= y <= inject_Z (h - 1))%Q ->
  exists x1 y1, corners h w x y = (Qfloor x, x1, Qfloor y, y1).
Proof.
  intros Hh Hw [Hx0 Hx1] [Hy0 Hy1]. unfold corners, Np.floor.
  pose proof (floor_ge x 0 Hx0). pose proof (floor_le x _ Hx1).
  pose proof (floor_ge y 0 Hy0). pose proof (floor_le y _ Hy1).
  rewrite (wrap32_id (Qfloor x)) by lia. rewrite (wrap32_id (Qfloor y)) by lia.
  rewrite (clip_int_id (Qfloor x)) by lia. rewrite (clip_int_id (Qfloor y)) by lia.
  by eexists _, _.
Qed.

Lemma sample_channel (g : grid pixel) (x y : Q) (px : pixel) (k : nat) (v : Z) :
  sample g x y = Some px -> px !! k = Some v ->
  exists a b c d,
    corner_values g x y k = Some (a, b, c, d) /\
    v = Np.astype_uint8 (blend (weights g x y).1 (weights g x y).2 a b c d).
Proof.
  unfold sample, corner_values, weights, corner_channel.
  destruct (corners (height g) (width g) x y) as [[[x0 x1] y0] y1].
  intros Hs Hk.
  destruct (Np.index2 g y0 x0) as [p00|]; simplify_eq/=.
  destruct (Np.index2 g y0 x1) as [p01|]; simplify_eq/=.
  destruct (Np.index2 g y1 x0) as [p10|]; simplify_eq/=.
  destruct (Np.index2 g y1 x1) as [p11|]; simplify_eq/=.
  apply map4_lookup in Hk as (a & b & c & d & -> & -> & -> & -> & ->).
  simpl. eauto 10.
Qed.

Lemma corner_channel_u8 (g : grid pixel) (h w c : Z) (yi xi : Z) (k : nat) (v : Z) :
  valid_color h w c g -> corner_channel g yi xi k = Some v -> u8 v.
Proof.
  intros [Hr HP]. unfold corner_channel, Np.index2, Np.index.
  intros H.
  assert (Hpx : forall (row : list pixel) px, row ∈ g -> px ∈ row -> px !! k = Some v -> u8 v).
  { intros row px Hrow Hpx Hv.
    pose proof (proj1 (Forall_forall _ _) HP row Hrow) as HProw.
    pose proof (proj1 (Forall_forall _ _) HProw px Hpx) as [_ Hu].
    eapply Forall_lookup_1; [exact Hu|exact Hv]. }
  repeat case_match; simplify_eq/=;
    repeat match goal with
    | H : (_ ≫= _) = Some _ |- _ => apply bind_Some in H as (? & ? & ?)
    | H : context [if ?b then _ else _] |- _ => destruct b; simplify_eq/=
    end; simplify_eq/=;
    eapply Hpx; eauto using list_elem_of_lookup_2.
Qed.

Lemma lookup2_Forall {A} (P : A -> Prop) (g : grid A) (i j : nat) (v : A) :
  Forall (Forall P) g -> lookup2 g i j = Some v -> P v.
Proof.
  intros HP Hl. unfold lookup2 in Hl.
  destruct (g !! i) as [row|] eqn:Hi; simplify_eq/=.
  eapply Forall_lookup_1; [|exact Hl]. eapply Forall_lookup_1; [exact HP|exact Hi].
Qed.

Lemma corner_values_u8 (g : grid pixel) (h w c : Z) (x y : Q) (k : nat) (a b c' d : Z) :
  valid_color h w c g -> corner_values g x y k = Some (a, b, c', d) ->
  u8 a /\ u8 b /\ u8 c' /\ u8 d.
Proof.
  intros Hv. unfold corner_values.
  destruct (corners (height g) (width g) x y) as [[[x0 x1] y0] y1].
  intros H.
  destruct (corner_channel g y0 x0 k) as [a'|] eqn:Ha; simplify_eq/=.
  destruct (corner_channel g y0 x1 k) as [b'|] eqn:Hb; simplify_eq/=.
  destruct (corner_channel g y1 x0 k) as [c''|] eqn:Hc; simplify_eq/=.
  destruct (corner_channel g y1 x1 k) as [d'|] eqn:Hd; simplify_eq/=.
  split_and!; eapply corner_channel_u8; eauto.
Qed.

(** In-range coordinates: every output channel is the 8-bit cast of
    the blend of the four corner values, with the rounded fractional
    parts of the coordinates as weights. *)
Lemma bilinear_in_range (g : grid pixel) (h w c : Z) (x y : grid Q) :
  valid_color h w c g -> h <= 2 ^ 31 -> w <= 2 ^ 31 ->
  length <$> x = length <$> y -> in_range w x -> in_range h y ->
  exists out, _bilinear_interpolate (Color g) x y = Some (Color out) /\
    length <$> out = length <$> x /\
    forall i j px k v, lookup2 out i j = Some px -> px !! k = Some v ->
      exists xv yv a b c d,
        lookup2 x i j = Some xv /\ lookup2 y i j = Some yv /\
        corner_values g xv yv k = Some (a, b, c, d) /\
        (u8 a /\ u8 b /\ u8 c /\ u8 d) /\
        weights g xv yv = (Fl.sub xv (inject_Z (Qfloor xv)), Fl.sub yv (inject_Z (Qfloor yv))) /\
        (0 <= (weights g xv yv).1 <= 1)%Q /\ (0 <= (weights g xv yv).2 <= 1)%Q /\
        v = Np.astype_uint8 (blend (weights g xv yv).1 (weights g xv yv).2 a b c d).
Proof.
  intros Hv Hh Hw Hxy Hx Hy.
  destruct (bilinear_ok g h w c x y Hv Hxy) as (out & Hout & Hshape & _ & Hpx).
  exists out. split_and!; try done.
  intros i j px k v Hl Hk.
  destruct (Hpx i j px Hl) as (xv & yv & Hxv & Hyv & Hs).
  destruct (sample_channel g xv yv px k v Hs Hk) as (a & b & c' & d & Hcv & ->).
  exists xv, yv, a, b, c', d.
  pose proof (lookup2_Forall _ _ _ _ _ Hx Hxv) as Hxr.
  pose proof (lookup2_Forall _ _ _ _ _ Hy Hyv) as Hyr. simpl in Hxr, Hyr.
  pose proof Hv as [Hr _]. pose proof Hr as (Hh1 & Hw1 & Hg & _).
  destruct (corners_in_range h w xv yv) as (x1 & y1 & Hc); try done; try lia.
  assert (Hwt : weights g xv yv =
            (Fl.sub xv (inject_Z (Qfloor xv)), Fl.sub yv (inject_Z (Qfloor yv)))).
  { unfold weights. by rewrite Hg, (rect_width _ _ _ Hr), Hc. }
  pose proof (corner_values_u8 g h w c xv yv k a b c' d Hv Hcv) as (? & ? & ? & ?).
  rewrite Hwt. simpl. split_and!; try done; apply frac_unit.
Qed.

(** ** Frame sequence *)

Lemma progress_le (i j n : Z) :
  0 < n -> i <= j ->
  (Ieee.binary64 (inject_Z i / inject_Z n) <= Ieee.binary64 (inject_Z j / inject_Z n))%Q.
Proof.
  intros Hn Hij. apply (round_le 53 ltac:(lia)). unfold Qdiv. apply Qmult_le_compat_r.
  - by rewrite <- Zle_Qle.
  - apply Qlt_le_weak, Qinv_lt_0_compat. rewrite <- (Zlt_Qlt 0). done.
Qed.

(** Below [2 ^ 52] frames two quotients [i / n] and [j / n] stay apart
    after rounding. *)
Lemma progress_lt (i j n : Z) :
  0 <= i < j -> j <= n -> n <= 2 ^ 52 ->
  (Ieee.binary64 (inject_Z i / inject_Z n) < Ieee.binary64 (inject_Z j / inject_Z n))%Q.
Proof.
  intros Hij Hjn Hn.
  assert (HI : (0 <= inject_Z i)%Q) by (rewrite <- (Zle_Qle 0); lia).
  assert (HJ : (inject_Z i + 1 <= inject_Z j)%Q).
  { change 1%Q with (inject_Z 1). rewrite <- inject_Z_plus, <- Zle_Qle. lia. }
  assert (HS : (inject_Z i + inject_Z j <= 9007199254740991)%Q).
  { change 9007199254740991%Q with (inject_Z (2 ^ 53 - 1)).
    rewrite <- inject_Z_plus, <- Zle_Qle. change (2 ^ 53) with (2 * 2 ^ 52). lia. }
  assert (Ht : (0 < / inject_Z n)%Q).
  { apply Qinv_lt_0_compat. rewrite <- (Zlt_Qlt 0). lia. }
  unfold Qdiv. set (t := (/ inject_Z n)%Q) in *.
  assert (Hi0 : (0 <= inject_Z i * t)%Q) by (apply Qmult_le_0_compat; lra).
  assert (Hj0 : (0 <= inject_Z j * t)%Q) by (apply Qmult_le_0_compat; lra).
  pose proof (round_upper 53 _ Hi0) as Hu. pose proof (round_lower 53 _ Hj0) as Hl.
  fold (Ieee.eps 53) in Hu, Hl. rewrite eps_53 in Hu, Hl. fold Ieee.binary64 in Hu, Hl.
  eapply Qle_lt_trans; [exact Hu|]. eapply Qlt_le_trans; [|exact Hl].
  rewrite !Qmult_assoc. apply Qmult_lt_compat_r; [done|]. lra.
Qed.

Lemma total_frames_exact (self : ParallaxRenderer) (duration : Q) (n : Z) :
  Z.abs (self_fps self) <= 2 ^ 53 -> Z.abs n <= 2 ^ 53 ->
  (duration * inject_Z (self_fps self) == inject_Z n)%Q ->
  total_frames_of self duration = n.
Proof.
  intros Hfps Hn H. unfold total_frames_of, Fl.mul. apply int_inject.
  rewrite of_int_exact, H by done. by apply binary64_Z.
Qed.

(** The rounded product [duration * fps] is not negative when its
    factors are not. *)
Lemma frame_product_nonneg (self : ParallaxRenderer) (duration : Q) :
  0 <= self_fps self -> (0 <= duration)%Q ->
  (0 <= Fl.mul duration (Fl.of_int (self_fps self)))%Q.
Proof.
  intros Hfps Hdur. unfold Fl.mul, Fl.of_int.
  apply (round_nonneg 53 ltac:(lia)), Qmult_le_0_compat; [done|].
  apply (round_nonneg 53 ltac:(lia)). rewrite <- (Zle_Qle 0). lia.
Qed.

(** C1. For a renderer of two pixels or more in each axis and valid
    inputs the frames are written one per index of
    [range(total_frames)], in strictly increasing order of frame index
    and increasing order of progress (strictly below [2 ^ 52] frames);
    frame [i] is computed at the progress [progress_at] gives, the
    binary64 quotient [i / (total_frames - 1)] when [total_frames > 1]
    and 0 when [total_frames = 1]; with more than one frame the first
    is at progress 0 and the last at progress 1; at 30 fps and a
    duration of 2.0 seconds there are exactly 60 frames. *)
Theorem frames_emitted_in_order (self : ParallaxRenderer) (img : grid pixel)
    (depth : grid Z) (cm mr duration : Q) :
  valid_image (Color img) -> valid_image (Gray depth) ->
  2 <= self_width self -> 2 <= self_height self ->
  exists frames,
    create_parallax_animation self (Some (Color img)) (Some (Gray depth)) cm mr duration
      = Some frames /\
    let total_frames := total_frames_of self duration in
    length frames = Z.to_nat total_frames /\
    (forall i r, frames !! i = Some r ->
       frame_idx r = Z.of_nat i /\
       progress_at (Z.of_nat i) total_frames = Some (progress r) /\
       progress r = (if total_frames >? 1
                     then Ieee.binary64 (inject_Z (Z.of_nat i) / inject_Z (total_frames - 1))
                     else 0)%Q) /\
    (forall i j ri rj, (i < j)%nat -> frames !! i = Some ri -> frames !! j = Some rj ->
       frame_idx ri < frame_idx rj /\ (progress ri <= progress rj)%Q /\
       (total_frames <= 2 ^ 52 -> (progress ri < progress rj)%Q)) /\
    (1 < total_frames ->
       exists first final, head frames = Some first /\ last frames = Some final /\
         (progress first == 0)%Q /\ (progress final == 1)%Q) /\
    (self_fps self = 30 -> (duration == 2)%Q ->
       total_frames = 60 /\ length frames = 60%nat).
Proof.
  intros Hi Hd Hw Hh.
  destruct (animation_frames_ok self img depth cm mr duration Hi Hd Hw Hh)
    as (ri0 & rd0 & frames & _ & _ & _ & _ & _ & Hrun & Hlen & Hframes).
  exists frames. split; [done|]. simpl.
  set (T := total_frames_of self duration) in *.
  assert (Hidx : forall i r, frames !! i = Some r ->
            frame_idx r = Z.of_nat i /\
            progress_at (Z.of_nat i) T = Some (progress r) /\
            progress r = (if T >? 1
                          then Ieee.binary64 (inject_Z (Z.of_nat i) / inject_Z (T - 1))
                          else 0)%Q).
  { intros i r Hr. destruct (Hframes i r Hr) as (? & _ & _ & ? & ? & _). done. }
  split_and!; try done.
  - intros i j ri rj Hij Hri Hrj.
    destruct (Hidx i ri Hri) as (-> & _ & ->). destruct (Hidx j rj Hrj) as (-> & _ & ->).
    apply lookup_lt_Some in Hrj. rewrite Hlen in Hrj.
    destruct (T >? 1) eqn:E; [|lia].
    split; [lia|]. split.
    + apply progress_le; lia.
    + intros HT. apply progress_lt; lia.
  - intros HT.
    destruct (lookup_lt_is_Some_2 frames 0) as [first Hfirst]; [lia|].
    destruct (lookup_lt_is_Some_2 frames (pred (length frames))) as [final Hfinal]; [lia|].
    exists first, final.
    destruct (Hidx _ first Hfirst) as (_ & _ & Hp0).
    destruct (Hidx _ final Hfinal) as (_ & _ & Hp1).
    destruct (T >? 1) eqn:E; [|lia].
    split_and!.
    + by rewrite head_lookup.
    + by rewrite last_lookup.
    + rewrite Hp0. unfold Ieee.binary64.
      rewrite (round_of_0 53); [reflexivity|]. unfold Qdiv. apply Qmult_0_l.
    + rewrite Hp1, Hlen. replace (Z.of_nat (pred (Z.to_nat T))) with (T - 1) by lia.
      apply (round_Z_exact 53 ltac:(lia) _ 1); [done|].
      apply Qmult_inv_r. intros E0. unfold Qeq in E0. simpl in E0. lia.
  - intros Hfps Hdur.
    assert (HT : T = 60).
    { apply total_frames_exact; [rewrite Hfps; done|done|]. rewrite Hfps, Hdur. reflexivity. }
    split; [done|]. by rewrite Hlen, HT.
Qed.

Lemma round_floor (q : Q) : Qfloor q <= Py.round q <= Qfloor q + 1.
Proof.
  unfold Py.round. destruct (_ ?= _)%Q; try destruct (Z.even _); lia.
Qed.

(** C2, as the code has it.  For a renderer of two pixels or more in
    each axis, valid inputs, fps > 0 and a duration > 0 the number of
    frames rendered is [int(duration * fps)], the binary64 product
    truncated toward zero, that is its floor; it is the rounded product
    or one less, and it is at least 1 exactly when the product is at
    least 1. *)
Theorem frame_count_truncates (self : ParallaxRenderer) (img : grid pixel)
    (depth : grid Z) (cm mr duration : Q) :
  valid_image (Color img) -> valid_image (Gray depth) ->
  2 <= self_width self -> 2 <= self_height self ->
  0 < self_fps self -> (0 < duration)%Q ->
  exists frames,
    create_parallax_animation self (Some (Color img)) (Some (Gray depth)) cm mr duration
      = Some frames /\
    let total_frames := Z.of_nat (length frames) in
    let x := Fl.mul duration (Fl.of_int (self_fps self)) in
    total_frames = Py.int x /\
    (inject_Z total_frames <= x < inject_Z (total_frames + 1))%Q /\
    Py.round x - 1 <= total_frames <= Py.round x /\
    (1 <= total_frames <-> (1 <= x)%Q).
Proof.
  intros Hi Hd Hw Hh Hfps Hdur.
  destruct (animation_frames_ok self img depth cm mr duration Hi Hd Hw Hh)
    as (ri & rd & frames & _ & _ & _ & _ & _ & Hrun & Hlen & _).
  exists frames. split; [done|]. simpl.
  unfold total_frames_of in Hlen.
  pose proof (frame_product_nonneg self duration ltac:(lia) ltac:(lra)) as Hx.
  set (x := Fl.mul duration (Fl.of_int (self_fps self))) in *.
  pose proof (int_floor_bounds x Hx) as Hb.
  pose proof (round_floor x) as Hr.
  rewrite (int_nonneg x Hx) in *.
  assert (H0 : 0 <= Qfloor x) by by apply (floor_ge x 0).
  rewrite Hlen, Z2Nat.id by done.
  split; [done|]. split; [exact Hb|]. split; [lia|]. split.
  - intros H1. apply Qle_trans with (inject_Z (Qfloor x)); [|apply Qfloor_le].
    by rewrite <- (Zle_Qle 1).
  - intros H1. by apply (floor_ge x 1).
Qed.

(** C3 at a target of one pixel.  For a source of 49 by 49 pixels and a
    target of 1 by 1 the scale is the binary64 quotient [1 / 49], the
    product [49 * scale] is the binary64 number just below 1, and
    [int] makes the scaled size (0, 0): the resampler hands
    [cv2.resize] an empty size, and when [cv2.resize] rejects it no
    buffer is returned and the animation ends before the frame loop. *)
Theorem aspect_fit_empty_size (img : ndarray) (is_depth : bool) :
  shape0 img = 49 -> shape1 img = 49 ->
  cv2_resize img (0, 0) = None ->
  scaled_size 49 49 1 1 = Some (0, 0) /\
  (Fl.mul (Fl.of_int 49) (Ieee.binary64 (1 / 49))
   == 9007199254740991 # 9007199254740992)%Q /\
  _resize_with_aspect_ratio img 1 1 is_depth = None /\
  forall self depth_map cm mr duration,
    self_width self = 1 -> self_height self = 1 ->
    create_parallax_animation self (Some img) depth_map cm mr duration = None.
Proof.
  intros Hh Hw Hres.
  assert (Hsz : scaled_size 49 49 1 1 = Some (0, 0)) by (by vm_compute).
  assert (Hfit : forall b, _resize_with_aspect_ratio img 1 1 b = None).
  { intros b. unfold _resize_with_aspect_ratio. by rewrite Hh, Hw, Hsz; simpl; rewrite Hres. }
  split; [done|]. split; [by vm_compute|]. split; [done|].
  intros self depth_map cm mr duration Hsw Hsh. unfold create_parallax_animation.
  destruct depth_map; [|done]. by rewrite Hsw, Hsh, Hfit.
Qed.

(** X17. For a valid image and a valid depth map of any size and a
    target of two pixels or more in each axis, the resampler returns
    for each an array of exactly the target height and width, so both
    have the same dimensions; the scaled size can be smaller than the
    target in an axis (for a source of 110 by 100 and a target of 1920
    by 1080 it is 1919 by 1745), and the crop or pad gives exactly the
    target size for every non-empty scaled array. *)
Theorem aspect_fit_two_or_more (image depth_map : ndarray)
    (target_width target_height : Z) :
  valid_image image -> valid_image depth_map ->
  2 <= target_width -> 2 <= target_height ->
  (exists image_resized depth_resized,
     _resize_with_aspect_ratio image target_width target_height false
       = Some image_resized /\
     _resize_with_aspect_ratio depth_map target_width target_height true
       = Some depth_resized /\
     valid_like image target_height target_width image_resized /\
     valid_like depth_map target_height target_width depth_resized /\
     shape0 image_resized = target_height /\ shape1 image_resized = target_width /\
     shape0 depth_resized = target_height /\ shape1 depth_resized = target_width) /\
  scaled_size 110 100 1920 1080 = Some (1919, 1745) /\
  (forall (A : Type) (zero : A) (resized : grid A) (new_w new_h : Z),
     rect new_h new_w resized ->
     exists result,
       center_crop_pad zero resized new_w new_h target_width target_height
         = Some result /\
       height result = target_height /\ width result = target_width /\
       rect target_height target_width result).
Proof.
  intros Hi Hd Htw Hth. split; [|split; [by vm_compute|]].
  - destruct (resize_ok image target_width target_height false) as (ri & Hri & Hvi);
      [done..|].
    destruct (resize_ok depth_map target_width target_height true) as (rd & Hrd & Hvd);
      [done..|].
    exists ri, rd.
    destruct (valid_like_shape _ _ _ _ Hvi) as [? ?].
    destruct (valid_like_shape _ _ _ _ Hvd) as [? ?].
    split_and!; done.
  - intros A zero resized new_w new_h Hr.
    destruct (center_crop_pad_ok (fun _ => True) zero resized
                new_w new_h target_width target_height) as (r & Hres & Hrect & _);
      try done; try lia.
    { apply Forall_forall. intros row _. apply Forall_forall. done. }
    exists r. split_and!; try done.
    + apply Hrect.
    + by eapply rect_width.
Qed.

(** ** Bilinear resampler *)

Lemma blend_u8 (wx wy : Q) (a b c d : Z) :
  (0 <= wx <= 1)%Q -> (0 <= wy <= 1)%Q -> u8 a -> u8 b -> u8 c -> u8 d ->
  (0 <= blend wx wy a b c d)%Q /\ (blend wx wy a b c d < 256)%Q.
Proof.
  intros Hx Hy Ha Hb Hc Hd. unfold u8 in *.
  destruct (blend_bounds wx wy a b c d 0 255) as [[H0 H1] _]; try done.
  change (inject_Z 0) with 0%Q in H0. change (inject_Z 255) with 255%Q in H1.
  split; lra.
Qed.

(** C4, as the code has it.  For a valid image and coordinates within
    the image, each output channel value is the binary64 blend of the
    four corner values truncated toward zero by the cast, that is its
    floor: it never exceeds the blend, and it is the rounded blend or
    one less. *)
Theorem cast_truncates (g : grid pixel) (h w c : Z) (x y : grid Q) :
  valid_color h w c g -> h <= 2 ^ 31 -> w <= 2 ^ 31 ->
  length <$> x = length <$> y -> in_range w x -> in_range h y ->
  exists out, _bilinear_interpolate (Color g) x y = Some (Color out) /\
    forall i j px k v, lookup2 out i j = Some px -> px !! k = Some v ->
      exists xv yv a b c d,
        lookup2 x i j = Some xv /\ lookup2 y i j = Some yv /\
        corner_values g xv yv k = Some (a, b, c, d) /\
        let q := blend (weights g xv yv).1 (weights g xv yv).2 a b c d in
        v = Py.int q /\ v = Qfloor q /\
        (inject_Z v <= q < inject_Z (v + 1))%Q /\
        Py.round q - 1 <= v <= Py.round q.
Proof.
  intros Hv Hh Hw Hxy Hx Hy.
  destruct (bilinear_in_range g h w c x y Hv Hh Hw Hxy Hx Hy) as (out & Hout & _ & Hpx).
  exists out. split; [done|]. intros i j px k v Hl Hk.
  destruct (Hpx i j px k v Hl Hk)
    as (xv & yv & a & b & c' & d & Hxv & Hyv & Hcv & (Ha & Hb & Hc & Hd) & _ & Hwx & Hwy & ->).
  exists xv, yv, a, b, c', d. split_and!; try done. cbv zeta.
  set (q := blend _ _ a b c' d).
  destruct (blend_u8 _ _ a b c' d Hwx Hwy Ha Hb Hc Hd) as [H0 H1]. fold q in H0, H1.
  destruct (astype_uint8_floor q H0 H1) as [Hf Hi].
  pose proof (round_floor q). rewrite Hf.
  split; [by rewrite <- Hf|]. split; [done|].
  split; [|lia]. split; [apply Qfloor_le | apply Qlt_floor].
Qed.

(** C10, as the code has it.  For a valid image (channel values in
    [0, 255]) and coordinates within the image, the blend behind each
    output channel value is the binary64 evaluation of a convex
    combination of the values of the four clamped corner pixels: it is
    within a relative error of [2 ^ -50] of that combination, which
    lies between the minimum and the maximum of the four values; the
    blend itself can fall below the minimum, by less than 1, and it
    stays in [0, 256), so the cast to 8 bits does not wrap; the value
    written is at least the minimum less one, at most the maximum, and
    in [0, 255]. *)
Theorem blend_nearly_convex (g : grid pixel) (h w c : Z) (x y : grid Q) :
  valid_color h w c g -> h <= 2 ^ 31 -> w <= 2 ^ 31 ->
  length <$> x = length <$> y -> in_range w x -> in_range h y ->
  exists out, _bilinear_interpolate (Color g) x y = Some (Color out) /\
    length <$> out = length <$> x /\
    forall i j px k v, lookup2 out i j = Some px -> px !! k = Some v ->
      exists xv yv a b c d,
        lookup2 x i j = Some xv /\ lookup2 y i j = Some yv /\
        corner_values g xv yv k = Some (a, b, c, d) /\
        let q := blend (weights g xv yv).1 (weights g xv yv).2 a b c d in
        let e := exact_blend (weights g xv yv).1 (weights g xv yv).2 a b c d in
        let lo := Z.min (Z.min a b) (Z.min c d) in
        let hi := Z.max (Z.max a b) (Z.max c d) in
        convex_of e a b c d /\
        (inject_Z lo <= e <= inject_Z hi)%Q /\
        (Qabs (q - e) <= (1 # 1125899906842624) * e)%Q /\
        (inject_Z lo - 1 < q < inject_Z hi + 1)%Q /\ (0 <= q < 256)%Q /\
        v = Np.astype_uint8 q /\ Np.astype_uint8 q = Py.int q /\
        lo - 1 <= v <= hi /\ 0 <= v <= 255.
Proof.
  intros Hv Hh Hw Hxy Hx Hy.
  destruct (bilinear_in_range g h w c x y Hv Hh Hw Hxy Hx Hy) as (out & Hout & Hs & Hpx).
  exists out. split; [done|]. split; [done|]. intros i j px k v Hl Hk.
  destruct (Hpx i j px k v Hl Hk)
    as (xv & yv & a & b & c' & d & Hxv & Hyv & Hcv & (Ha & Hb & Hc & Hd) & _ & Hwx & Hwy & ->).
  exists xv, yv, a, b, c', d. split_and!; try done. cbv zeta.
  set (wx := (weights g xv yv).1) in *. set (wy := (weights g xv yv).2) in *.
  set (lo := Z.min (Z.min a b) (Z.min c' d)). set (hi := Z.max (Z.max a b) (Z.max c' d)).
  unfold u8 in *.
  assert (Hlo : 0 <= lo <= 255) by (subst lo; lia).
  assert (Hhi : 0 <= hi <= 255) by (subst hi; lia).
  destruct (blend_bounds wx wy a b c' d lo hi Hwx Hwy) as [[Hq1 Hq2] Hqe];
    try (subst lo hi; lia).
  pose proof (exact_blend_convex wx wy a b c' d lo hi Hwx Hwy) as He.
  specialize (He ltac:(subst lo hi; lia) ltac:(subst lo hi; lia)
                 ltac:(subst lo hi; lia) ltac:(subst lo hi; lia)).
  destruct (blend_u8 wx wy a b c' d Hwx Hwy Ha Hb Hc Hd) as [H0 H1].
  set (q := blend wx wy a b c' d) in *.
  destruct (astype_uint8_floor q H0 H1) as [Hf Hi].
  assert (HL : (0 <= inject_Z lo <= 255)%Q).
  { change 0%Q with (inject_Z 0). change 255%Q with (inject_Z 255).
    rewrite <- !Zle_Qle. lia. }
  assert (HH : (0 <= inject_Z hi <= 255)%Q).
  { change 0%Q with (inject_Z 0). change 255%Q with (inject_Z 255).
    rewrite <- !Zle_Qle. lia. }
  assert (Hq : (inject_Z lo - 1 < q < inject_Z hi + 1)%Q) by (split; lra).
  split; [by apply exact_blend_weights|].
  split; [done|]. split; [done|]. split; [done|]. split; [done|].
  split; [done|]. split; [done|].
  rewrite Hf. destruct Hq as [Hq3 Hq4].
  assert (lo - 1 <= Qfloor q).
  { destruct (Z.le_gt_cases lo (Qfloor q + 1)) as [|Hgt]; [lia|]. exfalso.
    pose proof (Qlt_floor q) as Hfl.
    assert (Hz : (inject_Z (Qfloor q) + 2 <= inject_Z lo)%Q).
    { change 2%Q with (inject_Z 2). rewrite <- inject_Z_plus, <- Zle_Qle. lia. }
    rewrite inject_Z_plus in Hfl. change (inject_Z 1) with 1%Q in Hfl. lra. }
  assert (Qfloor q <= hi).
  { apply Z.lt_succ_r, floor_lt. unfold Z.succ. rewrite inject_Z_plus.
    change (inject_Z 1) with 1%Q. done. }
  pose proof (floor_ge q 0 H0). lia.
Qed.

(** ** Displacement field *)

(** C5. For every valid image and depth map of the same size and every
    camera offset, the sample coordinates are [x + dx] and [y + dy]
    clamped to [[0, W - 1]] and [[0, H - 1]]; for any coordinates at all
    the four corner indices are clamped to the image, so each of the
    four pixel accesses succeeds; and the frame is generated without an
    index error. *)
Theorem accesses_in_bounds (img : grid pixel) (depth : grid Z) (h w c : Z)
    (offset_x offset_y movement_strength : Q) :
  valid_color h w c img -> valid_gray h w depth ->
  (forall i j srcX, lookup2 (new_x depth offset_x movement_strength) i j = Some srcX ->
     exists d, lookup2 depth i j = Some d /\
       srcX = Np.clip (Fl.add (inject_Z (Z.of_nat j))
                              (displacement d offset_x movement_strength))
                      0 (inject_Z (w - 1)) /\
       (0 <= srcX <= inject_Z (w - 1))%Q) /\
  (forall i j srcY, lookup2 (new_y depth offset_y movement_strength) i j = Some srcY ->
     exists d, lookup2 depth i j = Some d /\
       srcY = Np.clip (Fl.add (inject_Z (Z.of_nat i))
                              (displacement d offset_y movement_strength))
                      0 (inject_Z (h - 1)) /\
       (0 <= srcY <= inject_Z (h - 1))%Q) /\
  (forall x y x0 x1 y0 y1, corners (height img) (width img) x y = (x0, x1, y0, y1) ->
     (0 <= x0 <= w - 1 /\ 0 <= x1 <= w - 1 /\ 0 <= y0 <= h - 1 /\ 0 <= y1 <= h - 1) /\
     is_Some (Np.index2 img y0 x0) /\ is_Some (Np.index2 img y0 x1) /\
     is_Some (Np.index2 img y1 x0) /\ is_Some (Np.index2 img y1 x1)) /\
  (exists out,
     _generate_parallax_frame (Color img) (Gray depth)
       offset_x offset_y movement_strength = Some (Color out) /\
     length <$> out = length <$> img).
Proof.
  intros Hi Hd. pose proof Hi as [Hri HPi]. pose proof Hd as [Hrd _].
  pose proof Hri as (Hh & Hw & Hgi & _). pose proof Hrd as (_ & _ & Hgd & _).
  split_and!.
  - intros i j srcX Hl. rewrite new_x_lookup in Hl.
    destruct (lookup2 depth i j) as [d|]; simplify_eq/=.
    exists d. rewrite (rect_width _ _ _ Hrd). split_and!; try done; by apply clip_in_image.
  - intros i j srcY Hl. rewrite new_y_lookup in Hl.
    destruct (lookup2 depth i j) as [d|]; simplify_eq/=.
    exists d. rewrite Hgd. split_and!; try done; by apply clip_in_image.
  - intros x y x0 x1 y0 y1 Hc. rewrite Hgi, (rect_width _ _ _ Hri) in Hc.
    destruct (corners_bounds _ _ _ _ _ _ _ _ Hh Hw Hc) as (Hx0 & Hx1 & Hy0 & Hy1).
    split; [done|].
    destruct (index2_ok _ img h w y0 x0 Hri HPi) as (? & ? & _ & _ & -> & _); [lia..|].
    destruct (index2_ok _ img h w y0 x1 Hri HPi) as (? & ? & _ & _ & -> & _); [lia..|].
    destruct (index2_ok _ img h w y1 x0 Hri HPi) as (? & ? & _ & _ & -> & _); [lia..|].
    destruct (index2_ok _ img h w y1 x1 Hri HPi) as (? & ? & _ & _ & -> & _); [lia..|].
    split_and!; by eexists.
  - destruct (generate_frame_ok img depth h w c offset_x offset_y movement_strength Hi Hd)
      as (_ & out & _ & Hg & Hs & _).
    by exists out.
Qed.

Lemma progress_unit (i n : Z) :
  0 <= i <= n -> 0 < n -> (0 <= Ieee.binary64 (inject_Z i / inject_Z n) <= 1)%Q.
Proof.
  intros Hi Hn.
  assert (Hpos : (0 < inject_Z n)%Q) by (rewrite <- (Zlt_Qlt 0); lia).
  split.
  - apply (round_ge_Z 53 ltac:(lia) _ 0); [done|].
    apply Qle_shift_div_l; [done|]. rewrite Qmult_0_l, <- (Zle_Qle 0). lia.
  - apply (round_le_Z 53 ltac:(lia) _ 1); [done|].
    apply Qle_shift_div_r; [done|]. rewrite Qmult_1_l, <- Zle_Qle. lia.
Qed.

Lemma Qabs_half : (Qabs (1 # 2) == 1 # 2)%Q.
Proof. reflexivity. Qed.

(** Halving a binary64 number is exact. *)
Lemma mul_half (a b : Q) : (Fl.mul (Fl.mul a b) (1 # 2) == Fl.mul a b * (1 # 2))%Q.
Proof.
  unfold Fl.mul, Ieee.binary64. change (1 # 2)%Q with (Ieee.pow2 (-1)).
  by rewrite round_scale, (round_idem 53 ltac:(lia)).
Qed.

(** C6. The camera offset at progress [p] is
    [x = sin(p * 2 * pi) * movementRange * cameraMovement] and
    [y = cos(p * 2 * pi) * movementRange * cameraMovement * 0.5], each
    product in binary64; the last factor halves exactly, so the
    vertical offset is half of [cos(p * 2 * pi) * movementRange *
    cameraMovement].  For a renderer of two pixels or more in each
    axis every frame written is computed at such an offset, for a
    progress in [[0, 1]]; and when [total_frames] is 1 the single frame
    has progress 0, which [progress_at] gives without a division. *)
Theorem camera_path (self : ParallaxRenderer) (img : grid pixel) (depth : grid Z)
    (cm mr duration : Q) :
  valid_image (Color img) -> valid_image (Gray depth) ->
  2 <= self_width self -> 2 <= self_height self ->
  (forall p,
     let angle := Fl.mul (Fl.mul p (Fl.of_int 2)) np_pi in
     exists x y, camera_offset p mr cm = (x, y) /\
       x = Fl.mul (Fl.mul (np_sin angle) mr) cm /\
       (y == Fl.mul (Fl.mul (np_cos angle) mr) cm * (1 # 2))%Q) /\
  exists ri rd frames,
    _resize_with_aspect_ratio (Color img) (self_width self) (self_height self) false
      = Some (Color ri) /\
    _resize_with_aspect_ratio (Gray depth) (self_width self) (self_height self) true
      = Some (Gray rd) /\
    create_parallax_animation self (Some (Color img)) (Some (Gray depth)) cm mr duration
      = Some frames /\
    (forall i r, frames !! i = Some r ->
       let angle := Fl.mul (Fl.mul (progress r) (Fl.of_int 2)) np_pi in
       (0 <= progress r <= 1)%Q /\
       camera_x r = Fl.mul (Fl.mul (np_sin angle) mr) cm /\
       camera_y r = Fl.mul (Fl.mul (Fl.mul (np_cos angle) mr) cm) (1 # 2) /\
       (camera_y r == Fl.mul (Fl.mul (np_cos angle) mr) cm * (1 # 2))%Q /\
       _generate_parallax_frame (Color ri) (Gray rd) (camera_x r) (camera_y r) cm
         = Some (frame r)) /\
    (total_frames_of self duration = 1 ->
       progress_at 0 1 = Some 0%Q /\
       exists r, frames = [r] /\ progress r = 0%Q /\
                 camera_x r = Fl.mul (Fl.mul (np_sin 0) mr) cm /\
                 camera_y r = Fl.mul (Fl.mul (Fl.mul (np_cos 0) mr) cm) (1 # 2)).
Proof.
  intros Hi Hd Hw Hh. split.
  { intros p angle. eexists _, _. split; [done|]. split; [done|]. apply mul_half. }
  destruct (animation_frames_ok self img depth cm mr duration Hi Hd Hw Hh)
    as (ri & rd & frames & Eri & Erd & _ & _ & _ & Hrun & Hlen & Hframes).
  exists ri, rd, frames. split; [done|]. split; [done|]. split; [done|]. split.
  - intros i r Hr. destruct (Hframes i r Hr) as (_ & Hlt & _ & _ & Hp & Hc & Hg & _).
    unfold camera_offset in Hc. injection Hc as Hcx Hcy. cbv zeta.
    split_and!; try done.
    + rewrite Hp. destruct (_ >? 1) eqn:E; [|done]. apply progress_unit; lia.
    + rewrite Hp. destruct (_ >? 1) eqn:E; [|done]. apply progress_unit; lia.
    + rewrite Hcy. apply mul_half.
  - intros HT. split; [done|]. rewrite HT in *. change (Z.to_nat 1) with 1%nat in Hlen.
    destruct frames as [|r [|? ?]]; simplify_eq/=.
    exists r. destruct (Hframes 0%nat r eq_refl) as (_ & _ & _ & _ & Hp & Hc & _).
    simpl in Hp. unfold camera_offset in Hc. rewrite Hp in Hc. injection Hc as Hcx Hcy.
    done.
Qed.

(** The centred depth is monotone in the depth and stays in
    [[-1/2, 1/2]]. *)
Lemma centred_depth_mono (d d' : Z) : d <= d' -> (centred_depth d <= centred_depth d')%Q.
Proof.
  intros Hd. unfold centred_depth, Ieee.binary32.
  apply (round_le 24 ltac:(lia)).
  assert (Ieee.round 24 (inject_Z d / 255) <= Ieee.round 24 (inject_Z d' / 255))%Q; [|lra].
  apply (round_le 24 ltac:(lia)). unfold Qdiv. apply Qmult_le_compat_r; [|done].
  by rewrite <- Zle_Qle.
Qed.

Lemma centred_depth_0 : (centred_depth 0 == - (1 # 2))%Q.
Proof. reflexivity. Qed.

Lemma centred_depth_255 : (centred_depth 255 == 1 # 2)%Q.
Proof. reflexivity. Qed.

Lemma centred_depth_128 : (centred_depth 128 == 32897 # 16777216)%Q.
Proof. reflexivity. Qed.

Lemma centred_depth_abs (d : Z) : u8 d -> (Qabs (centred_depth d) <= 1 # 2)%Q.
Proof.
  intros [H0 H1]. apply Qabs_Qle_condition. split.
  - rewrite <- centred_depth_0. by apply centred_depth_mono.
  - rewrite <- centred_depth_255. by apply centred_depth_mono.
Qed.

Lemma array_prec_pos : 1 <= array_prec.
Proof. lia. Qed.

(** One rounding of the array arithmetic, on absolute values. *)
Lemma array_round_abs (q b : Q) :
  (Qabs q <= b)%Q ->
  (Qabs (Ieee.round array_prec q) <= (1 + (1 # 16777216)) * b)%Q.
Proof.
  intros Hq. pose proof (round_abs_le array_prec array_prec_pos q b Hq) as H.
  assert (Hb : (0 <= b)%Q) by (eapply Qle_trans; [apply Qabs_nonneg|exact Hq]).
  assert (He : (Ieee.pow2 (- array_prec) <= 1 # 16777216)%Q).
  { change (1 # 16777216)%Q with (Ieee.pow2 (- 24)). apply pow2_le. lia. }
  eapply Qle_trans; [exact H|]. apply Qmult_le_compat_r; [lra|done].
Qed.

Lemma Qabs_mult_le (a b x y : Q) :
  (Qabs a <= x)%Q -> (Qabs b <= y)%Q -> (Qabs (a * b) <= x * y)%Q.
Proof.
  intros Ha Hb. rewrite Qabs_Qmult.
  apply Qmult_le_compat_nonneg; split; try done; apply Qabs_nonneg.
Qed.

(** The displacement of a pixel whose centred depth is at most [c] in
    absolute value: at most [c * |offset * movement_strength * 100|]
    and five roundings. *)
Lemma displacement_le (d : Z) (offset ms c : Q) :
  (Qabs (centred_depth d) <= c)%Q ->
  (Qabs (displacement d offset ms)
   <= (1 + (1 # 4000000)) * (c * Qabs (offset * (ms * 100))))%Q.
Proof.
  intros Hc. unfold displacement. cbv zeta.
  assert (Hc0 : (0 <= c)%Q) by (eapply Qle_trans; [apply Qabs_nonneg|exact Hc]).
  set (e := (1 + (1 # 16777216))%Q).
  assert (Ho : (Qabs (Ieee.round array_prec offset) <= e * Qabs offset)%Q)
    by (apply array_round_abs, Qle_refl).
  assert (Hs : (Qabs (Fl.mul ms (Fl.of_int 100))
                <= (1 + (1 # 9007199254740992)) * Qabs (ms * 100))%Q).
  { unfold Fl.mul. rewrite (of_int_exact 100) by done. change (inject_Z 100) with 100%Q.
    pose proof (round_abs_upper 53 ltac:(lia) (ms * 100)) as H.
    fold (Ieee.eps 53) in H. rewrite eps_53 in H. exact H. }
  assert (Hs' : (Qabs (Ieee.round array_prec (Fl.mul ms (Fl.of_int 100)))
                 <= e * ((1 + (1 # 9007199254740992)) * Qabs (ms * 100)))%Q)
    by (by apply array_round_abs).
  pose proof (Qabs_mult_le _ _ _ _ Hc Ho) as H1.
  apply array_round_abs in H1.
  pose proof (Qabs_mult_le _ _ _ _ H1 Hs') as H2.
  apply array_round_abs in H2.
  eapply Qle_trans; [exact H2|]. fold e.
  rewrite (Qabs_Qmult offset).
  pose proof (Qabs_nonneg offset) as Ha. pose proof (Qabs_nonneg (ms * 100)) as Hb.
  set (A := Qabs offset) in *. set (B := Qabs (ms * 100)) in *.
  assert (HAB : (0 <= c * (A * B))%Q) by (repeat apply Qmult_le_0_compat; done).
  assert (E : (e * (e * (c * (e * A)) * (e * ((1 + (1 # 9007199254740992)) * B)))
               == e * e * e * e * (1 + (1 # 9007199254740992)) * (c * (A * B)))%Q) by ring.
  rewrite E. apply Qmult_le_compat_r; [|done]. by vm_compute.
Qed.

(** The size of a camera offset [sin * movement_range * camera_movement]
    computed in binary64, times the camera movement. *)
Lemma offset_abs_le (s mr cm : Q) :
  (Qabs s <= 1)%Q ->
  (Qabs (Fl.mul (Fl.mul s mr) cm * cm)
   <= (1 + (1 # 4000000)) * (Qabs mr * (cm * cm)))%Q.
Proof.
  intros Hs. unfold Fl.mul.
  assert (H1 : (Qabs (s * mr) <= Qabs mr)%Q).
  { rewrite Qabs_Qmult. pose proof (Qabs_nonneg mr). pose proof (Qabs_nonneg s).
    assert (0 <= (1 - Qabs s) * Qabs mr)%Q by (apply Qmult_le_0_compat; lra). lra. }
  apply (round_abs_le 53 ltac:(lia)) in H1. fold (Ieee.eps 53) in H1. rewrite eps_53 in H1.
  fold Ieee.binary64 in H1.
  pose proof (Qabs_mult_le _ _ _ _ H1 (Qle_refl (Qabs cm))) as H2.
  apply (round_abs_le 53 ltac:(lia)) in H2. fold (Ieee.eps 53) in H2. rewrite eps_53 in H2.
  fold Ieee.binary64 in H2.
  pose proof (Qabs_mult_le _ _ _ _ H2 (Qle_refl (Qabs cm))) as H3.
  eapply Qle_trans; [exact H3|].
  assert (Hcc : (Qabs cm * Qabs cm == cm * cm)%Q).
  { rewrite <- Qabs_Qmult. apply Qabs_pos. nra. }
  assert (E : ((1 + (1 # 9007199254740992))
               * ((1 + (1 # 9007199254740992)) * Qabs mr * Qabs cm) * Qabs cm
               == (1 + (1 # 9007199254740992)) * (1 + (1 # 9007199254740992))
                  * (Qabs mr * (Qabs cm * Qabs cm)))%Q) by ring.
  rewrite E, Hcc. apply Qmult_le_compat_r; [by vm_compute|].
  apply Qmult_le_0_compat; [apply Qabs_nonneg|nra].
Qed.

(** C7. On a depth map that is 128 everywhere the displacement is
    small at every pixel, whatever the camera offset: the centred depth
    is the float32 number 32897 / 16777216 (0.00196081...), so [dx] and
    [dy] are at most 1/509 of [offset * displacementScale], with
    [displacementScale = cameraMovement * 100], where the nearest and
    the farthest pixels move by half of it; they are within [eps] of
    zero whenever [|offset * displacementScale| <= 509 * eps], and zero
    when the offset or the camera movement is zero.  At the offsets of
    the camera path, a sine or cosine times [movementRange *
    cameraMovement], they are at most a fifth and a tenth of
    [|movementRange| * cameraMovement ^ 2] pixels (0.00034 and 0.00017
    at the default parameters). *)
Theorem mid_depth_small (depth : grid Z) (offset_x offset_y movement_strength : Q) :
  Forall (Forall (fun d => d = 128)) depth ->
  forall i j dx dy,
    lookup2 (disp_field depth offset_x movement_strength) i j = Some dx ->
    lookup2 (disp_field depth offset_y movement_strength) i j = Some dy ->
    (centred_depth 128 == 32897 # 16777216 /\
     Qabs dx <= (1 # 509) * Qabs (offset_x * (movement_strength * 100)) /\
     Qabs dy <= (1 # 509) * Qabs (offset_y * (movement_strength * 100)) /\
     (forall eps, Qabs (offset_x * (movement_strength * 100)) <= 509 * eps ->
                  Qabs dx <= eps) /\
     (forall eps, Qabs (offset_y * (movement_strength * 100)) <= 509 * eps ->
                  Qabs dy <= eps) /\
     (offset_x * movement_strength == 0 -> dx == 0) /\
     (offset_y * movement_strength == 0 -> dy == 0) /\
     (forall s movement_range, Qabs s <= 1 ->
        offset_x == Fl.mul (Fl.mul s movement_range) movement_strength ->
        Qabs dx <= (1 # 5) * (Qabs movement_range
                              * (movement_strength * movement_strength))) /\
     (forall s movement_range, Qabs s <= 1 ->
        offset_y == Fl.mul (Fl.mul (Fl.mul s movement_range) movement_strength) (1 # 2) ->
        Qabs dy <= (1 # 10) * (Qabs movement_range
                               * (movement_strength * movement_strength))))%Q.
Proof.
  intros Hmid i j dx dy Hx Hy. rewrite disp_field_lookup in Hx, Hy.
  destruct (lookup2 depth i j) as [d|] eqn:Hd; [|done].
  simpl in Hx, Hy. injection Hx as <-. injection Hy as <-.
  pose proof (lookup2_Forall _ _ _ _ _ Hmid Hd) as ->.
  assert (Hc : (Qabs (centred_depth 128) <= 32897 # 16777216)%Q) by (by vm_compute).
  assert (Hbound : forall offset,
            (Qabs (displacement 128 offset movement_strength)
             <= (1 # 509) * Qabs (offset * (movement_strength * 100)))%Q).
  { intros offset. eapply Qle_trans; [exact (displacement_le 128 offset _ _ Hc)|].
    rewrite Qmult_assoc. apply Qmult_le_compat_r; [by vm_compute|apply Qabs_nonneg]. }
  assert (Hzero : forall offset,
            (offset * movement_strength == 0 ->
             displacement 128 offset movement_strength == 0)%Q).
  { intros offset Hz. pose proof (Hbound offset) as Hb.
    assert (E : (offset * (movement_strength * 100) == 0)%Q).
    { assert (E' : (offset * (movement_strength * 100)
                    == offset * movement_strength * 100)%Q) by ring.
      rewrite E', Hz. ring. }
    rewrite E in Hb. change (Qabs 0) with 0%Q in Hb.
    pose proof (Qabs_nonneg (displacement 128 offset movement_strength)) as Hn.
    apply Qabs_Qle_condition in Hb. lra. }
  assert (Hscale : forall offset,
            (Qabs (offset * (movement_strength * 100))
             == 100 * Qabs (offset * movement_strength))%Q).
  { intros offset.
    assert (E : (offset * (movement_strength * 100)
                 == (offset * movement_strength) * 100)%Q) by ring.
    rewrite E, Qabs_Qmult. change (Qabs 100) with 100%Q. ring. }
  split_and!.
  - reflexivity.
  - apply Hbound.
  - apply Hbound.
  - intros eps He. eapply Qle_trans; [apply Hbound|]. lra.
  - intros eps He. eapply Qle_trans; [apply Hbound|]. lra.
  - apply Hzero.
  - apply Hzero.
  - intros s mr Hs Ho. eapply Qle_trans; [apply Hbound|]. rewrite Hscale, Ho.
    pose proof (offset_abs_le s mr movement_strength Hs) as Hb.
    pose proof (Qabs_nonneg mr) as Hmr.
    assert (0 <= Qabs mr * (movement_strength * movement_strength))%Q
      by (apply Qmult_le_0_compat; [done|nra]).
    lra.
  - intros s mr Hs Ho. eapply Qle_trans; [apply Hbound|]. rewrite Hscale, Ho.
    pose proof (offset_abs_le s mr movement_strength Hs) as Hb.
    pose proof (Qabs_nonneg mr) as Hmr.
    assert (0 <= Qabs mr * (movement_strength * movement_strength))%Q
      by (apply Qmult_le_0_compat; [done|nra]).
    rewrite mul_half.
    assert (E : (Fl.mul (Fl.mul s mr) movement_strength * (1 # 2) * movement_strength
                 == (Fl.mul (Fl.mul s mr) movement_strength * movement_strength)
                    * (1 # 2))%Q) by ring.
    rewrite E, Qabs_Qmult, Qabs_half. lra.
Qed.

(** ** Disocclusion filler *)

(** C8. In the frame that [_generate_parallax_frame] returns, a pixel
    whose channels are all 0 is a pixel at which the Gaussian-blurred
    copy of the image is itself all 0. *)
Theorem holes_filled (img : grid pixel) (depth : grid Z) (h w c : Z)
    (offset_x offset_y movement_strength : Q) :
  valid_color h w c img -> valid_gray h w depth ->
  exists out,
    _generate_parallax_frame (Color img) (Gray depth)
      offset_x offset_y movement_strength = Some (Color out) /\
    forall i j px, lookup2 out i j = Some px -> is_hole px = true ->
      lookup2 (cv2_GaussianBlur img (51, 51) 20) i j = Some px.
Proof.
  intros Hi Hd.
  destruct (generate_frame_ok img depth h w c offset_x offset_y movement_strength Hi Hd)
    as (sampled & out & _ & Hg & _ & Hpx).
  exists out. split; [done|]. intros i j px Hl Hhole.
  destruct (Hpx i j px Hl) as (s & _ & [[Hs ->]|[_ Hb]]); [congruence|done].
Qed.

(** ** Identity on the grid *)

Lemma map4_first {A} (P : A -> Prop) (f : A -> A -> A -> A -> A) (l1 l2 l3 l4 : list A) :
  length l2 = length l1 -> length l3 = length l1 -> length l4 = length l1 ->
  Forall P l1 -> (forall a b c d, P a -> f a b c d = a) ->
  map4 f l1 l2 l3 l4 = l1.
Proof.
  intros H2 H3 H4 HP Hf. revert l2 l3 l4 H2 H3 H4.
  induction HP as [|a l1 Ha _ IH]; intros [|b l2] [|c l3] [|d l4] ? ? ?;
    simplify_eq/=; [done|]. f_equal; auto.
Qed.

Lemma sub_self (x : Q) (z : Z) : (x == inject_Z z)%Q -> Fl.sub x (inject_Z z) = 0%Q.
Proof. intros E. unfold Fl.sub. apply round_of_0. rewrite E. ring. Qed.

(** With both weights zero the binary64 blend is the first corner. *)
Lemma blend_0_0 (a b c d : Z) : u8 a -> (blend 0 0 a b c d == inject_Z a)%Q.
Proof.
  intros Ha. unfold blend. cbv zeta.
  assert (H1 : (Fl.sub 1 0 == 1)%Q) by reflexivity.
  assert (Hz : forall x, Fl.mul (Fl.mul x 0) (Fl.sub 1 0) = 0%Q).
  { intros x. unfold Fl.mul, Ieee.binary64. rewrite (round_of_0 53 (x * 0)) by ring.
    apply round_of_0. ring. }
  assert (Hz1 : forall x, Fl.mul (Fl.mul x (Fl.sub 1 0)) 0 = 0%Q).
  { intros x. unfold Fl.mul at 1. apply round_of_0. ring. }
  assert (Hz2 : forall x, Fl.mul (Fl.mul x 0) 0 = 0%Q).
  { intros x. unfold Fl.mul at 1. apply round_of_0. ring. }
  rewrite Hz, Hz1, Hz2.
  assert (Ha' : (Fl.mul (Fl.mul (inject_Z a) (Fl.sub 1 0)) (Fl.sub 1 0) == inject_Z a)%Q).
  { unfold u8 in Ha.
    assert (E : (Fl.mul (inject_Z a) (Fl.sub 1 0) == inject_Z a)%Q).
    { unfold Fl.mul. rewrite H1, Qmult_1_r. apply binary64_Z. lia. }
    rewrite E. exact E. }
  rewrite Ha'. unfold u8 in Ha.
  assert (Hadd : (Fl.add (inject_Z a) 0 == inject_Z a)%Q).
  { unfold Fl.add. rewrite Qplus_0_r. apply binary64_Z. lia. }
  rewrite !Hadd. reflexivity.
Qed.

Lemma blend_on_grid (a b c d : Z) : u8 a -> Np.astype_uint8 (blend 0 0 a b c d) = a.
Proof.
  intros Ha. rewrite (blend_0_0 a b c d Ha). unfold Np.astype_uint8.
  rewrite (int_inject _ a) by reflexivity.
  apply Z.mod_small. unfold u8 in Ha. lia.
Qed.

(** At coordinates equal to a grid position the sample is the pixel
    there, whatever fraction represents the coordinates. *)
Lemma sample_near_grid (g : grid pixel) (h w c : Z) (x y : Q) (xi yi : Z) :
  valid_color h w c g -> h <= 2 ^ 31 -> w <= 2 ^ 31 ->
  0 <= xi <= w - 1 -> 0 <= yi <= h - 1 ->
  (x == inject_Z xi)%Q -> (y == inject_Z yi)%Q ->
  exists px, sample g x y = Some px /\
             Np.index2 g yi xi = Some px /\
             lookup2 g (Z.to_nat yi) (Z.to_nat xi) = Some px.
Proof.
  intros Hv Hh Hw Hx Hy Ex Ey. pose proof Hv as [Hr HP]. pose proof Hr as (Hh1 & Hw1 & _).
  destruct (sample_ok g h w c x y Hv)
    as (x0 & x1 & y0 & y1 & p00 & p01 & p10 & p11 & Hc & H00 & _ & _ & _ & Hpx & Hs).
  destruct (corners_in_range h w x y) as (x1' & y1' & Hc'); try lia.
  { rewrite Ex, <- (Zle_Qle 0), <- Zle_Qle. lia. }
  { rewrite Ey, <- (Zle_Qle 0), <- Zle_Qle. lia. }
  rewrite (Qfloor_comp _ _ Ex), (Qfloor_comp _ _ Ey), !Qfloor_Z, Hc in Hc'. simplify_eq.
  apply Forall_cons in Hpx as [[L0 U0] Hpx]. apply Forall_cons in Hpx as [[L1 _] Hpx].
  apply Forall_cons in Hpx as [[L2 _] Hpx]. apply Forall_cons in Hpx as [[L3 _] _].
  exists p00. split_and!; try done.
  - rewrite Hs, (sub_self x xi Ex), (sub_self y yi Ey). f_equal.
    apply (map4_first u8); try done; try lia.
    intros a b c' d Ha. by apply blend_on_grid.
  - destruct (index2_ok _ g h w yi xi Hr HP) as (row & px & Hrow & Hcol & Hi & _); [lia..|].
    unfold lookup2. rewrite Hrow. simpl. congruence.
Qed.

(** At a grid position the sample is the pixel there. *)
Lemma sample_on_grid (g : grid pixel) (h w c : Z) (xi yi : Z) :
  valid_color h w c g -> h <= 2 ^ 31 -> w <= 2 ^ 31 ->
  0 <= xi <= w - 1 -> 0 <= yi <= h - 1 ->
  exists px, sample g (inject_Z xi) (inject_Z yi) = Some px /\
             Np.index2 g yi xi = Some px /\
             lookup2 g (Z.to_nat yi) (Z.to_nat xi) = Some px.
Proof.
  intros Hv Hh Hw Hx Hy.
  by apply (sample_near_grid g h w c _ _ xi yi Hv Hh Hw Hx Hy).
Qed.

Lemma to_float_shape (a : grid Z) : length <$> to_float a = length <$> a.
Proof.
  unfold to_float. rewrite <- list_fmap_compose. apply list_fmap_ext.
  intros _ row _. simpl. by rewrite length_fmap.
Qed.

Lemma to_float_lookup (a : grid Z) (i j : nat) :
  lookup2 (to_float a) i j = inject_Z <$> lookup2 a i j.
Proof.
  unfold lookup2, to_float. rewrite list_lookup_fmap.
  destruct (a !! i) as [row|]; simpl; [|done]. by rewrite list_lookup_fmap.
Qed.

Lemma grid_eq {A} (a b : grid A) :
  length <$> a = length <$> b ->
  (forall i j v, lookup2 a i j = Some v -> lookup2 b i j = Some v) ->
  a = b.
Proof.
  intros Hs Hl. apply list_eq_same_length with (length a); try done.
  { apply (f_equal length) in Hs. by rewrite !length_fmap in Hs. }
  intros i ra rb _ Ha Hb.
  assert (Hlen : length ra = length rb).
  { apply (f_equal (fun l => l !! i)) in Hs.
    rewrite !list_lookup_fmap, Ha, Hb in Hs. by simplify_eq/=. }
  apply list_eq_same_length with (length ra); try done.
  intros j va vb _ Hva Hvb.
  specialize (Hl i j va). unfold lookup2 in Hl. rewrite Ha, Hb in Hl. simpl in Hl.
  specialize (Hl Hva). congruence.
Qed.

(** C9. Sampling a valid image at coordinate arrays of integer grid
    positions within the image returns at each place exactly the pixel
    of the image at that position; at the coordinate grid of the image
    itself the resampler returns the image. *)
Theorem identity_on_grid (g : grid pixel) (h w c : Z) (xs ys : grid Z) :
  valid_color h w c g -> h <= 2 ^ 31 -> w <= 2 ^ 31 ->
  length <$> xs = length <$> ys ->
  Forall (Forall (fun xi => 0 <= xi <= w - 1)) xs ->
  Forall (Forall (fun yi => 0 <= yi <= h - 1)) ys ->
  (exists out,
     _bilinear_interpolate (Color g) (to_float xs) (to_float ys) = Some (Color out) /\
     length <$> out = length <$> xs /\
     forall i j px, lookup2 out i j = Some px ->
       exists xi yi, lookup2 xs i j = Some xi /\ lookup2 ys i j = Some yi /\
                     Np.index2 g yi xi = Some px) /\
  _bilinear_interpolate (Color g) (x_coords g) (y_coords g) = Some (Color g).
Proof.
  intros Hv Hh Hw Hxy Hx Hy. split.
  - destruct (bilinear_ok g h w c (to_float xs) (to_float ys) Hv)
      as (out & Hout & Hs & _ & Hpx).
    { by rewrite !to_float_shape. }
    exists out. split; [done|]. split; [by rewrite Hs, to_float_shape|].
    intros i j px Hl. destruct (Hpx i j px Hl) as (xv & yv & Hxv & Hyv & Hsm).
    rewrite to_float_lookup in Hxv, Hyv.
    destruct (lookup2 xs i j) as [xi|] eqn:Hxi; simplify_eq/=.
    destruct (lookup2 ys i j) as [yi|] eqn:Hyi; simplify_eq/=.
    exists xi, yi. split_and!; try done.
    pose proof (lookup2_Forall _ _ _ _ _ Hx Hxi) as Hxr.
    pose proof (lookup2_Forall _ _ _ _ _ Hy Hyi) as Hyr. simpl in Hxr, Hyr.
    destruct (sample_on_grid g h w c xi yi Hv Hh Hw Hxr Hyr) as (px' & Hs' & Hi' & _).
    congruence.
  - destruct (bilinear_ok g h w c (x_coords g) (y_coords g) Hv)
      as (out & Hout & Hs & _ & Hpx).
    { unfold x_coords, y_coords. by rewrite !imap2_shape. }
    rewrite Hout. do 2 f_equal. apply grid_eq.
    { rewrite Hs. unfold x_coords. by rewrite imap2_shape. }
    intros i j px Hl. destruct (Hpx i j px Hl) as (xv & yv & Hxv & Hyv & Hsm).
    unfold x_coords in Hxv. unfold y_coords in Hyv.
    rewrite (imap2_lookup (fun _ j _ => inject_Z (Z.of_nat j))) in Hxv.
    rewrite (imap2_lookup (fun i _ _ => inject_Z (Z.of_nat i))) in Hyv.
    destruct (lookup2 g i j) as [p|] eqn:Hp; simplify_eq/=.
    assert (Hij : 0 <= Z.of_nat j <= w - 1 /\ 0 <= Z.of_nat i <= h - 1).
    { unfold lookup2 in Hp. destruct (g !! i) as [row|] eqn:Hi; simplify_eq/=.
      destruct Hv as [(_ & _ & Hg & Hrows) _]. unfold height in Hg.
      pose proof (Forall_lookup_1 _ _ _ _ Hrows Hi) as Hlen. simpl in Hlen.
      apply lookup_lt_Some in Hi, Hp. lia. }
    destruct Hij as [Hjr Hir].
    destruct (sample_on_grid g h w c (Z.of_nat j) (Z.of_nat i) Hv Hh Hw Hjr Hir)
      as (px' & Hs' & _ & Hl').
    rewrite !Nat2Z.id in Hl'. congruence.
Qed.

(** ** Further properties of the frame loop *)

Lemma rect_of_shape {A B} (h w : Z) (g : grid A) (out : grid B) :
  rect h w g -> length <$> out = length <$> g -> rect h w out.
Proof.
  intros Hr Hs. pose proof Hr as (Hh & Hw & Hg & _).
  rewrite (rect_shape _ _ _ Hr) in Hs. unfold rect, height in *. split_and!; try done.
  - apply (f_equal length) in Hs. rewrite length_fmap, length_replicate in Hs. lia.
  - apply Forall_lookup. intros i row Hrow.
    apply (f_equal (fun l => l !! i)) in Hs. rewrite list_lookup_fmap, Hrow in Hs.
    simpl in Hs. symmetry in Hs. apply lookup_replicate in Hs as [Hs _]. lia.
Qed.

(** X1. For a renderer of two pixels or more in each axis and valid
    inputs, every frame written is a colour array of exactly the
    renderer's height and width, whatever the sizes of the source image
    and depth map. *)
Theorem frames_have_renderer_size (self : ParallaxRenderer) (img : grid pixel)
    (depth : grid Z) (cm mr duration : Q) :
  valid_image (Color img) -> valid_image (Gray depth) ->
  2 <= self_width self -> 2 <= self_height self ->
  exists frames,
    create_parallax_animation self (Some (Color img)) (Some (Gray depth)) cm mr duration
      = Some frames /\
    forall i r, frames !! i = Some r ->
      exists out, frame r = Color out /\
        rect (self_height self) (self_width self) out /\
        shape0 (frame r) = self_height self /\ shape1 (frame r) = self_width self.
Proof.
  intros Hi Hd Hw Hh.
  destruct (animation_frames_ok self img depth cm mr duration Hi Hd Hw Hh)
    as (ri & rd & frames & _ & _ & Hri & Hrd & _ & Hrun & _ & Hframes).
  exists frames. split; [done|]. intros i r Hr.
  destruct (Hframes i r Hr) as (_ & _ & _ & _ & _ & _ & Hg & _).
  destruct (generate_frame_ok ri rd _ _ _ (camera_x r) (camera_y r) cm Hri Hrd)
    as (_ & out & _ & Hg' & Hs & _).
  rewrite Hg in Hg'. simplify_eq. exists out. rewrite Hg'.
  destruct Hri as [Hrect _].
  pose proof (rect_of_shape _ _ _ _ Hrect Hs) as Hout.
  split_and!; try done.
  - apply Hout.
  - by eapply rect_width.
Qed.



(** ** Size of the parallax shift *)

(** A pixel nearer to mid-grey is displaced by no more than one
    farther from it. *)
Lemma displacement_abs_mono (d d' : Z) (offset ms : Q) :
  (Qabs (centred_depth d) <= Qabs (centred_depth d'))%Q ->
  (Qabs (displacement d offset ms) <= Qabs (displacement d' offset ms))%Q.
Proof.
  intros Hc. unfold displacement. cbv zeta.
  set (o := Ieee.round array_prec offset).
  set (s := Ieee.round array_prec (Fl.mul ms (Fl.of_int 100))).
  rewrite !(round_abs array_prec array_prec_pos).
  apply (round_le array_prec array_prec_pos).
  rewrite !Qabs_Qmult. apply Qmult_le_compat_r; [|apply Qabs_nonneg].
  rewrite !(round_abs array_prec array_prec_pos).
  apply (round_le array_prec array_prec_pos).
  rewrite !Qabs_Qmult. apply Qmult_le_compat_r; [done|apply Qabs_nonneg].
Qed.

Lemma displacement_opp (d d' : Z) (offset ms : Q) :
  (centred_depth d == - centred_depth d')%Q ->
  (displacement d offset ms == - displacement d' offset ms)%Q.
Proof.
  intros Hc. unfold displacement. cbv zeta. rewrite Hc.
  set (o := Ieee.round array_prec offset).
  set (s := Ieee.round array_prec (Fl.mul ms (Fl.of_int 100))).
  assert (E1 : (- centred_depth d' * o == - (centred_depth d' * o))%Q) by ring.
  rewrite E1, round_opp.
  assert (E2 : (- Ieee.round array_prec (centred_depth d' * o) * s
                == - (Ieee.round array_prec (centred_depth d' * o) * s))%Q) by ring.
  by rewrite E2, round_opp.
Qed.

(** X3. The displacement grows with the distance of the depth from
    mid-grey and changes sign there: the centred depth is monotone in
    the depth, exactly -1/2 at depth 0 and 1/2 at depth 255, so the
    farthest pixels move exactly as much as the nearest, in the opposite
    direction; no pixel moves more than they do, and they move at most
    [50.001 * |offset * movement_strength|].  Depths [d] and [255 - d]
    in between are opposite only up to the rounding of float32: the
    centred depths of 64 and 191 differ by [2 ^ -25] in size. *)
Theorem depth_moves_both_ways (d : Z) (offset movement_strength : Q) :
  u8 d ->
  (displacement 0 offset movement_strength
     == - displacement 255 offset movement_strength /\
   Qabs (displacement d offset movement_strength)
     <= Qabs (displacement 255 offset movement_strength) /\
   Qabs (displacement 255 offset movement_strength)
     <= (50 + (1 # 1000)) * Qabs (offset * movement_strength) /\
   (forall d' : Z, (d <= d')%Z -> centred_depth d <= centred_depth d') /\
   centred_depth 0 == - (1 # 2) /\ centred_depth 255 == 1 # 2 /\
   centred_depth 64 + centred_depth 191 == 1 # 33554432)%Q.
Proof.
  intros Hd. split_and!.
  - apply displacement_opp. reflexivity.
  - apply displacement_abs_mono. rewrite centred_depth_255, Qabs_half.
    by apply centred_depth_abs.
  - eapply Qle_trans.
    { apply (displacement_le 255 offset movement_strength (1 # 2)).
      rewrite centred_depth_255. apply Qle_refl. }
    assert (E : (offset * (movement_strength * 100)
                 == (offset * movement_strength) * 100)%Q) by ring.
    rewrite E, Qabs_Qmult. change (Qabs 100) with 100%Q.
    pose proof (Qabs_nonneg (offset * movement_strength)). lra.
  - intros d'. apply centred_depth_mono.
  - reflexivity.
  - reflexivity.
  - reflexivity.
Qed.

Lemma clip_near (j z hi : Q) :
  (0 <= j <= hi)%Q -> (Qabs (Np.clip z 0 hi - j) <= Qabs (z - j))%Q.
Proof.
  intros [H0 H1]. unfold Np.clip.
  destruct (Q.max_spec z 0) as [[Ha Ea]|[Ha Ea]];
  destruct (Q.min_spec (Qmax z 0) hi) as [[Hb Eb]|[Hb Eb]];
  rewrite Eb; try rewrite Ea; try rewrite Ea in Hb;
  repeat (apply Qabs_case; intros); lra.
Qed.

Lemma lookup2_rect {A} (h w : Z) (g : grid A) (i j : nat) (v : A) :
  rect h w g -> lookup2 g i j = Some v -> Z.of_nat i < h /\ Z.of_nat j < w.
Proof.
  intros (_ & _ & Hh & Hrows) Hl. unfold lookup2 in Hl.
  destruct (g !! i) as [row|] eqn:Hi; simplify_eq/=.
  apply lookup_lt_Some in Hi as Hi'. apply lookup_lt_Some in Hl.
  pose proof (Forall_lookup_1 _ _ _ _ Hrows Hi) as Hrow. simpl in Hrow.
  unfold height. lia.
Qed.

(** Every pixel of a frame, by the place it was sampled at. *)
Lemma frame_pixels (img : grid pixel) (depth : grid Z) (h w c : Z)
    (offset_x offset_y ms : Q) :
  valid_color h w c img -> valid_gray h w depth ->
  exists out,
    _generate_parallax_frame (Color img) (Gray depth) offset_x offset_y ms
      = Some (Color out) /\
    length <$> out = length <$> img /\
    forall i j px, lookup2 out i j = Some px ->
      exists d s,
        lookup2 depth i j = Some d /\ u8 d /\ Z.of_nat i < h /\ Z.of_nat j < w /\
        sample img
          (Np.clip (Fl.add (inject_Z (Z.of_nat j)) (displacement d offset_x ms))
                   0 (inject_Z (w - 1)))
          (Np.clip (Fl.add (inject_Z (Z.of_nat i)) (displacement d offset_y ms))
                   0 (inject_Z (h - 1)))
          = Some s /\
        ((is_hole s = false /\ px = s) \/
         (is_hole s = true /\
          lookup2 (cv2_GaussianBlur img (51, 51) 20) i j = Some px)).
Proof.
  intros Hi Hd.
  destruct (generate_frame_ok img depth h w c offset_x offset_y ms Hi Hd)
    as (sampled & out & Hs & Hg & Hshape & Hpx).
  exists out. split; [done|]. split; [done|]. intros i j px Hl.
  destruct (Hpx i j px Hl) as (s & Hsl & Hcase).
  destruct (bilinear_ok img h w c (new_x depth offset_x ms) (new_y depth offset_y ms) Hi)
    as (sampled' & Hs' & _ & _ & Hsm).
  { by rewrite new_x_shape, new_y_shape. }
  rewrite Hs in Hs'. simplify_eq.
  destruct (Hsm i j s Hsl) as (xv & yv & Hx & Hy & Hsample).
  rewrite new_x_lookup in Hx. rewrite new_y_lookup in Hy.
  destruct (lookup2 depth i j) as [d|] eqn:Hdl; simplify_eq/=.
  destruct Hd as [Hrect Hu8]. pose proof Hrect as (_ & _ & Hh & _).
  destruct (lookup2_rect _ _ _ _ _ _ Hrect Hdl).
  exists d, s. rewrite <- (rect_width _ _ _ Hrect), <- Hh.
  split_and!; try done; try lia.
  - by apply (lookup2_Forall u8 depth i j).
  - by rewrite (rect_width _ _ _ Hrect).
Qed.

(** The binary64 sum of a grid index and a displacement, clamped to
    the image, is within the displacement and one rounding of the
    index. *)
Lemma clip_add_near (j : nat) (d : Q) (n : Z) (b : Q) :
  Z.of_nat j <= n - 1 -> n <= 2 ^ 31 -> (Qabs d <= b)%Q ->
  (Qabs (Np.clip (Fl.add (inject_Z (Z.of_nat j)) d) 0 (inject_Z (n - 1))
         - inject_Z (Z.of_nat j))
   <= (1 + (1 # 4000000)) * b + (1 # 4000000))%Q.
Proof.
  intros Hj Hn Hd.
  assert (Hj0 : (0 <= inject_Z (Z.of_nat j) <= inject_Z (n - 1))%Q).
  { rewrite <- (Zle_Qle 0), <- Zle_Qle. lia. }
  assert (Hj1 : (inject_Z (Z.of_nat j) <= 2147483648)%Q).
  { change 2147483648%Q with (inject_Z (2 ^ 31)). rewrite <- Zle_Qle. lia. }
  eapply Qle_trans; [by apply clip_near|]. unfold Fl.add.
  pose proof (round_error 53 (inject_Z (Z.of_nat j) + d)) as He.
  fold (Ieee.eps 53) in He. rewrite eps_53 in He. fold Ieee.binary64 in He.
  set (J := inject_Z (Z.of_nat j)) in *. set (z := Ieee.binary64 (J + d)) in *.
  pose proof (Qabs_triangle J d) as Ht. rewrite (Qabs_pos J) in Ht by lra.
  pose proof (Qabs_nonneg (J + d)) as Hzn. pose proof (Qabs_nonneg d) as Hdn.
  assert (E : (z - J == (z - (J + d)) + d)%Q) by ring.
  rewrite E. eapply Qle_trans; [apply Qabs_triangle|].
  set (A := Qabs (z - (J + d))) in *. set (B := Qabs (J + d)) in *.
  set (D := Qabs d) in *. lra.
Qed.

(** X4. When [np.sin] and [np.cos] stay within [[-1, 1]] and the
    renderer has between 2 and [2 ^ 31] pixels in each axis, every
    pixel of every frame is sampled from the resized image at a place
    no more than [50.001 * |movement_range| * camera_movement^2 + 2^-21]
    columns and [25.001 * |movement_range| * camera_movement^2 + 2^-21]
    rows away from its own (with the defaults 0.17 and 0.1: less than
    0.09 and 0.05 of a pixel), or taken from the blur at its own place
    where that sample is black. *)
Theorem parallax_shift_bounded (self : ParallaxRenderer) (img : grid pixel)
    (depth : grid Z) (cm mr duration : Q) :
  valid_image (Color img) -> valid_image (Gray depth) ->
  2 <= self_width self <= 2 ^ 31 -> 2 <= self_height self <= 2 ^ 31 ->
  (forall a, Qabs (np_sin a) <= 1)%Q -> (forall a, Qabs (np_cos a) <= 1)%Q ->
  exists ri frames,
    _resize_with_aspect_ratio (Color img) (self_width self) (self_height self) false
      = Some (Color ri) /\
    create_parallax_animation self (Some (Color img)) (Some (Gray depth)) cm mr duration
      = Some frames /\
    forall n r, frames !! n = Some r ->
      exists out, frame r = Color out /\
        forall i j px, lookup2 out i j = Some px ->
          exists sx sy s,
            (Qabs (sx - inject_Z (Z.of_nat j))
             <= (50 + (1 # 1000)) * (Qabs mr * (cm * cm)) + (1 # 2097152))%Q /\
            (Qabs (sy - inject_Z (Z.of_nat i))
             <= (25 + (1 # 1000)) * (Qabs mr * (cm * cm)) + (1 # 2097152))%Q /\
            sample ri sx sy = Some s /\
            (px = s \/
             (is_hole s = true /\
              lookup2 (cv2_GaussianBlur ri (51, 51) 20) i j = Some px)).
Proof.
  intros Hi Hd [Hw Hw'] [Hh Hh'] Hsin Hcos.
  destruct (animation_frames_ok self img depth cm mr duration Hi Hd Hw Hh)
    as (ri & rd & frames & Eri & _ & Hri & Hrd & _ & Hrun & _ & Hframes).
  exists ri, frames. split; [done|]. split; [done|]. intros n r Hr.
  destruct (Hframes n r Hr) as (_ & _ & _ & _ & _ & Hcam & Hg & _).
  destruct (frame_pixels ri rd _ _ _ (camera_x r) (camera_y r) cm Hri Hrd)
    as (out & Hg' & _ & Hpx).
  rewrite Hg in Hg'. exists out. split; [congruence|]. intros i j px Hl.
  destruct (Hpx i j px Hl) as (d & s & _ & Hu8 & Hih & Hjw & Hs & Hcase).
  unfold camera_offset in Hcam. injection Hcam as Hcx Hcy.
  set (angle := Fl.mul (Fl.mul (progress r) (Fl.of_int 2)) np_pi) in *.
  pose proof (Qabs_nonneg mr) as Hmr.
  assert (Hcc : (0 <= cm * cm)%Q) by nra.
  assert (Hm : (0 <= Qabs mr * (cm * cm))%Q) by (by apply Qmult_le_0_compat).
  assert (Hdisp : forall o, (Qabs (displacement d o cm)
                             <= (50 + (1 # 80000)) * Qabs (o * cm))%Q).
  { intros o. eapply Qle_trans.
    { apply (displacement_le d o cm (1 # 2)). by apply centred_depth_abs. }
    assert (E : (o * (cm * 100) == (o * cm) * 100)%Q) by ring.
    rewrite E, Qabs_Qmult. change (Qabs 100) with 100%Q.
    pose proof (Qabs_nonneg (o * cm)). lra. }
  eexists _, _, s. split_and!; [| |exact Hs|].
  - eapply Qle_trans; [apply clip_add_near; [lia|lia|apply Hdisp]|].
    pose proof (offset_abs_le (np_sin angle) mr cm (Hsin angle)) as Hb.
    rewrite <- Hcx in Hb. set (X := Qabs (camera_x r * cm)) in *.
    set (M := (Qabs mr * (cm * cm))%Q) in *. lra.
  - eapply Qle_trans; [apply clip_add_near; [lia|lia|apply Hdisp]|].
    pose proof (offset_abs_le (np_cos angle) mr cm (Hcos angle)) as Hb.
    assert (Ey : (camera_y r == Fl.mul (Fl.mul (np_cos angle) mr) cm * (1 # 2))%Q)
      by (rewrite Hcy; apply mul_half).
    assert (E : (camera_y r * cm == (Fl.mul (Fl.mul (np_cos angle) mr) cm * cm) * (1 # 2))%Q)
      by (rewrite Ey; ring).
    rewrite E, Qabs_Qmult, Qabs_half.
    set (X := Qabs (Fl.mul (Fl.mul (np_cos angle) mr) cm * cm)) in *.
    set (M := (Qabs mr * (cm * cm))%Q) in *. lra.
  - destruct Hcase as [[_ ->]|Hcase]; [by left|by right].
Qed.

(** ** Frames without movement *)

Lemma clip_still (j : Z) (d : Q) (n : Z) :
  0 <= j <= n - 1 -> n <= 2 ^ 31 -> (d == 0)%Q ->
  (Np.clip (Fl.add (inject_Z j) d) 0 (inject_Z (n - 1)) == inject_Z j)%Q.
Proof.
  intros Hj Hn Hd.
  assert (E : (Fl.add (inject_Z j) d == inject_Z j)%Q).
  { unfold Fl.add. rewrite Hd, Qplus_0_r. apply binary64_Z.
    assert (2 ^ 31 < 2 ^ 53) by done. lia. }
  assert (Hc : (Qabs (Np.clip (Fl.add (inject_Z j) d) 0 (inject_Z (n - 1)) - inject_Z j)
                <= Qabs (Fl.add (inject_Z j) d - inject_Z j))%Q).
  { apply clip_near. rewrite <- (Zle_Qle 0), <- Zle_Qle. lia. }
  assert (Ha : (Qabs (Fl.add (inject_Z j) d - inject_Z j) == 0)%Q).
  { rewrite E. unfold Qminus. rewrite Qplus_opp_r. reflexivity. }
  rewrite Ha in Hc. apply Qabs_Qle_condition in Hc. lra.
Qed.

Lemma displacement_still (d : Z) (offset ms : Q) :
  u8 d -> (offset * ms == 0)%Q -> (displacement d offset ms == 0)%Q.
Proof.
  intros Hd Hz.
  pose proof (displacement_le d offset ms (1 # 2) (centred_depth_abs d Hd)) as Hb.
  assert (E : (offset * (ms * 100) == 0)%Q).
  { assert (E' : (offset * (ms * 100) == offset * ms * 100)%Q) by ring.
    rewrite E', Hz. ring. }
  rewrite E in Hb. change (Qabs 0) with 0%Q in Hb.
  pose proof (Qabs_nonneg (displacement d offset ms)) as Hn.
  apply Qabs_Qle_condition in Hb. lra.
Qed.

(** With no displacement the frame is the image, except where the
    image is black: there it is the blurred image. *)
Lemma still_frame (img : grid pixel) (depth : grid Z) (h w c : Z)
    (offset_x offset_y ms : Q) :
  valid_color h w c img -> valid_gray h w depth -> h <= 2 ^ 31 -> w <= 2 ^ 31 ->
  (offset_x * ms == 0)%Q -> (offset_y * ms == 0)%Q ->
  exists out,
    _generate_parallax_frame (Color img) (Gray depth) offset_x offset_y ms
      = Some (Color out) /\
    length <$> out = length <$> img /\
    forall i j px, lookup2 out i j = Some px ->
      exists s, lookup2 img i j = Some s /\
        ((is_hole s = false /\ px = s) \/
         (is_hole s = true /\
          lookup2 (cv2_GaussianBlur img (51, 51) 20) i j = Some px)).
Proof.
  intros Hi Hd Hh Hw Hx Hy.
  destruct (frame_pixels img depth h w c offset_x offset_y ms Hi Hd)
    as (out & Hg & Hs & Hpx).
  exists out. split; [done|]. split; [done|]. intros i j px Hl.
  destruct (Hpx i j px Hl) as (d & s & _ & Hu & Hih & Hjw & Hsm & Hcase).
  destruct (sample_near_grid img h w c _ _ (Z.of_nat j) (Z.of_nat i) Hi Hh Hw
              ltac:(lia) ltac:(lia)
              (clip_still (Z.of_nat j) _ w ltac:(lia) Hw (displacement_still d _ _ Hu Hx))
              (clip_still (Z.of_nat i) _ h ltac:(lia) Hh (displacement_still d _ _ Hu Hy)))
    as (s' & Hs' & _ & Hl').
  rewrite Hsm in Hs'. simplify_eq. rewrite !Nat2Z.id in Hl'. by exists s'.
Qed.

(** A camera offset is zero when the movement range or the camera
    movement is. *)
Lemma offset_still (s mr cm k : Q) :
  (mr * cm == 0)%Q -> (Fl.mul (Fl.mul (Fl.mul s mr) cm) k * cm == 0)%Q /\
                      (Fl.mul (Fl.mul s mr) cm * cm == 0)%Q.
Proof.
  intros Hz. destruct (Qeq_dec cm 0) as [Hc|Hc].
  - rewrite Hc. split; ring.
  - assert (Hm : (mr == 0)%Q).
    { apply Qmult_integral in Hz as [|]; done. }
    assert (E : Fl.mul (Fl.mul s mr) cm = 0%Q).
    { unfold Fl.mul, Ieee.binary64. rewrite (round_of_0 53 (s * mr)) by (rewrite Hm; ring).
      apply round_of_0. ring. }
    rewrite E. split; [|ring].
    unfold Fl.mul, Ieee.binary64. rewrite (round_of_0 53 (0 * k)) by ring. ring.
Qed.

(** X5. With [camera_movement = 0] or [movement_range = 0] the
    animation stands still: for a renderer of between 2 and [2 ^ 31]
    pixels in each axis every frame is the resized image, except that
    each of its black pixels (all channels 0) is replaced by the pixel
    of its Gaussian blur at that place. *)
Theorem still_animation (self : ParallaxRenderer) (img : grid pixel)
    (depth : grid Z) (cm mr duration : Q) :
  valid_image (Color img) -> valid_image (Gray depth) ->
  2 <= self_width self <= 2 ^ 31 -> 2 <= self_height self <= 2 ^ 31 ->
  (mr * cm == 0)%Q ->
  exists ri frames,
    _resize_with_aspect_ratio (Color img) (self_width self) (self_height self) false
      = Some (Color ri) /\
    create_parallax_animation self (Some (Color img)) (Some (Gray depth)) cm mr duration
      = Some frames /\
    forall n r, frames !! n = Some r ->
      exists out, frame r = Color out /\
        length <$> out = length <$> ri /\
        forall i j px, lookup2 out i j = Some px ->
          exists s, lookup2 ri i j = Some s /\
            ((is_hole s = false /\ px = s) \/
             (is_hole s = true /\
              lookup2 (cv2_GaussianBlur ri (51, 51) 20) i j = Some px)).
Proof.
  intros Hi Hd [Hw Hw'] [Hh Hh'] Hz.
  destruct (animation_frames_ok self img depth cm mr duration Hi Hd Hw Hh)
    as (ri & rd & frames & Eri & _ & Hri & Hrd & _ & Hrun & _ & Hframes).
  exists ri, frames. split; [done|]. split; [done|]. intros n r Hr.
  destruct (Hframes n r Hr) as (_ & _ & _ & _ & _ & Hcam & Hg & _).
  unfold camera_offset in Hcam. injection Hcam as Hcx Hcy.
  destruct (still_frame ri rd _ _ _ (camera_x r) (camera_y r) cm Hri Hrd Hh' Hw')
    as (out & Hg' & Hs & Hpx).
  - rewrite Hcx. by apply (offset_still _ mr cm 1).
  - rewrite Hcy. by apply (offset_still _ mr cm (1 # 2)).
  - rewrite Hg in Hg'. exists out. split; [congruence|]. done.
Qed.

(** ** What the crop or pad keeps *)

Lemma slice_lookup {A} (l : list A) (a b : Z) (k : nat) :
  0 <= a <= b -> b <= Z.of_nat (length l) -> Z.of_nat k < b - a ->
  Py.slice l a b !! k = l !! (Z.to_nat a + k)%nat.
Proof.
  intros Hab Hb Hk. unfold Py.slice. rewrite !slice_bound_id by lia.
  rewrite lookup_take_lt by lia. by rewrite lookup_drop.
Qed.

Lemma slice_assign_lookup {A} (l src r : list A) (a b : Z) (k : nat) :
  0 <= a <= b -> b <= Z.of_nat (length l) ->
  slice_assign l a b src = Some r ->
  r !! k = if bool_decide (a <= Z.of_nat k < b) then src !! (k - Z.to_nat a)%nat else l !! k.
Proof.
  intros Hab Hb. unfold slice_assign.
  rewrite !slice_bound_id by lia. rewrite Z.max_r by lia.
  destruct (Z.of_nat (length src) =? b - a) eqn:E; [|done]. intros [= <-].
  apply Z.eqb_eq in E.
  case_bool_decide as Hk.
  - rewrite lookup_app_r by (rewrite length_take; lia).
    rewrite length_take, lookup_app_l by lia. f_equal. lia.
  - destruct (decide (Z.of_nat k < a)).
    + rewrite lookup_app_l by (rewrite length_take; lia). by rewrite lookup_take_lt by lia.
    + rewrite lookup_app_r by (rewrite length_take; lia).
      rewrite lookup_app_r by (rewrite length_take; lia).
      rewrite lookup_drop, length_take. f_equal. lia.
Qed.

Lemma slice_assign2_lookup {A} (g src r : grid A) (w r0 r1 c0 c1 : Z) (i j : nat) :
  0 <= r0 <= r1 -> r1 <= Z.of_nat (length g) ->
  0 <= c0 <= c1 -> c1 <= w ->
  Forall (fun row => Z.of_nat (length row) = w) g ->
  slice_assign2 g r0 r1 c0 c1 src = Some r ->
  lookup2 r i j =
    if bool_decide (r0 <= Z.of_nat i < r1 /\ c0 <= Z.of_nat j < c1)
    then lookup2 src (i - Z.to_nat r0) (j - Z.to_nat c0)
    else lookup2 g i j.
Proof.
  intros Hr Hr1 Hc Hc1 Hg. unfold slice_assign2.
  rewrite !slice_bound_id by lia. rewrite Z.max_r by lia.
  destruct (Z.of_nat (length src) =? r1 - r0) eqn:E; [|done]. apply Z.eqb_eq in E.
  destruct (mapM _ _) as [rows|] eqn:Hrows; [|done]. intros [= <-].
  apply mapM_Some_1 in Hrows.
  assert (Hsl : Z.of_nat (length (Py.slice g r0 r1)) = r1 - r0) by (apply slice_length; lia).
  assert (Hlen : Z.of_nat (length rows) = r1 - r0).
  { rewrite <- (Forall2_length _ _ _ Hrows), length_zip. lia. }
  unfold lookup2.
  destruct (decide (r0 <= Z.of_nat i < r1)) as [Hi|Hi].
  - rewrite lookup_app_r by (rewrite length_take; lia).
    rewrite length_take, lookup_app_l by lia.
    replace (i - Z.to_nat r0 `min` length g)%nat with (i - Z.to_nat r0)%nat by lia.
    destruct (rows !! (i - Z.to_nat r0)%nat) as [row|] eqn:Hrow.
    2: { apply lookup_ge_None in Hrow. lia. }
    destruct (Forall2_lookup_r _ _ _ _ _ Hrows Hrow) as ([d s] & Hz & Hrs).
    apply lookup_zip_with_Some in Hz as (d' & s' & [= <- <-] & Hd & Hs).
    rewrite slice_lookup in Hd by lia.
    replace (Z.to_nat r0 + (i - Z.to_nat r0))%nat with i in Hd by lia.
    rewrite Hd, Hs. simpl.
    pose proof (Forall_lookup_1 _ _ _ _ Hg Hd) as Hdw. simpl in Hdw.
    rewrite (slice_assign_lookup d s row c0 c1 j) by (done || lia).
    repeat case_bool_decide; try done; lia.
  - rewrite bool_decide_eq_false_2 by tauto.
    destruct (decide (Z.of_nat i < r0)).
    + rewrite lookup_app_l by (rewrite length_take; lia). by rewrite lookup_take_lt by lia.
    + rewrite lookup_app_r by (rewrite length_take; lia).
      rewrite lookup_app_r by (rewrite length_take; lia).
      rewrite lookup_drop, length_take. do 2 f_equal. lia.
Qed.

Lemma slice2_lookup {A} (g : grid A) (h w r0 r1 c0 c1 : Z) (i j : nat) :
  rect h w g -> 0 <= r0 <= r1 -> r1 <= h -> 0 <= c0 <= c1 -> c1 <= w ->
  Z.of_nat i < r1 - r0 -> Z.of_nat j < c1 - c0 ->
  lookup2 (slice2 g r0 r1 c0 c1) i j = lookup2 g (Z.to_nat r0 + i) (Z.to_nat c0 + j).
Proof.
  intros (_ & _ & Hh & Hrows) Hr Hr1 Hc Hc1 Hi Hj. unfold height in Hh.
  unfold lookup2, slice2. rewrite list_lookup_fmap, slice_lookup by lia.
  destruct (g !! (Z.to_nat r0 + i)%nat) as [row|] eqn:Hrow; [|done]. simpl.
  pose proof (Forall_lookup_1 _ _ _ _ Hrows Hrow) as Hw. simpl in Hw.
  by rewrite slice_lookup by lia.
Qed.

Lemma zeros_lookup {A} (h w : Z) (z : A) (g : grid A) (i j : nat) :
  zeros h w z = Some g -> Z.of_nat i < h -> Z.of_nat j < w -> lookup2 g i j = Some z.
Proof.
  unfold zeros. destruct (_ || _); [done|]. intros [= <-] Hi Hj.
  unfold lookup2. rewrite lookup_replicate_2 by lia. simpl.
  by rewrite lookup_replicate_2 by lia.
Qed.

(** The pixels of the crop or pad, by their place in the resized image. *)
Lemma center_crop_pad_lookup {A} (zero : A) (resized : grid A)
    (new_w new_h target_width target_height : Z) :
  1 <= target_width -> 1 <= target_height -> rect new_h new_w resized ->
  let dx := if target_width <=? new_w then (new_w - target_width) `div` 2
            else - ((target_width - new_w) `div` 2) in
  let dy := if target_height <=? new_h then (new_h - target_height) `div` 2
            else - ((target_height - new_h) `div` 2) in
  exists r,
    center_crop_pad zero resized new_w new_h target_width target_height = Some r /\
    rect target_height target_width r /\
    forall i j : nat, Z.of_nat i < target_height -> Z.of_nat j < target_width ->
      lookup2 r i j =
        if bool_decide (0 <= Z.of_nat i + dy < new_h /\ 0 <= Z.of_nat j + dx < new_w)
        then lookup2 resized (Z.to_nat (Z.of_nat i + dy)) (Z.to_nat (Z.of_nat j + dx))
        else Some zero.
Proof.
  intros Htw Hth Hrect dx dy.
  destruct (center_crop_pad_ok (fun _ => True) zero resized
              new_w new_h target_width target_height) as (r & Hr & Hrr & _); try done.
  { apply Forall_forall. intros. by apply Forall_forall. }
  exists r. split; [done|]. split; [done|]. intros i j Hi Hj.
  pose proof Hrect as (Hnh & Hnw & Hh & Hrows).
  unfold center_crop_pad in Hr.
  destruct (zeros target_height target_width zero) as [z|] eqn:Hz; [|done]. simpl in Hr.
  destruct (zeros_rect (fun _ => True) target_height target_width zero)
    as (z' & Hz' & (_ & _ & Hzh & Hzw) & _); [done..|].
  rewrite Hz in Hz'. injection Hz' as <-. unfold height in Hzh.
  revert Hr.
  set (start_x := Z.max 0 ((new_w - target_width) `div` 2)).
  set (start_y := Z.max 0 ((new_h - target_height) `div` 2)).
  set (end_x := Z.min new_w (start_x + target_width)).
  set (end_y := Z.min new_h (start_y + target_height)).
  set (rsx := (target_width - (end_x - start_x)) `div` 2).
  set (rsy := (target_height - (end_y - start_y)) `div` 2).
  intros Hr.
  assert (0 <= start_x <= end_x /\ end_x <= new_w /\
          0 <= rsx /\ rsx + (end_x - start_x) <= target_width /\
          dx = start_x - rsx /\
          (end_x - start_x = new_w \/ end_x - start_x = target_width))
    as (Hsx & Hex & Hrsx & Hrex & Hdx & Hcx).
  { subst start_x end_x rsx dx. destruct (target_width <=? new_w) eqn:E;
      Z.div_mod_to_equations; lia. }
  assert (0 <= start_y <= end_y /\ end_y <= new_h /\
          0 <= rsy /\ rsy + (end_y - start_y) <= target_height /\
          dy = start_y - rsy /\
          (end_y - start_y = new_h \/ end_y - start_y = target_height))
    as (Hsy & Hey & Hrsy & Hrey & Hdy & Hcy).
  { subst start_y end_y rsy dy. destruct (target_height <=? new_h) eqn:E;
      Z.div_mod_to_equations; lia. }
  rewrite (slice_assign2_lookup z _ r target_width
             rsy (rsy + (end_y - start_y)) rsx (rsx + (end_x - start_x)) i j
             ltac:(lia) ltac:(lia) ltac:(lia) ltac:(lia) Hzw Hr).
  clearbody dx dy.
  case_bool_decide as Hin.
  - rewrite (slice2_lookup resized new_h new_w) by (done || lia).
    rewrite bool_decide_eq_true_2 by lia. f_equal; lia.
  - rewrite (zeros_lookup _ _ _ _ _ _ Hz) by lia.
    rewrite bool_decide_eq_false_2; [done|]. lia.
Qed.

(** X6. The crop or pad after the resize is centred: the output pixel
    at row [i], column [j] is the pixel of the resized image [dy] rows
    down and [dx] columns right of it, where an axis that is too long by
    [e] drops [e // 2] at its start (and the rest at its end), and an
    axis that is too short by [e] gets [e // 2] zeros at its start;
    every output pixel that falls outside the resized image is zero. *)
Theorem crop_or_pad_centred {A} (zero : A) (resized : grid A)
    (new_w new_h target_width target_height : Z) :
  1 <= target_width -> 1 <= target_height -> rect new_h new_w resized ->
  let dx := if target_width <=? new_w then (new_w - target_width) `div` 2
            else - ((target_width - new_w) `div` 2) in
  let dy := if target_height <=? new_h then (new_h - target_height) `div` 2
            else - ((target_height - new_h) `div` 2) in
  exists r,
    center_crop_pad zero resized new_w new_h target_width target_height = Some r /\
    rect target_height target_width r /\
    forall i j : nat, Z.of_nat i < target_height -> Z.of_nat j < target_width ->
      lookup2 r i j =
        if bool_decide (0 <= Z.of_nat i + dy < new_h /\ 0 <= Z.of_nat j + dx < new_w)
        then lookup2 resized (Z.to_nat (Z.of_nat i + dy)) (Z.to_nat (Z.of_nat j + dx))
        else Some zero.
Proof.
  intros Htw Hth Hrect.
  exact (center_crop_pad_lookup zero resized new_w new_h target_width target_height
           Htw Hth Hrect).
Qed.

Lemma scaled_size_same (w h : Z) :
  1 <= w <= 2 ^ 53 -> 1 <= h <= 2 ^ 53 -> scaled_size w h w h = Some (w, h).
Proof.
  intros Hw Hh. unfold scaled_size, Fl.truediv, Py.truediv.
  destruct (w =? 0) eqn:E1; [lia|]. destruct (h =? 0) eqn:E2; [lia|]. simpl.
  assert (Hw0 : ~ (inject_Z w == 0)%Q) by (intros E0; unfold Qeq in E0; simpl in E0; lia).
  assert (Hh0 : ~ (inject_Z h == 0)%Q) by (intros E0; unfold Qeq in E0; simpl in E0; lia).
  assert (Hone : forall q, (q == 1)%Q -> (Ieee.binary64 q == 1)%Q).
  { intros q E. by apply (round_Z_exact 53 ltac:(lia) q 1). }
  assert (Hs : (Py.max (Ieee.binary64 (inject_Z w / inject_Z w))
                       (Ieee.binary64 (inject_Z h / inject_Z h)) == 1)%Q).
  { unfold Py.max. destruct (Qle_bool _ _); apply Hone; by field. }
  do 2 f_equal; apply int_inject; unfold Fl.mul; rewrite Hs, Qmult_1_r;
    rewrite of_int_exact by lia; apply binary64_Z; lia.
Qed.

Lemma center_crop_pad_same {A} (zero : A) (resized : grid A) (w h : Z) :
  rect h w resized -> center_crop_pad zero resized w h w h = Some resized.
Proof.
  intros Hrect. pose proof Hrect as (Hh & Hw & _).
  destruct (center_crop_pad_lookup zero resized w h w h Hw Hh Hrect)
    as (r & -> & Hr & Hpx).
  f_equal. apply grid_eq.
  - by rewrite (rect_shape _ _ _ Hr), (rect_shape _ _ _ Hrect).
  - intros i j v Hv. destruct (lookup2_rect _ _ _ _ _ _ Hr Hv) as [Hi Hj].
    rewrite Hpx in Hv by done. rewrite !Z.leb_refl, !Z.sub_diag in Hv.
    change (0 `div` 2) with 0 in Hv. rewrite !Z.add_0_r, !Nat2Z.id in Hv.
    by rewrite bool_decide_eq_true_2 in Hv by lia.
Qed.

(** X7. An image that already has the target size is handed to
    [cv2.resize] with its own size, and what [cv2.resize] returns is the
    result: nothing is cropped and nothing is padded. *)
Theorem resize_same_size (img : ndarray) (is_depth : bool) :
  valid_image img ->
  exists r, cv2_resize img (shape1 img, shape0 img) = Some r /\
            valid_like img (shape0 img) (shape1 img) r /\
            _resize_with_aspect_ratio img (shape1 img) (shape0 img) is_depth = Some r.
Proof.
  intros Hv.
  destruct (valid_image_pos img Hv) as [Hw Hh].
  assert (2 ^ 31 < 2 ^ 53) by done.
  destruct (cv2_resize_spec img (shape1 img) (shape0 img)) as (r & Hr & Hlike);
    [done|lia..|].
  exists r. split; [done|]. split; [done|].
  unfold _resize_with_aspect_ratio. rewrite scaled_size_same by lia. simpl.
  rewrite Hr. simpl.
  destruct img as [g|g], r as [r|r]; simpl in Hlike; try done;
    destruct Hlike as [Hrect _]; by rewrite center_crop_pad_same.
Qed.

(** ** The frame files *)

Lemma string_length_app (s t : string) :
  String.length (s ++ t) = (String.length s + String.length t)%nat.
Proof. induction s as [|a s IH]; simpl; [done|]. by rewrite IH. Qed.

Lemma string_app_assoc (s t u : string) : (s ++ (t ++ u) = (s ++ t) ++ u)%string.
Proof.
  induction s as [|a s IH]; [done|].
  change (String a (s ++ (t ++ u)) = String a ((s ++ t) ++ u))%string. by rewrite IH.
Qed.

Lemma string_app_inj_r (s1 s2 t : string) : (s1 ++ t = s2 ++ t)%string -> s1 = s2.
Proof.
  revert s2. induction s1 as [|a s1 IH]; intros [|b s2] H.
  - done.
  - apply (f_equal String.length) in H. rewrite !string_length_app in H.
    simpl in H. lia.
  - apply (f_equal String.length) in H. rewrite !string_length_app in H.
    simpl in H. lia.
  - cbn [append] in H. injection H as -> H. f_equal. by apply IH.
Qed.

(** Reading the digits back: leading zeros do not change the number. *)
Lemma uint_of_zeros (k : nat) (s : string) (d : Decimal.uint) :
  NilEmpty.uint_of_string s = Some d ->
  exists d', NilEmpty.uint_of_string (PyStr.zeros k ++ s) = Some d' /\
             N.of_uint d' = N.of_uint d.
Proof.
  intros Hs. induction k as [|k (d' & Hd' & Hv)]; simpl.
  - by exists d.
  - rewrite Hd'. simpl. by exists (Decimal.D0 d').
Qed.

Lemma uint_of_decimal (n : N) :
  NilEmpty.uint_of_string (PyStr.decimal n) = Some (N.to_uint n).
Proof.
  unfold PyStr.decimal.
  assert (Hn : N.to_uint n <> Decimal.Nil).
  { destruct n; simpl; [done|]. apply DecimalPos.Unsigned.to_uint_nonnil. }
  replace (NilZero.string_of_uint (N.to_uint n))
    with (NilEmpty.string_of_uint (N.to_uint n)) by (by destruct (N.to_uint n)).
  apply NilEmpty.usu.
Qed.

Lemma format_0d_value (width : nat) (z : Z) :
  0 <= z ->
  exists d, NilEmpty.uint_of_string (PyStr.format_0d width z) = Some d /\
            N.of_uint d = Z.to_N z.
Proof.
  intros Hz. unfold PyStr.format_0d, PyStr.zfill.
  destruct (z <? 0) eqn:E; [lia|].
  destruct (uint_of_zeros (width - String.length (PyStr.decimal (Z.to_N z)))
              _ _ (uint_of_decimal (Z.to_N z))) as (d & Hd & Hv).
  exists d. split; [done|]. by rewrite Hv, DecimalN.Unsigned.of_to.
Qed.

Lemma format_0d_inj (width : nat) (z1 z2 : Z) :
  0 <= z1 -> 0 <= z2 -> PyStr.format_0d width z1 = PyStr.format_0d width z2 -> z1 = z2.
Proof.
  intros H1 H2 E.
  destruct (format_0d_value width z1 H1) as (d1 & Hd1 & Hv1).
  destruct (format_0d_value width z2 H2) as (d2 & Hd2 & Hv2).
  rewrite E, Hd2 in Hd1. injection Hd1 as <-. lia.
Qed.

Lemma frame_path_inj (temp_dir : string) (i j : Z) :
  0 <= i -> 0 <= j -> frame_path temp_dir i = frame_path temp_dir j -> i = j.
Proof.
  intros Hi Hj. unfold frame_path, PyStr.path_join. cbn [append].
  assert (Hinj : forall p : string,
    (p ++ String "f" (String "r" (String "a" (String "m" (String "e" (String "_"
       (PyStr.format_0d 6 i ++ ".png")))))) =
     p ++ String "f" (String "r" (String "a" (String "m" (String "e" (String "_"
       (PyStr.format_0d 6 j ++ ".png")))))))%string -> i = j).
  { intros p E. apply String.app_inj in E. injection E as E.
    apply string_app_inj_r in E. by apply (format_0d_inj 6). }
  destruct (PyStr.rsplit_last "/" temp_dir) as [[? [|]]|];
    try case_bool_decide; intros E;
    first [ by apply (Hinj temp_dir)
          | by apply (Hinj EmptyString)
          | apply (Hinj (temp_dir ++ "/")%string);
            by rewrite <- !string_app_assoc ].
Qed.

(** The loop that writes the files, for any frame function and any
    naming of the files that does not repeat. *)
Lemma write_loop (f : Z -> option frame_record) (path : Z -> string) (l : list Z) :
  forall (files : gmap string ndarray) (paths : list string) (rs : list frame_record),
  mapM f l = Some rs -> NoDup (path <$> l) ->
  (forall i, i ∈ l -> files !! path i = None) ->
  exists files',
    for_loop (fun st i => r ← f i; Some (<[path i := frame r]> st.1, st.2 ++ [path i]))
             (files, paths) l = Some (files', paths ++ (path <$> l)) /\
    (forall n i r, l !! n = Some i -> rs !! n = Some r ->
       files' !! path i = Some (frame r)) /\
    (forall k, (forall i, i ∈ l -> k <> path i) -> files' !! k = files !! k) /\
    size files' = (size files + length l)%nat.
Proof.
  induction l as [|i l IH]; intros files paths rs Hrs Hnd Hfresh.
  - exists files. simpl. rewrite app_nil_r. split_and!; try done; lia.
  - simpl in Hrs.
    destruct (f i) as [r|] eqn:Hfi; [|done]. simpl in Hrs.
    destruct (mapM f l) as [rs'|] eqn:Hrs'; [|done]. simpl in Hrs.
    injection Hrs as <-.
    rewrite fmap_cons in Hnd. apply NoDup_cons in Hnd as [Hi Hnd].
    destruct (IH (<[path i := frame r]> files) (paths ++ [path i]) rs' eq_refl Hnd)
      as (files' & Hrun & Hlook & Hother & Hsize).
    { intros i' Hi'. rewrite lookup_insert_ne.
      - apply Hfresh. by right.
      - intros E. apply Hi. rewrite E. by apply list_elem_of_fmap_2. }
    exists files'. split_and!.
    + simpl. rewrite Hfi. simpl. rewrite Hrun. by rewrite <- app_assoc.
    + intros [|n] i' r' Hl Hr; simplify_eq/=.
      * rewrite Hother; [by rewrite lookup_insert_eq|].
        intros i2 Hi2 E. apply Hi. rewrite E. by apply list_elem_of_fmap_2.
      * by eapply Hlook.
    + intros k Hk. rewrite Hother.
      * rewrite lookup_insert_ne; [done|]. intros E. by apply (Hk i); [left|].
      * intros i' Hi'. apply Hk. by right.
    + rewrite Hsize, map_size_insert_None by (apply Hfresh; left). simpl. lia.
Qed.

Lemma range_paths_NoDup (temp_dir : string) (n : Z) :
  NoDup (frame_path temp_dir <$> Py.range n).
Proof.
  apply NoDup_fmap_2_strong; [|unfold Py.range; apply NoDup_fmap; [apply _|apply NoDup_seq]].
  intros i j Hi Hj. unfold Py.range in Hi, Hj.
  apply list_elem_of_fmap in Hi as (a & -> & _). apply list_elem_of_fmap in Hj as (b & -> & _).
  apply frame_path_inj; lia.
Qed.

(** X8. For a renderer of two pixels or more in each axis and valid
    inputs, the loop leaves exactly one file per frame in the
    temporary directory: frame [n] is in the file
    [frame_path temp_dir n], no two frames share a file name (also
    beyond 999999, where the number outgrows its six digits), so no
    frame is overwritten, and [frame_paths] lists the files in the order
    of the frames. *)
Theorem frame_files_distinct (self : ParallaxRenderer) (img : grid pixel)
    (depth : grid Z) (cm mr duration : Q) (temp_dir : string) :
  valid_image (Color img) -> valid_image (Gray depth) ->
  2 <= self_width self -> 2 <= self_height self ->
  exists frames files paths,
    create_parallax_animation self (Some (Color img)) (Some (Gray depth)) cm mr duration
      = Some frames /\
    write_frames self (Some (Color img)) (Some (Gray depth)) cm mr duration temp_dir
      = Some (files, paths) /\
    paths = (fun r => frame_path temp_dir (frame_idx r)) <$> frames /\
    NoDup paths /\
    size files = length frames /\
    (forall n r, frames !! n = Some r ->
       files !! frame_path temp_dir (Z.of_nat n) = Some (frame r)) /\
    (forall k, is_Some (files !! k) -> k ∈ paths).
Proof.
  intros Hi Hd Hw Hh.
  destruct (animation_frames_ok self img depth cm mr duration Hi Hd Hw Hh)
    as (ri & rd & frames & Eri & Erd & _ & _ & Hmap & Hrun & Hlen & Hframes).
  set (T := total_frames_of self duration) in *.
  destruct (write_loop (render_frame (Color ri) (Gray rd) cm mr T) (frame_path temp_dir)
              (Py.range T) ∅ [] frames Hmap (range_paths_NoDup temp_dir T))
    as (files & Hloop & Hlook & Hother & Hsize); [done|].
  assert (Hpaths : frame_path temp_dir <$> Py.range T
                   = (fun r => frame_path temp_dir (frame_idx r)) <$> frames).
  { apply list_eq. intros n. rewrite !list_lookup_fmap.
    destruct (frames !! n) as [r|] eqn:Hr.
    - destruct (Hframes n r Hr) as (Hidx & Hlt & _).
      assert (Hrange : Py.range T !! n = Some (Z.of_nat n)).
      { unfold Py.range. rewrite list_lookup_fmap, lookup_seq_lt by lia. done. }
      rewrite Hrange. simpl. by rewrite Hidx.
    - apply lookup_ge_None in Hr.
      rewrite (proj2 (lookup_ge_None (Py.range T) n)); [done|].
      rewrite range_length. lia. }
  exists frames, files, (frame_path temp_dir <$> Py.range T).
  split_and!; try done.
  - unfold write_frames, write_step. fold T. rewrite Eri, Erd. simpl. exact Hloop.
  - apply range_paths_NoDup.
  - rewrite Hsize, map_size_empty, range_length. lia.
  - intros n r Hr. destruct (Hframes n r Hr) as (_ & Hlt & _).
    apply (Hlook n); [|done].
    unfold Py.range. rewrite list_lookup_fmap, lookup_seq_lt by lia. done.
  - intros k [v Hk].
    destruct (decide (k ∈ frame_path temp_dir <$> Py.range T)) as [|Hn]; [done|].
    rewrite Hother in Hk; [by rewrite lookup_empty in Hk|].
    intros i Hi' ->. apply Hn. by apply list_elem_of_fmap_2.
Qed.

(** X14. An image and a depth map of the same size stay registered
    for a target of two pixels or more in each axis: both are resized
    to the same scaled size and both are cropped or padded with the
    same centred window, so that pixel [(i, j)] of the resized image and
    pixel [(i, j)] of the resized depth map come from the same place
    [(i + dy, j + dx)] of the two scaled arrays, or are both zero
    padding; the scaled size can fall short of the target through the
    rounding of the scale, by at most one pixel in an axis. *)
Theorem crop_keeps_alignment (img : grid pixel) (depth : grid Z) (h w c : Z)
    (target_width target_height : Z) :
  valid_color h w c img -> valid_gray h w depth -> h < 2 ^ 31 -> w < 2 ^ 31 ->
  2 <= target_width -> 2 <= target_height ->
  exists new_w new_h si sd ri rd dx dy,
    scaled_size w h target_width target_height = Some (new_w, new_h) /\
    (target_width <= 2 ^ 52 -> target_width - 1 <= new_w) /\
    (target_height <= 2 ^ 52 -> target_height - 1 <= new_h) /\
    cv2_resize (Color img) (new_w, new_h) = Some (Color si) /\
    cv2_resize (Gray depth) (new_w, new_h) = Some (Gray sd) /\
    _resize_with_aspect_ratio (Color img) target_width target_height false
      = Some (Color ri) /\
    _resize_with_aspect_ratio (Gray depth) target_width target_height true
      = Some (Gray rd) /\
    forall i j : nat, Z.of_nat i < target_height -> Z.of_nat j < target_width ->
      if bool_decide (0 <= Z.of_nat i + dy < new_h /\ 0 <= Z.of_nat j + dx < new_w)
      then lookup2 ri i j
             = lookup2 si (Z.to_nat (Z.of_nat i + dy)) (Z.to_nat (Z.of_nat j + dx)) /\
           lookup2 rd i j
             = lookup2 sd (Z.to_nat (Z.of_nat i + dy)) (Z.to_nat (Z.of_nat j + dx))
      else lookup2 ri i j = Some (replicate (Z.to_nat c) 0) /\
           lookup2 rd i j = Some 0.
Proof.
  intros Hi Hd Hh31 Hw31 Htw Hth.
  pose proof Hi as [Hri HPi]. pose proof Hd as [Hrd _].
  pose proof Hri as (Hh & Hw & Hhi & Hrows). pose proof Hrd as (_ & _ & Hhd & _).
  pose proof (rect_width _ _ _ Hri) as Hwi. pose proof (rect_width _ _ _ Hrd) as Hwd.
  assert (Hc : channels img = c).
  { unfold channels, height in *. destruct img as [|[|px0 row0] img]; simpl in *; try lia.
    - apply Forall_cons in Hrows as [Hrow _]. simpl in Hrow. lia.
    - apply Forall_cons in HPi as [HP _]. by apply Forall_cons in HP as [[-> _] _]. }
  assert (Hvi : valid_image (Color img)).
  { unfold valid_image. simpl. by rewrite Hhi, Hwi, Hc. }
  assert (Hvd : valid_image (Gray depth)).
  { unfold valid_image. simpl. by rewrite Hhd, Hwd. }
  destruct (scaled_size_ok w h target_width target_height)
    as (new_w & new_h & Hsz & Hnw & Hnh & Hnw' & Hnh'); [done..|].
  destruct (cv2_resize_spec (Color img) new_w new_h) as ([|si] & Esi & Hsi);
    [done|lia..|done|].
  destruct (cv2_resize_spec (Gray depth) new_w new_h) as ([sd|] & Esd & Hsd);
    [done|lia..| |done].
  simpl in Hsi, Hsd. destruct Hsi as [Hsi _]. destruct Hsd as [Hsd _].
  destruct (center_crop_pad_lookup (replicate (Z.to_nat (channels img)) 0) si
              new_w new_h target_width target_height ltac:(lia) ltac:(lia) Hsi)
    as (ri & Eri & _ & Hpi).
  destruct (center_crop_pad_lookup 0 sd
              new_w new_h target_width target_height ltac:(lia) ltac:(lia) Hsd)
    as (rd & Erd & _ & Hpd).
  exists new_w, new_h, si, sd, ri, rd,
    (if target_width <=? new_w then (new_w - target_width) `div` 2
     else - ((target_width - new_w) `div` 2)),
    (if target_height <=? new_h then (new_h - target_height) `div` 2
     else - ((target_height - new_h) `div` 2)).
  split_and!; try done.
  - unfold _resize_with_aspect_ratio. simpl. rewrite Hhi, Hwi, Hsz. simpl.
    rewrite Esi. simpl. by rewrite Eri.
  - unfold _resize_with_aspect_ratio. simpl. rewrite Hhd, Hwd, Hsz. simpl.
    rewrite Esd. simpl. by rewrite Erd.
  - intros i j Hil Hjl. rewrite (Hpi i j Hil Hjl), (Hpd i j Hil Hjl), Hc.
    by case_bool_decide.
Qed.

(** ** When the blur is not used *)

Lemma corner_channel_Forall (P : Z -> Prop) (g : grid pixel) (yi xi : Z) (k : nat) (v : Z) :
  Forall (Forall (fun px : list Z => forall v, px !! k = Some v -> P v)) g ->
  corner_channel g yi xi k = Some v -> P v.
Proof.
  intros HP. unfold corner_channel, Np.index2, Np.index.
  intros H.
  assert (Hpx : forall (row : list pixel) px, row ∈ g -> px ∈ row -> px !! k = Some v -> P v).
  { intros row px Hrow Hpx Hv.
    pose proof (proj1 (Forall_forall _ _) HP row Hrow) as HProw.
    by apply (proj1 (Forall_forall _ _) HProw px Hpx). }
  repeat case_match; simplify_eq/=;
    repeat match goal with
    | H : (_ ≫= _) = Some _ |- _ => apply bind_Some in H as (? & ? & ?)
    | H : context [if ?b then _ else _] |- _ => destruct b; simplify_eq/=
    end; simplify_eq/=;
    eapply Hpx; eauto using list_elem_of_lookup_2.
Qed.

Lemma new_x_in_range (depth : grid Z) (h w : Z) (offset_x ms : Q) :
  rect h w depth -> in_range w (new_x depth offset_x ms).
Proof.
  intros Hr. apply Forall_lookup. intros i row Hrow. apply Forall_lookup. intros j v Hv.
  assert (Hl : lookup2 (new_x depth offset_x ms) i j = Some v)
    by (unfold lookup2; by rewrite Hrow).
  rewrite new_x_lookup in Hl. destruct (lookup2 depth i j); simplify_eq/=.
  rewrite (rect_width _ _ _ Hr). apply clip_in_image. apply Hr.
Qed.

Lemma new_y_in_range (depth : grid Z) (h w : Z) (offset_y ms : Q) :
  rect h w depth -> in_range h (new_y depth offset_y ms).
Proof.
  intros Hr. apply Forall_lookup. intros i row Hrow. apply Forall_lookup. intros j v Hv.
  assert (Hl : lookup2 (new_y depth offset_y ms) i j = Some v)
    by (unfold lookup2; by rewrite Hrow).
  rewrite new_y_lookup in Hl. destruct (lookup2 depth i j); simplify_eq/=.
  destruct Hr as (Hh & _ & -> & _). by apply clip_in_image.
Qed.

Lemma is_hole_false (px : pixel) (k : nat) (v : Z) :
  px !! k = Some v -> v <> 0 -> is_hole px = false.
Proof.
  intros Hk Hv. unfold is_hole. apply not_true_iff_false. intros H.
  rewrite forallb_forall in H.
  specialize (H v (proj1 (list_elem_of_In _ _) (list_elem_of_lookup_2 _ _ _ Hk))).
  apply Z.eqb_eq in H. done.
Qed.

(** X15. If one channel of the image is at least 2 everywhere, no
    sampled pixel is black and the blur is never used: the frame is
    exactly what [_bilinear_interpolate] returns, for every depth map
    and offset, and that channel is nowhere 0 in the frame. *)
Theorem no_blur_without_black (img : grid pixel) (depth : grid Z) (h w c : Z)
    (offset_x offset_y movement_strength : Q) (k : nat) :
  valid_color h w c img -> valid_gray h w depth -> h <= 2 ^ 31 -> w <= 2 ^ 31 ->
  Z.of_nat k < c ->
  Forall (Forall (fun px : list Z => forall v, px !! k = Some v -> 2 <= v)) img ->
  exists out,
    _bilinear_interpolate (Color img)
      (new_x depth offset_x movement_strength)
      (new_y depth offset_y movement_strength) = Some (Color out) /\
    _generate_parallax_frame (Color img) (Gray depth)
      offset_x offset_y movement_strength = Some (Color out) /\
    forall i j px, lookup2 out i j = Some px ->
      is_hole px = false /\ exists v, px !! k = Some v /\ 1 <= v <= 255.
Proof.
  intros Hi [Hd _] Hh Hw Hk Hpos.
  destruct (bilinear_in_range img h w c
              (new_x depth offset_x movement_strength)
              (new_y depth offset_y movement_strength) Hi Hh Hw)
    as (out & Hout & _ & Hch).
  { by rewrite new_x_shape, new_y_shape. }
  { by eapply new_x_in_range. }
  { by eapply new_y_in_range. }
  destruct (bilinear_ok img h w c
              (new_x depth offset_x movement_strength)
              (new_y depth offset_y movement_strength) Hi)
    as (out' & Hout' & _ & Hlen & _).
  { by rewrite new_x_shape, new_y_shape. }
  rewrite Hout in Hout'. injection Hout' as <-.
  assert (Hpx : forall i j px, lookup2 out i j = Some px ->
            is_hole px = false /\ exists v, px !! k = Some v /\ 1 <= v <= 255).
  { intros i j px Hl.
    pose proof (lookup2_Forall _ _ _ _ _ Hlen Hl) as [Hc _]. simpl in Hc.
    destruct (px !! k) as [v|] eqn:Hv.
    2: { apply lookup_ge_None in Hv. lia. }
    destruct (Hch i j px k v Hl Hv)
      as (xv & yv & a & b & c' & d & _ & _ & Hcv & (Ha & Hb & Hc' & Hd') & _ & Hwx & Hwy & ->).
    assert (2 <= a /\ 2 <= b /\ 2 <= c' /\ 2 <= d) as (Ha1 & Hb1 & Hc1 & Hd1).
    { unfold corner_values in Hcv.
      destruct (corners (height img) (width img) xv yv) as [[[x0 x1] y0] y1].
      destruct (corner_channel img y0 x0 k) as [a'|] eqn:Ea; simplify_eq/=.
      destruct (corner_channel img y0 x1 k) as [b'|] eqn:Eb; simplify_eq/=.
      destruct (corner_channel img y1 x0 k) as [c''|] eqn:Ec; simplify_eq/=.
      destruct (corner_channel img y1 x1 k) as [d'|] eqn:Ed; simplify_eq/=.
      split_and!; eapply (corner_channel_Forall (fun v => 2 <= v)); eauto. }
    unfold u8 in *.
    destruct (blend_bounds (weights img xv yv).1 (weights img xv yv).2 a b c' d 2 255)
      as [[Hlo Hhi] _]; try lia; try done.
    change (inject_Z 2) with 2%Q in Hlo. change (inject_Z 255) with 255%Q in Hhi.
    destruct (astype_uint8_floor
                (blend (weights img xv yv).1 (weights img xv yv).2 a b c' d))
      as [Hfl _]; [lra..|].
    assert (Hv1 : 1 <= Np.astype_uint8
                         (blend (weights img xv yv).1 (weights img xv yv).2 a b c' d)
                  <= 255).
    { rewrite Hfl. split; [apply (floor_ge _ 1) | apply Z.lt_succ_r, (floor_lt _ 256)];
        change (inject_Z 1) with 1%Q; change (inject_Z 256) with 256%Q; lra. }
    split; [|by eexists]. eapply is_hole_false; [exact Hv|lia]. }
  exists out. split; [done|]. split; [|done].
  unfold _generate_parallax_frame. rewrite Hout. simpl.
  assert (He : existsb (existsb is_hole) out = false).
  { apply not_true_iff_false. intros He.
    apply existsb_exists in He as (row & Hrow & He).
    apply existsb_exists in He as (px & Hpx' & He).
    apply list_elem_of_In, list_elem_of_lookup_1 in Hrow as [i Hrow].
    apply list_elem_of_In, list_elem_of_lookup_1 in Hpx' as [j Hj].
    destruct (Hpx i j px) as [Hf _]; [unfold lookup2; by rewrite Hrow|]. congruence. }
  by rewrite He.
Qed.

(** ** Negative sizes *)

Lemma center_crop_pad_negative {A} (zero : A) (resized : grid A)
    (new_w new_h target_width target_height : Z) :
  target_width < 0 \/ target_height < 0 ->
  center_crop_pad zero resized new_w new_h target_width target_height = None.
Proof.
  intros Hneg. unfold center_crop_pad, zeros.
  destruct (target_height <? 0) eqn:E1; destruct (target_width <? 0) eqn:E2;
    simpl; try done; lia.
Qed.

(** X16. A renderer with a negative width or height never writes a
    frame: for every image and depth map, every duration and whatever
    [cv2.resize] makes of the scaled size, [create_parallax_animation]
    ends in an exception before the frame loop, because no array of the
    target size can be allocated. *)
Theorem negative_size_raises (self : ParallaxRenderer) (image depth_map : option ndarray)
    (cm mr duration : Q) (temp_dir : string) :
  self_width self < 0 \/ self_height self < 0 ->
  (forall img is_depth,
     _resize_with_aspect_ratio img (self_width self) (self_height self) is_depth = None) /\
  create_parallax_animation self image depth_map cm mr duration = None /\
  write_frames self image depth_map cm mr duration temp_dir = None.
Proof.
  intros Hneg.
  assert (Hres : forall img is_depth,
    _resize_with_aspect_ratio img (self_width self) (self_height self) is_depth = None).
  { intros img is_depth. unfold _resize_with_aspect_ratio.
    destruct (scaled_size _ _ _ _) as [[new_w new_h]|]; [|done]. simpl.
    destruct (cv2_resize img (new_w, new_h)) as [resized|]; [|done]. simpl.
    destruct img, resized; try done; by rewrite center_crop_pad_negative. }
  split; [done|].
  unfold create_parallax_animation, write_frames.
  destruct image as [image|], depth_map as [depth_map|]; try done.
  by rewrite !Hres.
Qed.

End Renderer.

(** ** The upload check *)

Lemma rsplit_last_None (sep : ascii) (s : string) :
  PyStr.rsplit_last sep s = None <-> PyStr.contains sep s = false.
Proof.
  induction s as [|a s IH]; simpl; [done|].
  destruct (PyStr.rsplit_last sep s) as [[before after]|].
  - split; [done|]. intros H. apply orb_false_iff in H as [_ H].
    apply IH in H. done.
  - rewrite (proj1 IH eq_refl), orb_false_r. by destruct (bool_decide (a = sep)).
Qed.

Lemma rsplit_last_Some (sep : ascii) (s before after : string) :
  PyStr.rsplit_last sep s = Some (before, after) <->
  s = (before ++ String sep after)%string /\ PyStr.contains sep after = false.
Proof.
  split.
  - revert before. induction s as [|a s IH]; intros before; simpl; [done|].
    destruct (PyStr.rsplit_last sep s) as [[b' a']|] eqn:E.
    + intros [= <- <-]. destruct (IH b' eq_refl) as [-> Hc]. done.
    + case_bool_decide as Ha; [|done]. intros [= <- <-]. subst a.
      split; [done|]. by apply rsplit_last_None.
  - intros [-> Hc]. induction before as [|b before IH].
    + change (PyStr.rsplit_last sep (String sep after) = Some (EmptyString, after)).
      simpl. rewrite (proj2 (rsplit_last_None sep after) Hc).
      by rewrite bool_decide_eq_true_2.
    + change (PyStr.rsplit_last sep (String b (before ++ String sep after))
              = Some (String b before, after)).
      simpl. by rewrite IH.
Qed.

Lemma allowed_file_eq (filename : string) :
  VideoApi.allowed_file filename =
    Some match PyStr.rsplit_last "." filename with
         | Some (_, ext) => bool_decide (PyStr.lower ext ∈ VideoApi.ALLOWED_EXTENSIONS)
         | None => false
         end.
Proof.
  unfold VideoApi.allowed_file, PyStr.rsplit1.
  destruct (PyStr.rsplit_last "." filename) as [[stem ext]|] eqn:E.
  - destruct (PyStr.contains "." filename) eqn:Hc; [done|].
    apply rsplit_last_None in Hc. congruence.
  - apply rsplit_last_None in E. by rewrite E.
Qed.

(** X9. [allowed_file] answers for every file name (its [rsplit(...)[1]]
    never fails), and it accepts exactly the names [stem.ext] whose part
    after the last dot is, in lower case, one of the six allowed
    extensions; only the last extension counts and the stem may be
    empty. *)
Theorem allowed_file_last_extension (filename : string) :
  (exists b, VideoApi.allowed_file filename = Some b) /\
  (VideoApi.allowed_file filename = Some true <->
   exists stem ext,
     filename = (stem ++ "." ++ ext)%string /\
     PyStr.contains "." ext = false /\
     PyStr.lower ext ∈ VideoApi.ALLOWED_EXTENSIONS).
Proof.
  rewrite allowed_file_eq. split; [by eexists|].
  destruct (PyStr.rsplit_last "." filename) as [[stem ext]|] eqn:E.
  - apply rsplit_last_Some in E as [-> Hc]. split.
    + intros [= H]. apply bool_decide_eq_true in H. by exists stem, ext.
    + intros (stem' & ext' & E & Hc' & Hin).
      assert (Hs : PyStr.rsplit_last "." (stem ++ String "." ext)
                   = Some (stem', ext')).
      { rewrite E. by apply rsplit_last_Some. }
      rewrite (proj2 (rsplit_last_Some "." _ stem ext) (conj eq_refl Hc)) in Hs.
      injection Hs as -> ->. f_equal. by apply bool_decide_eq_true.
  - split; [done|]. intros (stem & ext & -> & Hc & _).
    assert (Hs : PyStr.rsplit_last "." (stem ++ "." ++ ext) = Some (stem, ext))
      by (by apply rsplit_last_Some).
    congruence.
Qed.

Lemma allowed_file_empty : VideoApi.allowed_file EmptyString = Some false.
Proof. done. Qed.

(** X10. The input checks of the handlers never raise: they answer
    400 or go on.  [generate_video] goes on exactly when the form has an
    [image] file whose name [allowed_file] accepts, and
    [generate_video_with_depth] exactly when it has both an [image] and
    a [depth_map] file and [allowed_file] accepts both names; the test
    for an empty file name changes nothing, since [allowed_file]
    rejects the empty name. *)
Theorem upload_checks (files : gmap string string) :
  (exists c, VideoApi.check_image files = Some c) /\
  (forall names, VideoApi.check_image files = Some (VideoApi.Accepted names) <->
     exists f, files !! "image"%string = Some f /\
               VideoApi.allowed_file f = Some true /\ names = [f]) /\
  (exists c, VideoApi.check_image_and_depth files = Some c) /\
  (forall names,
     VideoApi.check_image_and_depth files = Some (VideoApi.Accepted names) <->
     exists f d, files !! "image"%string = Some f /\
                 files !! "depth_map"%string = Some d /\
                 VideoApi.allowed_file f = Some true /\
                 VideoApi.allowed_file d = Some true /\ names = [f; d]).
Proof.
  unfold VideoApi.check_image, VideoApi.check_image_and_depth.
  assert (Hbool : forall n, VideoApi.allowed_file n = Some true \/
                            VideoApi.allowed_file n = Some false).
  { intros n. rewrite allowed_file_eq.
    destruct (match _ with Some _ => _ | None => _ end); auto. }
  destruct (files !! "image"%string) as [f|].
  2: { split_and!; try (by eexists); intros names; (split; [done|]).
       - by intros (f & [=] & _).
       - by intros (f & d & [=] & _). }
  assert (Hfe : f = EmptyString -> VideoApi.allowed_file f = Some false) by (by intros ->).
  split_and!.
  - case_bool_decide; simpl; [by eexists|]. destruct (Hbool f) as [-> | ->]; by eexists.
  - intros names. case_bool_decide as He; simpl.
    + split; [done|]. intros (f0 & [= <-] & Ha & _). rewrite (Hfe He) in Ha. done.
    + destruct (Hbool f) as [Hf | Hf]; rewrite Hf; simpl.
      * split; [intros [= <-]; by exists f | by intros (f0 & [= <-] & _ & ->)].
      * split; [done|]. intros (f0 & [= <-] & Ha & _). congruence.
  - destruct (files !! "depth_map"%string) as [d|]; [|by eexists].
    case_bool_decide; simpl; [by eexists|].
    destruct (Hbool f) as [-> | ->]; simpl; [|by eexists].
    case_bool_decide; simpl; [by eexists|]. destruct (Hbool d) as [-> | ->]; by eexists.
  - intros names. destruct (files !! "depth_map"%string) as [d|].
    2: { split; [done|]. by intros (f0 & d & _ & [=] & _). }
    assert (Hde : d = EmptyString -> VideoApi.allowed_file d = Some false)
      by (by intros ->).
    case_bool_decide as He; simpl.
    { split; [done|]. intros (f0 & d0 & [= <-] & _ & Ha & _). rewrite (Hfe He) in Ha. done. }
    destruct (Hbool f) as [Hf | Hf]; rewrite Hf; simpl.
    2: { split; [done|]. intros (f0 & d0 & [= <-] & _ & Ha & _). congruence. }
    case_bool_decide as He'; simpl.
    { split; [done|]. intros (f0 & d0 & _ & [= <-] & _ & Ha & _).
      rewrite (Hde He') in Ha. done. }
    destruct (Hbool d) as [Hd | Hd]; rewrite Hd; simpl.
    + split; [intros [= <-]; by exists f, d|].
      by intros (f0 & d0 & [= <-] & [= <-] & _ & _ & ->).
    + split; [done|]. intros (f0 & d0 & _ & [= <-] & _ & Ha & _). congruence.
Qed.

(** ** Depth processing *)

Lemma int_truediv (a b : Z) :
  0 <= a -> 0 < b -> Py.int (inject_Z a / inject_Z b) = a `div` b.
Proof.
  intros Ha Hb. destruct b as [|p|p]; try lia.
  unfold Py.int, Qdiv, Qmult, Qinv. simpl. rewrite Z.mul_1_r.
  by rewrite Z.quot_div_nonneg by lia.
Qed.

(** X11. An image larger than [max_size] is shrunk so that its longer
    side is exactly [max_size] and its shorter side is the proportional
    length rounded down: neither side grows, and the shorter side is 0,
    an empty image, exactly when the image is more than [max_size]
    times as long as it is wide (or the reverse). *)
Theorem new_size_fits (width height max_size : Z) :
  1 <= width -> 1 <= height -> 1 <= max_size -> Z.max width height > max_size ->
  exists new_width new_height,
    DepthApi.new_size width height max_size = Some (new_width, new_height) /\
    Z.max new_width new_height = max_size /\
    0 <= new_width <= width /\ 0 <= new_height <= height /\
    (if width >? height
     then new_width = max_size /\
          new_height * width <= height * max_size < (new_height + 1) * width
     else new_height = max_size /\
          new_width * height <= width * max_size < (new_width + 1) * height) /\
    (1 <= new_width /\ 1 <= new_height <->
     Z.max width height <= Z.min width height * max_size).
Proof.
  intros Hw Hh Hm Hbig. unfold DepthApi.new_size, Py.truediv.
  destruct (width >? height) eqn:E.
  - destruct (width =? 0) eqn:E0; [lia|]. simpl.
    rewrite int_truediv by lia. eexists _, _. split; [done|].
    pose proof (Z.div_mod (height * max_size) width ltac:(lia)) as Hdm.
    pose proof (Z.mod_pos_bound (height * max_size) width ltac:(lia)) as Hmod.
    set (q := (height * max_size) `div` width) in *.
    assert (0 <= q) by (apply Z.div_pos; lia).
    assert (q <= max_size) by nia. assert (q <= height) by nia.
    split_and!; try lia. split; [intros [_ ?]|intros ?; split; [lia|]]; nia.
  - destruct (height =? 0) eqn:E0; [lia|]. simpl.
    rewrite int_truediv by lia. eexists _, _. split; [done|].
    pose proof (Z.div_mod (width * max_size) height ltac:(lia)) as Hdm.
    pose proof (Z.mod_pos_bound (width * max_size) height ltac:(lia)) as Hmod.
    set (q := (width * max_size) `div` height) in *.
    assert (0 <= q) by (apply Z.div_pos; lia).
    assert (q <= max_size) by nia. assert (q <= width) by nia.
    split_and!; try lia. split; [intros [? _]|intros ?; split; [|lia]]; nia.
Qed.

Lemma foldr_min_spec (v : Z) (vs : list Z) :
  In (foldr Z.min v vs) (v :: vs) /\ forall x, In x (v :: vs) -> foldr Z.min v vs <= x.
Proof.
  induction vs as [|a vs [Hin Hle]]; simpl.
  - split; [by left|]. intros x [<-|[]]. lia.
  - split.
    + destruct (Z.min_spec a (foldr Z.min v vs)) as [[_ ->]|[_ ->]]; [right; by left|].
      destruct Hin as [Hin|Hin]; [by left|right; by right].
    + intros x [<-|[<-|Hx]].
      * specialize (Hle v (or_introl eq_refl)). lia.
      * lia.
      * specialize (Hle x (or_intror Hx)). lia.
Qed.

Lemma foldr_max_spec (v : Z) (vs : list Z) :
  In (foldr Z.max v vs) (v :: vs) /\ forall x, In x (v :: vs) -> x <= foldr Z.max v vs.
Proof.
  induction vs as [|a vs [Hin Hle]]; simpl.
  - split; [by left|]. intros x [<-|[]]. lia.
  - split.
    + destruct (Z.max_spec a (foldr Z.max v vs)) as [[_ ->]|[_ ->]]; [|right; by left].
      destruct Hin as [Hin|Hin]; [by left|right; by right].
    + intros x [<-|[<-|Hx]].
      * specialize (Hle v (or_introl eq_refl)). lia.
      * lia.
      * specialize (Hle x (or_intror Hx)). lia.
Qed.

Lemma lookup2_In {A} (g : grid A) (i j : nat) (v : A) :
  lookup2 g i j = Some v -> In v (concat g).
Proof.
  unfold lookup2. intros H. destruct (g !! i) as [row|] eqn:Hrow; simplify_eq/=.
  apply in_concat. exists row. split; apply list_elem_of_In; by eapply list_elem_of_lookup_2.
Qed.

Lemma In_lookup2 {A} (g : grid A) (v : A) :
  In v (concat g) -> exists i j, lookup2 g i j = Some v.
Proof.
  intros H. apply in_concat in H as (row & Hrow & Hv).
  apply list_elem_of_In, list_elem_of_lookup_1 in Hrow as [i Hi].
  apply list_elem_of_In, list_elem_of_lookup_1 in Hv as [j Hj].
  exists i, j. unfold lookup2. by rewrite Hi.
Qed.

(** The minimum and the maximum of a non-empty array are values of the
    array that bound all its values. *)
Lemma array_min_max (a : grid Z) (h w : Z) :
  rect h w a ->
  exists lo hi,
    DepthApi.array_min a = Some lo /\ DepthApi.array_max a = Some hi /\
    (exists i j, lookup2 a i j = Some lo) /\ (exists i j, lookup2 a i j = Some hi) /\
    forall i j v, lookup2 a i j = Some v -> lo <= v <= hi.
Proof.
  intros (Hh & Hw & Hg & Hrows). unfold DepthApi.array_min, DepthApi.array_max.
  destruct (concat a) as [|v vs] eqn:Hc.
  { destruct a as [|row a]; [unfold height in Hg; simpl in Hg; lia|].
    apply Forall_cons in Hrows as [Hrow _]. destruct row; simpl in *; [lia|done]. }
  destruct (foldr_min_spec v vs) as [Hmin Hle]. destruct (foldr_max_spec v vs) as [Hmax Hge].
  rewrite <- Hc in *. eexists _, _. split_and!; try done.
  - by apply In_lookup2.
  - by apply In_lookup2.
  - intros i j x Hx. apply lookup2_In in Hx. split; [by apply Hle|by apply Hge].
Qed.

Lemma fmap2_lookup {A B} (f : A -> B) (g : grid A) (i j : nat) :
  lookup2 ((fun row : list A => f <$> row) <$> g) i j = f <$> lookup2 g i j.
Proof.
  unfold lookup2. rewrite list_lookup_fmap.
  destruct (g !! i) as [row|]; simpl; [|done]. by rewrite list_lookup_fmap.
Qed.

Lemma fmap2_shape {A B} (f : A -> B) (g : grid A) :
  length <$> ((fun row : list A => f <$> row) <$> g) = length <$> g.
Proof.
  rewrite <- list_fmap_compose. apply list_fmap_ext. intros _ row _. simpl.
  by rewrite length_fmap.
Qed.

Lemma scale_255 (v lo hi : Z) :
  lo <= v <= hi -> lo < hi ->
  Np.astype_uint8 (inject_Z (v - lo) / inject_Z (hi - lo) * 255)%Q
    = ((v - lo) * 255) `div` (hi - lo) /\
  0 <= ((v - lo) * 255) `div` (hi - lo) <= 255.
Proof.
  intros Hv Hlt.
  assert (Hq : (inject_Z (v - lo) / inject_Z (hi - lo) * 255
                == inject_Z ((v - lo) * 255) / inject_Z (hi - lo))%Q).
  { rewrite inject_Z_mult. change (inject_Z 255) with 255%Q. field.
    intros E0. unfold Qeq in E0. simpl in E0. lia. }
  assert (Hr : 0 <= ((v - lo) * 255) `div` (hi - lo) <= 255).
  { split; [apply Z.div_pos; lia|].
    apply Z.div_le_upper_bound; [lia|]. nia. }
  split; [|done]. unfold Np.astype_uint8.
  assert (Hint : Py.int (inject_Z (v - lo) / inject_Z (hi - lo) * 255)
                 = ((v - lo) * 255) `div` (hi - lo)).
  { rewrite <- (int_truediv ((v - lo) * 255) (hi - lo)) by lia.
    rewrite !int_nonneg.
    - by apply Qfloor_comp.
    - rewrite <- Hq. apply Qmult_le_0_compat; [|done].
      apply Qle_shift_div_l; [rewrite <- (Zlt_Qlt 0); lia|].
      rewrite Qmult_0_l, <- (Zle_Qle 0). lia.
    - apply Qmult_le_0_compat; [|done].
      apply Qle_shift_div_l; [rewrite <- (Zlt_Qlt 0); lia|].
      rewrite Qmult_0_l, <- (Zle_Qle 0). lia. }
  rewrite Hint. apply Z.mod_small. lia.
Qed.

(** X12. Normalising a non-empty 8-bit depth array that is not flat
    stretches it to the full range: the output has the shape of the
    input, every value [v] becomes [(v - min) * 255 // (max - min)],
    which lies in [0..255], the minimum becomes 0 and the maximum 255
    (both occur), and the order of the values is kept.  A flat array
    becomes the 8-bit cast of NaN everywhere. *)
Theorem normalize_full_range (cast_nan : Z) (depth_array : grid Z) (h w : Z) :
  valid_gray h w depth_array ->
  exists lo hi out,
    DepthApi.array_min depth_array = Some lo /\
    DepthApi.array_max depth_array = Some hi /\
    DepthApi.normalize cast_nan depth_array = Some out /\
    length <$> out = length <$> depth_array /\
    (lo < hi ->
       (forall i j v, lookup2 depth_array i j = Some v ->
          lookup2 out i j = Some (((v - lo) * 255) `div` (hi - lo)) /\
          0 <= ((v - lo) * 255) `div` (hi - lo) <= 255) /\
       (forall i j v i' j' v' o o',
          lookup2 depth_array i j = Some v -> lookup2 depth_array i' j' = Some v' ->
          lookup2 out i j = Some o -> lookup2 out i' j' = Some o' ->
          v <= v' -> o <= o') /\
       (exists i j, lookup2 depth_array i j = Some lo /\ lookup2 out i j = Some 0) /\
       (exists i j, lookup2 depth_array i j = Some hi /\ lookup2 out i j = Some 255)) /\
    (lo = hi -> forall i j o, lookup2 out i j = Some o -> o = cast_nan).
Proof.
  intros [Hrect _].
  destruct (array_min_max depth_array h w Hrect)
    as (lo & hi & Hlo & Hhi & (il & jl & Hil) & (ih & jh & Hih) & Hb).
  unfold DepthApi.normalize. rewrite Hlo, Hhi. simpl.
  eexists lo, hi, _. split_and!; try done.
  - apply fmap2_shape.
  - intros Hlt.
    assert (Hpx : forall i j v, lookup2 depth_array i j = Some v ->
      lookup2 ((fun row : list Z =>
                  (fun v : Z =>
                     if hi - lo =? 0 then cast_nan
                     else Np.astype_uint8
                            (inject_Z (v - lo) / inject_Z (hi - lo) * 255)%Q) <$> row)
               <$> depth_array) i j = Some (((v - lo) * 255) `div` (hi - lo)) /\
      0 <= ((v - lo) * 255) `div` (hi - lo) <= 255).
    { intros i j v Hv. rewrite fmap2_lookup, Hv. simpl.
      destruct (hi - lo =? 0) eqn:E; [lia|].
      destruct (scale_255 v lo hi (Hb i j v Hv) Hlt) as [-> ?]. done. }
    split_and!.
    + done.
    + intros i j v i' j' v' o o' Hv Hv' Ho Ho' Hle.
      destruct (Hpx i j v Hv) as [Ho2 _]. destruct (Hpx i' j' v' Hv') as [Ho2' _].
      rewrite Ho2 in Ho. rewrite Ho2' in Ho'. simplify_eq.
      apply Z.div_le_mono; lia.
    + exists il, jl. split; [done|]. destruct (Hpx il jl lo Hil) as [-> _].
      rewrite Z.sub_diag. done.
    + exists ih, jh. split; [done|]. destruct (Hpx ih jh hi Hih) as [-> _].
      rewrite Z.mul_comm, Z.div_mul by lia. done.
  - intros -> i j o Ho. rewrite fmap2_lookup in Ho.
    destruct (lookup2 depth_array i j); simplify_eq/=.
    by rewrite Z.sub_diag.
Qed.

Lemma new_size_eq (width height max_size : Z) :
  1 <= width -> 1 <= height -> 0 <= max_size ->
  DepthApi.new_size width height max_size =
    Some (if width >? height then (max_size, (height * max_size) `div` width)
          else ((width * max_size) `div` height, max_size)).
Proof.
  intros Hw Hh Hm. unfold DepthApi.new_size, Py.truediv.
  destruct (width >? height).
  - destruct (width =? 0) eqn:E0; [lia|]. simpl. by rewrite int_truediv by lia.
  - destruct (height =? 0) eqn:E0; [lia|]. simpl. by rewrite int_truediv by lia.
Qed.

Lemma normalize_rect (cast_nan : Z) (depth_array : grid Z) (h w : Z) :
  rect h w depth_array ->
  exists out, DepthApi.normalize cast_nan depth_array = Some out /\ rect h w out.
Proof.
  intros Hrect.
  destruct (array_min_max depth_array h w Hrect) as (lo & hi & Hlo & Hhi & _).
  unfold DepthApi.normalize. rewrite Hlo, Hhi. simpl. eexists. split; [done|].
  eapply rect_of_shape; [exact Hrect|]. apply fmap2_shape.
Qed.

(** X13. When PIL's [resize] returns an image of the size asked for and
    rejects an empty size, the estimator keeps the size of its input
    and [cv2.resize] returns a map of the size asked for,
    [process_image_to_depth] returns a depth map of exactly the size of
    the image it was given, whether or not it shrank the image for the
    estimator; this for every image that is at most [max_size] times
    as long as it is wide (or the reverse), and for no other: a longer
    image is asked to be shrunk to an empty one and fails. *)
Theorem depth_has_original_size
    (depth_estimator : grid pixel -> grid Z)
    (pil_resize : grid pixel -> Z * Z -> option (grid pixel))
    (cv2_resize : ndarray -> Z * Z -> option ndarray)
    (cast_nan : Z) (image_data : grid pixel) (h w max_size : Z) :
  rect h w image_data -> 1 <= max_size ->
  (forall g h' w', rect h' w' g -> rect h' w' (depth_estimator g)) ->
  (forall g nw nh,
     if (1 <=? nw) && (1 <=? nh)
     then exists r, pil_resize g (nw, nh) = Some r /\ rect nh nw r
     else pil_resize g (nw, nh) = None) ->
  (forall g nw nh, 1 <= nw -> 1 <= nh ->
     exists r, cv2_resize (Gray g) (nw, nh) = Some (Gray r) /\ rect nh nw r) ->
  (Z.max w h <= Z.min w h * max_size ->
   exists out,
     DepthApi.process_image_to_depth depth_estimator pil_resize cv2_resize
       cast_nan image_data max_size = Some out /\
     rect h w out) /\
  (Z.min w h * max_size < Z.max w h ->
   DepthApi.process_image_to_depth depth_estimator pil_resize cv2_resize
     cast_nan image_data max_size = None).
Proof.
  intros Hrect Hm Hest Hpil Hcv.
  pose proof Hrect as (Hh & Hw & Hheight & _).
  pose proof (rect_width _ _ _ Hrect) as Hwidth.
  unfold DepthApi.process_image_to_depth. rewrite Hwidth, Hheight.
  split.
  - intros Hasp. destruct (Z.max w h >? max_size) eqn:Ebig.
    + rewrite new_size_eq by lia. simpl.
      set (size := if w >? h then (max_size, (h * max_size) `div` w)
                   else ((w * max_size) `div` h, max_size)).
      assert (Hsize : 1 <= size.1 /\ 1 <= size.2).
      { subst size. destruct (w >? h) eqn:E; simpl; split; try lia.
        - rewrite Z.max_l, Z.min_r in Hasp by lia. apply Z.div_le_lower_bound; lia.
        - rewrite Z.max_r, Z.min_l in Hasp by lia. apply Z.div_le_lower_bound; lia. }
      destruct size as [nw nh]. simpl in Hsize.
      specialize (Hpil image_data nw nh).
      rewrite (proj2 (Z.leb_le 1 nw)), (proj2 (Z.leb_le 1 nh)) in Hpil by lia.
      destruct Hpil as (r & -> & Hr). simpl.
      destruct (normalize_rect cast_nan _ nh nw (Hest _ _ _ Hr)) as (out & -> & Hout).
      simpl. rewrite (rect_width _ _ _ Hr). destruct Hr as (_ & _ & -> & _).
      case_bool_decide.
      * destruct (Hcv out w h Hw Hh) as (g & -> & Hg). simpl. by exists g.
      * exists out. split; [done|]. by simplify_eq.
    + simpl.
      destruct (normalize_rect cast_nan _ h w (Hest _ _ _ Hrect)) as (out & -> & Hout).
      simpl. rewrite Hwidth, Hheight. rewrite bool_decide_eq_false_2 by (by intros []).
      by exists out.
  - intros Hlong.
    assert (Hbig : Z.max w h > max_size).
    { destruct (Z.le_ge_cases w h); [rewrite Z.max_r, Z.min_l in * by lia|
                                    rewrite Z.max_l, Z.min_r in * by lia]; nia. }
    destruct (Z.max w h >? max_size) eqn:Ebig; [|lia].
    rewrite new_size_eq by lia. simpl.
    set (size := if w >? h then (max_size, (h * max_size) `div` w)
                 else ((w * max_size) `div` h, max_size)).
    assert (Hsize : size.1 < 1 \/ size.2 < 1).
    { subst size. destruct (w >? h) eqn:E; simpl; [right|left].
      - rewrite Z.max_l, Z.min_r in Hlong by lia. apply Z.div_lt_upper_bound; lia.
      - rewrite Z.max_r, Z.min_l in Hlong by lia. apply Z.div_lt_upper_bound; lia. }
    destruct size as [nw nh]. simpl in Hsize.
    specialize (Hpil image_data nw nh).
    destruct ((1 <=? nw) && (1 <=? nh)) eqn:E.
    + apply andb_true_iff in E as [?%Z.leb_le ?%Z.leb_le]. lia.
    + by rewrite Hpil.
Qed.

(** ** The reference instances meet the assumptions *)

Lemma nearest_Forall {A} (P : A -> Prop) (d : A) (g : grid A) (new_w new_h : Z) :
  P d -> Forall (Forall P) g -> Forall (Forall P) (nearest d g new_w new_h).
Proof.
  intros Hd Hg. unfold nearest. apply Forall_fmap, Forall_forall. intros i _.
  apply Forall_fmap, Forall_forall. intros j _. simpl.
  destruct (lookup2 g _ _) as [v|] eqn:Hv; simpl; [|done].
  by eapply lookup2_Forall.
Qed.

Lemma nearest_rect {A} (d : A) (g : grid A) (new_w new_h : Z) :
  1 <= new_w -> 1 <= new_h -> rect new_h new_w (nearest d g new_w new_h).
Proof.
  intros Hw Hh. unfold rect, nearest, height. split_and!; try done.
  - rewrite length_fmap, length_seq. lia.
  - apply Forall_fmap, Forall_forall. intros i _. simpl.
    rewrite length_fmap, length_seq. lia.
Qed.

Lemma resize_nearest_spec (img : ndarray) (new_w new_h : Z) :
  valid_image img -> 1 <= new_w -> 1 <= new_h ->
  exists r, resize_nearest img (new_w, new_h) = Some r /\ valid_like img new_h new_w r.
Proof.
  intros Hv Hw Hh. unfold resize_nearest.
  destruct (new_w <? 1) eqn:E1; [lia|]. destruct (new_h <? 1) eqn:E2; [lia|]. simpl.
  eexists. split; [done|]. destruct Hv as [Hv _]. destruct img as [g|g]; simpl in *.
  - destruct Hv as [_ HP]. split; [by apply nearest_rect|].
    apply nearest_Forall; [|done]. unfold u8. lia.
  - destruct Hv as [_ HP]. split; [by apply nearest_rect|].
    apply nearest_Forall; [|done]. split.
    + rewrite length_replicate. unfold channels. lia.
    + apply Forall_replicate. unfold u8. lia.
Qed.

Lemma blur_identity_shape (img : grid pixel) (ksize : Z * Z) (sigma : Z) :
  length <$> blur_identity img ksize sigma = length <$> img.
Proof. done. Qed.

Ltac solve_valid :=
  repeat first
    [ progress (unfold valid_image, valid_like, valid_color, valid_gray, rect,
                in_range, u8, height, width, channels; simpl)
    | split
    | apply Forall_cons_2
    | apply Forall_nil_2
    | lia
    | reflexivity
    | (unfold Qle; simpl; lia) ].

Lemma image_2x2_valid : valid_color 2 2 3 image_2x2.
Proof. solve_valid. Qed.

Lemma depth_2x2_valid : valid_gray 2 2 depth_2x2.
Proof. solve_valid. Qed.

Lemma depth_mid_2x2_valid : valid_gray 2 2 depth_mid_2x2.
Proof. solve_valid. Qed.

Lemma coords_2x2_in_range : in_range 2 coords_x_2x2 /\ in_range 2 coords_y_2x2.
Proof. solve_valid. Qed.

Lemma image_lit_2x2_valid : valid_color 2 2 3 image_lit_2x2.
Proof. solve_valid. Qed.

Lemma image_2x2_image : valid_image (Color image_2x2).
Proof. split; [exact image_2x2_valid|done]. Qed.

Lemma depth_2x2_image : valid_image (Gray depth_2x2).
Proof. split; [exact depth_2x2_valid|done]. Qed.

Lemma depth_mid_2x2_image : valid_image (Gray depth_mid_2x2).
Proof. split; [exact depth_mid_2x2_valid|done]. Qed.

Lemma sin_clamped_le (a : Q) : (Qabs (sin_clamped a) <= 1)%Q.
Proof.
  apply Qabs_Qle_condition. unfold sin_clamped.
  pose proof (clip_bounds (sin_taylor a) (-1) 1 ltac:(lra)). lra.
Qed.

Lemma cos_clamped_le (a : Q) : (Qabs (cos_clamped a) <= 1)%Q.
Proof.
  apply Qabs_Qle_condition. unfold cos_clamped.
  pose proof (clip_bounds (cos_taylor a) (-1) 1 ltac:(lra)). lra.
Qed.

Lemma pil_nearest_spec (g : grid pixel) (nw nh : Z) :
  if (1 <=? nw) && (1 <=? nh)
  then exists r, pil_nearest g (nw, nh) = Some r /\ rect nh nw r
  else pil_nearest g (nw, nh) = None.
Proof.
  unfold pil_nearest.
  destruct (1 <=? nw) eqn:E1; destruct (1 <=? nh) eqn:E2; simpl;
    destruct (nw <? 1) eqn:E3; destruct (nh <? 1) eqn:E4; simpl; try lia; try done.
  eexists. split; [done|]. apply nearest_rect; lia.
Qed.

Lemma first_channel_rect (g : grid pixel) (h w : Z) :
  rect h w g -> rect h w (first_channel g).
Proof.
  intros Hr. eapply rect_of_shape; [exact Hr|]. unfold first_channel.
  rewrite <- list_fmap_compose. apply list_fmap_ext. intros _ row _. simpl.
  by rewrite length_fmap.
Qed.

Lemma resize_nearest_gray (g : grid Z) (nw nh : Z) :
  1 <= nw -> 1 <= nh ->
  exists r, resize_nearest (Gray g) (nw, nh) = Some (Gray r) /\ rect nh nw r.
Proof.
  intros Hw Hh. unfold resize_nearest.
  destruct (nw <? 1) eqn:E1; [lia|]. destruct (nh <? 1) eqn:E2; [lia|]. simpl.
  eexists. split; [done|]. by apply nearest_rect.
Qed.

(** ** Instances and counterexamples *)

Lemma frames_emitted_in_order_witness :
  valid_image (Color image_2x2) /\ valid_image (Gray depth_2x2) /\
  exists frames,
    create_parallax_animation resize_nearest blur_identity sin_taylor cos_taylor 24
      (renderer_2x2 30) (Some (Color image_2x2)) (Some (Gray depth_2x2))
      (1 # 10) (17 # 100) 2 = Some frames /\
    length frames = 60%nat /\
    exists first final, head frames = Some first /\ last frames = Some final /\
      (progress first == 0)%Q /\ (progress final == 1)%Q.
Proof.
  split; [exact image_2x2_image|]. split; [exact depth_2x2_image|].
  destruct (frames_emitted_in_order resize_nearest blur_identity sin_taylor cos_taylor
              resize_nearest_spec blur_identity_shape 24
              (renderer_2x2 30) image_2x2 depth_2x2 (1 # 10) (17 # 100) 2
              image_2x2_image depth_2x2_image)
    as (frames & Hrun & _ & _ & _ & Hends & H30); [simpl; lia..|].
  exists frames. split; [exact Hrun|]. split.
  - apply H30; reflexivity.
  - apply Hends. reflexivity.
Defined.

(** C2 as stated fails: at 30 fps a duration of 1/16 s gives the
    product 1.875 and [int(1.875) = 1] frame where [round(1.875) = 2],
    and a duration of 1/64 s gives no frame at all. *)
Lemma frame_count_not_round :
  (Fl.mul (1 # 16) (Fl.of_int 30) == 15 # 8)%Q /\
  total_frames_of (renderer_2x2 30) (1 # 16) = 1 /\
  Py.round (Fl.mul (1 # 16) (Fl.of_int 30)) = 2 /\
  (length <$> create_parallax_animation resize_nearest blur_identity sin_taylor cos_taylor 24
                (renderer_2x2 30) (Some (Color image_2x2)) (Some (Gray depth_2x2))
                (1 # 10) (17 # 100) (1 # 16)) = Some 1%nat /\
  total_frames_of (renderer_2x2 30) (1 # 64) = 0 /\
  create_parallax_animation resize_nearest blur_identity sin_taylor cos_taylor 24
    (renderer_2x2 30) (Some (Color image_2x2)) (Some (Gray depth_2x2))
    (1 # 10) (17 # 100) (1 # 64) = Some [].
Proof. by vm_compute. Qed.

Lemma frame_count_truncates_witness :
  (0 < 1 # 16)%Q /\
  exists frames,
    create_parallax_animation resize_nearest blur_identity sin_taylor cos_taylor 24
      (renderer_2x2 30) (Some (Color image_2x2)) (Some (Gray depth_2x2))
      (1 # 10) (17 # 100) (1 # 16) = Some frames /\
    Z.of_nat (length frames) = Py.int (Fl.mul (1 # 16) (Fl.of_int 30)).
Proof.
  split; [reflexivity|].
  destruct (frame_count_truncates resize_nearest blur_identity sin_taylor cos_taylor
              resize_nearest_spec blur_identity_shape 24
              (renderer_2x2 30) image_2x2 depth_2x2 (1 # 10) (17 # 100) (1 # 16)
              image_2x2_image depth_2x2_image)
    as (frames & Hrun & Hn & _); [simpl; lia..|reflexivity|].
  exists frames. split; [exact Hrun | exact Hn].
Defined.

Lemma image_49x49_image : valid_image (Color image_49x49).
Proof.
  split; [|done]. split.
  - split_and!; try done. by repeat apply Forall_replicate.
  - repeat apply Forall_replicate. split; [done|].
    repeat (apply Forall_cons_2 || apply Forall_nil_2); unfold u8; lia.
Qed.

Lemma aspect_fit_empty_size_witness :
  valid_image (Color image_49x49) /\
  shape0 (Color image_49x49) = 49 /\ shape1 (Color image_49x49) = 49 /\
  resize_nearest (Color image_49x49) (0, 0) = None /\
  scaled_size 49 49 1 1 = Some (0, 0) /\
  _resize_with_aspect_ratio resize_nearest (Color image_49x49) 1 1 false = None /\
  create_parallax_animation resize_nearest blur_identity sin_taylor cos_taylor 24
    {| self_width := 1; self_height := 1; self_fps := 30 |}
    (Some (Color image_49x49)) (Some (Gray depth_49x49)) (1 # 10) (17 # 100) 3 = None.
Proof.
  split; [exact image_49x49_image|]. split; [reflexivity|]. split; [reflexivity|].
  split; [reflexivity|].
  destruct (aspect_fit_empty_size resize_nearest blur_identity sin_taylor cos_taylor 24
              (Color image_49x49) false eq_refl eq_refl eq_refl)
    as (Hsz & _ & Hfit & Hrun).
  split; [exact Hsz|]. split; [exact Hfit|].
  exact (Hrun {| self_width := 1; self_height := 1; self_fps := 30 |}
              (Some (Gray depth_49x49)) (1 # 10) (17 # 100) 3%Q eq_refl eq_refl).
Defined.

Lemma aspect_fit_two_or_more_witness :
  valid_image (Color image_2x2) /\ valid_image (Gray depth_mid_2x2) /\
  exists image_resized depth_resized,
    _resize_with_aspect_ratio resize_nearest (Color image_2x2) 5 3 false
      = Some image_resized /\
    _resize_with_aspect_ratio resize_nearest (Gray depth_mid_2x2) 5 3 true
      = Some depth_resized /\
    shape0 image_resized = 3 /\ shape1 image_resized = 5 /\
    shape0 depth_resized = 3 /\ shape1 depth_resized = 5.
Proof.
  split; [exact image_2x2_image|]. split; [exact depth_mid_2x2_image|].
  destruct (aspect_fit_two_or_more resize_nearest resize_nearest_spec
              (Color image_2x2) (Gray depth_mid_2x2) 5 3
              image_2x2_image depth_mid_2x2_image)
    as [(ri & rd & Hi & Hd & _ & _ & H1 & H2 & H3 & H4) _]; [lia..|].
  exists ri, rd. repeat split; assumption.
Defined.

(** C4 as stated fails: sampling between a pixel of value 0 and one of
    value 7 at a quarter of the way blends to 1.75, which rounds to 2,
    and the resampler writes 1. *)
Lemma cast_not_rounded :
  _bilinear_interpolate (Color image_1x2) [[1 # 4]]%Q [[0]]%Q
    = Some (Color [[[1; 1; 1]]]) /\
  corner_values image_1x2 (1 # 4) 0 0 = Some (0, 7, 0, 7) /\
  (blend (weights image_1x2 (1 # 4) 0).1 (weights image_1x2 (1 # 4) 0).2 0 7 0 7
     == 7 # 4)%Q /\
  Py.round (blend (weights image_1x2 (1 # 4) 0).1 (weights image_1x2 (1 # 4) 0).2 0 7 0 7)
    = 2.
Proof. by vm_compute. Qed.

Lemma cast_truncates_witness :
  valid_color 2 2 3 image_2x2 /\ in_range 2 coords_x_2x2 /\ in_range 2 coords_y_2x2 /\
  exists out,
    _bilinear_interpolate (Color image_2x2) coords_x_2x2 coords_y_2x2 = Some (Color out).
Proof.
  split; [exact image_2x2_valid|]. split; [exact (proj1 coords_2x2_in_range)|].
  split; [exact (proj2 coords_2x2_in_range)|].
  destruct (cast_truncates image_2x2 2 2 3 coords_x_2x2 coords_y_2x2 image_2x2_valid)
    as (out & Hout & _);
    [lia | lia | reflexivity | exact (proj1 coords_2x2_in_range)
    | exact (proj2 coords_2x2_in_range) |].
  exists out. exact Hout.
Defined.

Lemma accesses_in_bounds_witness :
  valid_color 2 2 3 image_2x2 /\ valid_gray 2 2 depth_2x2 /\
  exists out,
    _generate_parallax_frame blur_identity 24 (Color image_2x2) (Gray depth_2x2)
      (17 # 1000) (17 # 2000) (1 # 10) = Some (Color out) /\
    length <$> out = length <$> image_2x2.
Proof.
  split; [exact image_2x2_valid|]. split; [exact depth_2x2_valid|].
  exact (proj2 (proj2 (proj2
    (accesses_in_bounds blur_identity blur_identity_shape 24 image_2x2 depth_2x2 2 2 3
       (17 # 1000) (17 # 2000) (1 # 10) image_2x2_valid depth_2x2_valid)))).
Defined.

Lemma camera_path_witness :
  valid_image (Color image_2x2) /\ valid_image (Gray depth_2x2) /\
  total_frames_of (renderer_2x2 30) (1 # 30) = 1 /\
  exists frames,
    create_parallax_animation resize_nearest blur_identity sin_taylor cos_taylor 24
      (renderer_2x2 30) (Some (Color image_2x2)) (Some (Gray depth_2x2))
      (1 # 10) (17 # 100) (1 # 30) = Some frames /\
    exists r, frames = [r] /\ progress r = 0%Q.
Proof.
  split; [exact image_2x2_image|]. split; [exact depth_2x2_image|].
  split; [reflexivity|].
  destruct (camera_path resize_nearest blur_identity sin_taylor cos_taylor
              resize_nearest_spec blur_identity_shape 24
              (renderer_2x2 30) image_2x2 depth_2x2 (1 # 10) (17 # 100) (1 # 30)
              image_2x2_image depth_2x2_image)
    as (_ & ri & rd & frames & _ & _ & Hrun & _ & H1); [simpl; lia..|].
  exists frames. split; [exact Hrun|].
  destruct (H1 eq_refl) as (_ & r & Hr & Hp & _). exists r. split; [exact Hr | exact Hp].
Defined.

Lemma mid_depth_small_witness :
  Forall (Forall (fun d => d = 128)) depth_mid_2x2 /\
  forall i j dx dy,
    lookup2 (disp_field 24 depth_mid_2x2 (17 # 1000) (1 # 10)) i j = Some dx ->
    lookup2 (disp_field 24 depth_mid_2x2 (17 # 2000) (1 # 10)) i j = Some dy ->
    (Qabs dx <= 1 # 2900 /\ Qabs dy <= 1 # 5800)%Q.
Proof.
  assert (Hmid : Forall (Forall (fun d => d = 128)) depth_mid_2x2)
    by (repeat (apply Forall_cons_2 || apply Forall_nil_2); reflexivity).
  split; [exact Hmid|]. intros i j dx dy Hx Hy.
  destruct (mid_depth_small 24 ltac:(lia) depth_mid_2x2 (17 # 1000) (17 # 2000) (1 # 10) Hmid
              i j dx dy Hx Hy) as (_ & _ & _ & H1 & H2 & _).
  split; [apply H1 | apply H2]; by vm_compute.
Defined.

Lemma holes_filled_witness :
  valid_color 2 2 3 image_2x2 /\ valid_gray 2 2 depth_2x2 /\
  exists out,
    _generate_parallax_frame blur_identity 24 (Color image_2x2) (Gray depth_2x2) 0 0 (1 # 10)
      = Some (Color out) /\
    forall i j px, lookup2 out i j = Some px -> is_hole px = true ->
      lookup2 (blur_identity image_2x2 (51, 51) 20) i j = Some px.
Proof.
  split; [exact image_2x2_valid|]. split; [exact depth_2x2_valid|].
  exact (holes_filled blur_identity blur_identity_shape 24 image_2x2 depth_2x2 2 2 3
           0 0 (1 # 10) image_2x2_valid depth_2x2_valid).
Defined.

Lemma identity_on_grid_witness :
  valid_color 2 2 3 image_2x2 /\
  _bilinear_interpolate (Color image_2x2) (x_coords image_2x2) (y_coords image_2x2)
    = Some (Color image_2x2) /\
  exists out,
    _bilinear_interpolate (Color image_2x2) (to_float [[1; 0]; [1; 1]])
      (to_float [[1; 1]; [0; 0]]) = Some (Color out).
Proof.
  split; [exact image_2x2_valid|].
  destruct (identity_on_grid image_2x2 2 2 3 [[1; 0]; [1; 1]] [[1; 1]; [0; 0]]
              image_2x2_valid) as [(out & Hout & _) Hid];
    [lia | lia | reflexivity | solve_valid | solve_valid |].
  split; [exact Hid|]. exists out. exact Hout.
Defined.

(** C10 as stated fails: on a row of two pixels of value 3, sampled at
    the binary64 number nearest 0.3, the blend of the four corners is
    [3 * 0.7 + 3 * 0.3] in binary64, 2.9999999999999996, and the
    resampler writes 2, below the minimum of the corners. *)
Lemma blend_below_corners :
  (Ieee.binary64 (3 # 10) == 5404319552844595 # 18014398509481984)%Q /\
  valid_color 1 2 3 image_flat_1x2 /\
  in_range 2 [[Ieee.binary64 (3 # 10)]] /\ in_range 1 [[0%Q]] /\
  _bilinear_interpolate (Color image_flat_1x2) [[Ieee.binary64 (3 # 10)]] [[0%Q]]
    = Some (Color [[[2; 2; 2]]]) /\
  corner_values image_flat_1x2 (Ieee.binary64 (3 # 10)) 0 0 = Some (3, 3, 3, 3) /\
  (blend (weights image_flat_1x2 (Ieee.binary64 (3 # 10)) 0).1
         (weights image_flat_1x2 (Ieee.binary64 (3 # 10)) 0).2 3 3 3 3
     == 6755399441055743 # 2251799813685248)%Q /\
  (blend (weights image_flat_1x2 (Ieee.binary64 (3 # 10)) 0).1
         (weights image_flat_1x2 (Ieee.binary64 (3 # 10)) 0).2 3 3 3 3
     < inject_Z (Z.min (Z.min 3 3) (Z.min 3 3)))%Q.
Proof.
  split; [by vm_compute|]. split; [solve_valid|].
  split; [repeat (apply Forall_cons_2 || apply Forall_nil_2); by vm_compute|].
  split; [repeat (apply Forall_cons_2 || apply Forall_nil_2); by vm_compute|].
  by vm_compute.
Qed.

Lemma blend_nearly_convex_witness :
  valid_color 2 2 3 image_2x2 /\ in_range 2 coords_x_2x2 /\ in_range 2 coords_y_2x2 /\
  exists out,
    _bilinear_interpolate (Color image_2x2) coords_x_2x2 coords_y_2x2 = Some (Color out) /\
    length <$> out = length <$> coords_x_2x2.
Proof.
  split; [exact image_2x2_valid|]. split; [exact (proj1 coords_2x2_in_range)|].
  split; [exact (proj2 coords_2x2_in_range)|].
  destruct (blend_nearly_convex image_2x2 2 2 3 coords_x_2x2 coords_y_2x2 image_2x2_valid)
    as (out & Hout & Hs & _);
    [lia | lia | reflexivity | exact (proj1 coords_2x2_in_range)
    | exact (proj2 coords_2x2_in_range) |].
  exists out. split; [exact Hout | exact Hs].
Defined.

(** ** Instances of the further properties *)

Lemma frames_have_renderer_size_witness :
  valid_image (Color image_2x2) /\ valid_image (Gray depth_2x2) /\
  exists frames,
    create_parallax_animation resize_nearest blur_identity sin_taylor cos_taylor 24
      (renderer_2x2 30) (Some (Color image_2x2)) (Some (Gray depth_2x2))
      (1 # 10) (17 # 100) 3 = Some frames /\
    forall i r, frames !! i = Some r ->
      exists out, frame r = Color out /\ rect 2 2 out /\
        shape0 (frame r) = 2 /\ shape1 (frame r) = 2.
Proof.
  split; [exact image_2x2_image|]. split; [exact depth_2x2_image|].
  exact (frames_have_renderer_size resize_nearest blur_identity sin_taylor cos_taylor
           resize_nearest_spec blur_identity_shape 24
           (renderer_2x2 30) image_2x2 depth_2x2 (1 # 10) (17 # 100) 3
           image_2x2_image depth_2x2_image ltac:(simpl; lia) ltac:(simpl; lia)).
Defined.


Lemma depth_moves_both_ways_witness :
  u8 64 /\
  (displacement 24 0 (17 # 1000) (1 # 10) == - displacement 24 255 (17 # 1000) (1 # 10) /\
   Qabs (displacement 24 64 (17 # 1000) (1 # 10))
     <= Qabs (displacement 24 255 (17 # 1000) (1 # 10)) /\
   Qabs (displacement 24 255 (17 # 1000) (1 # 10))
     <= (50 + (1 # 1000)) * Qabs ((17 # 1000) * (1 # 10)))%Q.
Proof.
  split; [unfold u8; lia|].
  destruct (depth_moves_both_ways 24 ltac:(lia) 64 (17 # 1000) (1 # 10)
              ltac:(unfold u8; lia)) as (H1 & H2 & H3 & _).
  split; [exact H1|]. split; [exact H2 | exact H3].
Defined.

Lemma parallax_shift_bounded_witness :
  valid_image (Color image_2x2) /\ valid_image (Gray depth_2x2) /\
  exists ri frames,
    _resize_with_aspect_ratio resize_nearest (Color image_2x2) 2 2 false
      = Some (Color ri) /\
    create_parallax_animation resize_nearest blur_identity sin_clamped cos_clamped 24
      (renderer_2x2 30) (Some (Color image_2x2)) (Some (Gray depth_2x2))
      (1 # 10) (17 # 100) 3 = Some frames /\
    forall n r, frames !! n = Some r ->
      exists out, frame r = Color out /\
        forall i j px, lookup2 out i j = Some px ->
          exists sx sy s,
            (Qabs (sx - inject_Z (Z.of_nat j))
               <= (50 + (1 # 1000)) * (Qabs (17 # 100) * ((1 # 10) * (1 # 10)))
                  + (1 # 2097152))%Q /\
            (Qabs (sy - inject_Z (Z.of_nat i))
               <= (25 + (1 # 1000)) * (Qabs (17 # 100) * ((1 # 10) * (1 # 10)))
                  + (1 # 2097152))%Q /\
            sample ri sx sy = Some s /\
            (px = s \/
             (is_hole s = true /\
              lookup2 (blur_identity ri (51, 51) 20) i j = Some px)).
Proof.
  split; [exact image_2x2_image|]. split; [exact depth_2x2_image|].
  exact (parallax_shift_bounded resize_nearest blur_identity sin_clamped cos_clamped
           resize_nearest_spec blur_identity_shape 24 ltac:(lia)
           (renderer_2x2 30) image_2x2 depth_2x2 (1 # 10) (17 # 100) 3
           image_2x2_image depth_2x2_image ltac:(simpl; lia) ltac:(simpl; lia)
           sin_clamped_le cos_clamped_le).
Defined.

Lemma still_animation_witness :
  valid_image (Color image_2x2) /\ valid_image (Gray depth_2x2) /\
  ((17 # 100) * 0 == 0)%Q /\
  exists ri frames,
    _resize_with_aspect_ratio resize_nearest (Color image_2x2) 2 2 false
      = Some (Color ri) /\
    create_parallax_animation resize_nearest blur_identity sin_taylor cos_taylor 24
      (renderer_2x2 30) (Some (Color image_2x2)) (Some (Gray depth_2x2))
      0 (17 # 100) 3 = Some frames /\
    forall n r, frames !! n = Some r ->
      exists out, frame r = Color out /\
        length <$> out = length <$> ri /\
        forall i j px, lookup2 out i j = Some px ->
          exists s, lookup2 ri i j = Some s /\
            ((is_hole s = false /\ px = s) \/
             (is_hole s = true /\
              lookup2 (blur_identity ri (51, 51) 20) i j = Some px)).
Proof.
  split; [exact image_2x2_image|]. split; [exact depth_2x2_image|].
  split; [reflexivity|].
  exact (still_animation resize_nearest blur_identity sin_taylor cos_taylor
           resize_nearest_spec blur_identity_shape 24 ltac:(lia)
           (renderer_2x2 30) image_2x2 depth_2x2 0 (17 # 100) 3
           image_2x2_image depth_2x2_image ltac:(simpl; lia) ltac:(simpl; lia)
           ltac:(reflexivity)).
Defined.

Lemma crop_or_pad_centred_witness :
  rect 2 2 depth_2x2 /\
  exists r,
    center_crop_pad 0 depth_2x2 2 2 3 1 = Some r /\
    rect 1 3 r /\
    forall i j : nat, Z.of_nat i < 1 -> Z.of_nat j < 3 ->
      lookup2 r i j =
        if bool_decide (0 <= Z.of_nat i + 0 < 2 /\ 0 <= Z.of_nat j + - 0 < 2)
        then lookup2 depth_2x2 (Z.to_nat (Z.of_nat i + 0)) (Z.to_nat (Z.of_nat j + - 0))
        else Some 0.
Proof.
  split; [apply depth_2x2_valid|].
  exact (crop_or_pad_centred 0 depth_2x2 2 2 3 1 ltac:(lia) ltac:(lia)
           (proj1 depth_2x2_valid)).
Defined.

Lemma resize_same_size_witness :
  valid_image (Color image_2x2) /\
  exists r, resize_nearest (Color image_2x2) (2, 2) = Some r /\
            valid_like (Color image_2x2) 2 2 r /\
            _resize_with_aspect_ratio resize_nearest (Color image_2x2) 2 2 false = Some r.
Proof.
  split; [exact image_2x2_image|].
  exact (resize_same_size resize_nearest resize_nearest_spec (Color image_2x2) false
           image_2x2_image).
Defined.

Lemma frame_files_distinct_witness :
  valid_image (Color image_2x2) /\ valid_image (Gray depth_2x2) /\
  exists frames files paths,
    create_parallax_animation resize_nearest blur_identity sin_taylor cos_taylor 24
      (renderer_2x2 30) (Some (Color image_2x2)) (Some (Gray depth_2x2))
      (1 # 10) (17 # 100) 3 = Some frames /\
    write_frames resize_nearest blur_identity sin_taylor cos_taylor 24
      (renderer_2x2 30) (Some (Color image_2x2)) (Some (Gray depth_2x2))
      (1 # 10) (17 # 100) 3 "/tmp/frames" = Some (files, paths) /\
    paths = (fun r => frame_path "/tmp/frames" (frame_idx r)) <$> frames /\
    NoDup paths /\
    size files = length frames /\
    (forall n r, frames !! n = Some r ->
       files !! frame_path "/tmp/frames" (Z.of_nat n) = Some (frame r)) /\
    (forall k, is_Some (files !! k) -> k ∈ paths).
Proof.
  split; [exact image_2x2_image|]. split; [exact depth_2x2_image|].
  exact (frame_files_distinct resize_nearest blur_identity sin_taylor cos_taylor
           resize_nearest_spec blur_identity_shape 24
           (renderer_2x2 30) image_2x2 depth_2x2 (1 # 10) (17 # 100) 3 "/tmp/frames"
           image_2x2_image depth_2x2_image ltac:(simpl; lia) ltac:(simpl; lia)).
Defined.

Lemma new_size_fits_witness :
  Z.max 4000 3000 > 1024 /\
  exists new_width new_height,
    DepthApi.new_size 4000 3000 1024 = Some (new_width, new_height) /\
    new_width = 1024 /\ new_height = 768 /\
    Z.max new_width new_height = 1024.
Proof.
  split; [lia|].
  destruct (new_size_fits 4000 3000 1024 ltac:(lia) ltac:(lia) ltac:(lia) ltac:(lia))
    as (nw & nh & Hs & Hmax & _ & _ & Hside & _).
  exists nw, nh. simpl in Hside. destruct Hside as [Hnw Hnh].
  split; [exact Hs|]. split; [exact Hnw|]. split; [lia|exact Hmax].
Defined.

Lemma normalize_full_range_witness :
  valid_gray 2 2 depth_2x2 /\
  exists lo hi out,
    DepthApi.array_min depth_2x2 = Some lo /\
    DepthApi.array_max depth_2x2 = Some hi /\
    DepthApi.normalize 0 depth_2x2 = Some out /\
    length <$> out = length <$> depth_2x2.
Proof.
  split; [exact depth_2x2_valid|].
  destruct (normalize_full_range 0 depth_2x2 2 2 depth_2x2_valid)
    as (lo & hi & out & Hlo & Hhi & Hout & Hshape & _).
  exists lo, hi, out. repeat split; assumption.
Defined.

Lemma depth_has_original_size_witness :
  rect 2 2 image_2x2 /\ Z.max 2 2 <= Z.min 2 2 * 1 /\
  exists out,
    DepthApi.process_image_to_depth first_channel pil_nearest resize_nearest
      0 image_2x2 1 = Some out /\
    rect 2 2 out.
Proof.
  split; [apply image_2x2_valid|]. split; [lia|].
  exact (proj1 (depth_has_original_size first_channel pil_nearest resize_nearest
                  0 image_2x2 2 2 1 (proj1 image_2x2_valid) ltac:(lia)
                  (fun g h' w' => first_channel_rect g h' w')
                  pil_nearest_spec resize_nearest_gray)
               ltac:(lia)).
Defined.

Lemma crop_keeps_alignment_witness :
  valid_color 2 2 3 image_2x2 /\ valid_gray 2 2 depth_2x2 /\
  exists new_w new_h si sd ri rd,
    scaled_size 2 2 5 3 = Some (new_w, new_h) /\
    resize_nearest (Color image_2x2) (new_w, new_h) = Some (Color si) /\
    resize_nearest (Gray depth_2x2) (new_w, new_h) = Some (Gray sd) /\
    _resize_with_aspect_ratio resize_nearest (Color image_2x2) 5 3 false
      = Some (Color ri) /\
    _resize_with_aspect_ratio resize_nearest (Gray depth_2x2) 5 3 true
      = Some (Gray rd).
Proof.
  split; [exact image_2x2_valid|]. split; [exact depth_2x2_valid|].
  destruct (crop_keeps_alignment resize_nearest resize_nearest_spec
              image_2x2 depth_2x2 2 2 3 5 3 image_2x2_valid depth_2x2_valid
              ltac:(lia) ltac:(lia) ltac:(lia) ltac:(lia))
    as (new_w & new_h & si & sd & ri & rd & dx & dy
        & H1 & _ & _ & H2 & H3 & H4 & H5 & _).
  exists new_w, new_h, si, sd, ri, rd. repeat split; assumption.
Defined.

Lemma no_blur_without_black_witness :
  valid_color 2 2 3 image_lit_2x2 /\ valid_gray 2 2 depth_2x2 /\
  exists out,
    _bilinear_interpolate (Color image_lit_2x2)
      (new_x 24 depth_2x2 (17 # 1000) (1 # 10))
      (new_y 24 depth_2x2 (17 # 2000) (1 # 10)) = Some (Color out) /\
    _generate_parallax_frame blur_identity 24 (Color image_lit_2x2) (Gray depth_2x2)
      (17 # 1000) (17 # 2000) (1 # 10) = Some (Color out) /\
    forall i j px, lookup2 out i j = Some px ->
      is_hole px = false /\ exists v, px !! 0%nat = Some v /\ 1 <= v <= 255.
Proof.
  split; [exact image_lit_2x2_valid|]. split; [exact depth_2x2_valid|].
  apply (no_blur_without_black blur_identity 24 image_lit_2x2 depth_2x2 2 2 3
           (17 # 1000) (17 # 2000) (1 # 10) 0
           image_lit_2x2_valid depth_2x2_valid); [lia..|].
  unfold image_lit_2x2.
  repeat (apply Forall_cons_2 || apply Forall_nil_2);
    intros v [= <-]; lia.
Defined.

Lemma negative_size_raises_witness :
  (self_width {| self_width := -1; self_height := 2; self_fps := 30 |} < 0 \/
   self_height {| self_width := -1; self_height := 2; self_fps := 30 |} < 0) /\
  create_parallax_animation resize_nearest blur_identity sin_taylor cos_taylor 24
    {| self_width := -1; self_height := 2; self_fps := 30 |}
    (Some (Color image_2x2)) (Some (Gray depth_2x2)) (1 # 10) (17 # 100) 3 = None.
Proof.
  split; [left; simpl; lia|].
  exact (proj1 (proj2 (negative_size_raises resize_nearest blur_identity sin_taylor cos_taylor 24
                         {| self_width := -1; self_height := 2; self_fps := 30 |}
                         (Some (Color image_2x2)) (Some (Gray depth_2x2))
                         (1 # 10) (17 # 100) 3 "/tmp/frames"
                         ltac:(left; simpl; lia)))).
Defined.
